(** * A shallow embedding of the playchess board core (board.cpp).

    The 10x12 mailbox board, its per-piece position lists, the Zobrist
    hash, the make/unmake protocol, attack detection, the pseudo-move
    generator with its hash-keyed cache, and the FEN codec.

    Conventions of the embedding:
    - squares, pieces, castle masks and clocks are [Z];
    - the C++ arrays [m_pieces] (120 cells) and [m_positions] (16 piece
      lists) are stdpp lists read with [!!!] and written with [<[_:=_]>];
      a piece list is modelled by its live prefix
      [m_positions[p][0 .. m_num_pieces[p])], so [m_num_pieces[p]] is its
      length;
    - every [ASSERT] of the source makes the operation fail ([None]): in a
      release build a failing [ASSERT] is undefined behaviour
      ([__builtin_unreachable]), in a debug build it exits;
    - [validate_board] and the [INFO]/[WARN] logging are debug-only and
      have no effect on the state. *)

From Stdlib Require Import ZArith Bool List Lia String Ascii Permutation.
From stdpp Require Import base list gmap.
Import ListNotations.

Open Scope Z_scope.

(* ------------------------------------------------------------------ *)
(** ** Sides, pieces and squares *)

(** Modelled from the spec: [piece.hpp] and [square.hpp] are not in the
    sources.  The spec fixes: 16 piece identifiers, the low bits give the
    species and bit 3 the colour (so [piece ^ 8] flips the side),
    [INVALID_PIECE] marks empty and sentinel cells; white = 0, black = 1;
    a 10x12 mailbox with [A1 = 21], [H1 = 28], [A8 = 91], [H8 = 98]. *)

Definition WHITE : bool := false.
Definition BLACK : bool := true.

Definition INVALID_PIECE : Z := 0.
Definition WHITE_PAWN : Z := 1.
Definition WHITE_KNIGHT : Z := 2.
Definition WHITE_BISHOP : Z := 3.
Definition WHITE_ROOK : Z := 4.
Definition WHITE_QUEEN : Z := 5.
Definition WHITE_KING : Z := 6.
Definition BLACK_PAWN : Z := 9.
Definition BLACK_KNIGHT : Z := 10.
Definition BLACK_BISHOP : Z := 11.
Definition BLACK_ROOK : Z := 12.
Definition BLACK_QUEEN : Z := 13.
Definition BLACK_KING : Z := 14.

Definition species (p : Z) : Z := Z.land p 7.

Definition valid_piece (p : Z) : bool :=
  (0 <=? p) && (p <? 16) && (1 <=? species p) && (species p <=? 6).

Definition get_side (p : Z) : bool := Z.testbit p 3.

Definition is_pawn (p : Z) : bool := species p =? 1.
Definition is_king (p : Z) : bool := species p =? 6.
Definition is_diag (p : Z) : bool := (species p =? 3) || (species p =? 5).
Definition is_ortho (p : Z) : bool := (species p =? 4) || (species p =? 5).
(** [update_castling] strips rights "when a king or rook leaves its home
    square" (spec 4.6). *)
Definition is_castle (p : Z) : bool := (species p =? 4) || (species p =? 6).

Definition opposite_colours (a b : Z) : bool :=
  valid_piece a && valid_piece b && xorb (get_side a) (get_side b).

Definition INVALID_SQUARE : Z := 0.

Definition valid_square (sq : Z) : bool :=
  (21 <=? sq) && (sq <=? 98) && (1 <=? sq mod 10) && (sq mod 10 <=? 8).

Definition get_square_row (sq : Z) : Z := sq / 10 - 2.
Definition get_square_col (sq : Z) : Z := sq mod 10 - 1.
Definition get_square_120_rc (row col : Z) : Z := 21 + 10 * row + col.

Definition RANK_1 : Z := 0.
Definition RANK_2 : Z := 1.
Definition RANK_3 : Z := 2.
Definition RANK_6 : Z := 5.
Definition RANK_7 : Z := 6.
Definition RANK_8 : Z := 7.

Definition A1 : Z := 21.
Definition B1 : Z := 22.
Definition C1 : Z := 23.
Definition D1 : Z := 24.
Definition E1 : Z := 25.
Definition F1 : Z := 26.
Definition G1 : Z := 27.
Definition H1 : Z := 28.
Definition A8 : Z := 91.
Definition B8 : Z := 92.
Definition C8 : Z := 93.
Definition D8 : Z := 94.
Definition E8 : Z := 95.
Definition F8 : Z := 96.
Definition G8 : Z := 97.
Definition H8 : Z := 98.

(** Modelled from the spec: [castle_state.h] is not in the sources; a
    4-bit mask over white-short, white-long, black-short, black-long. *)
Definition WHITE_SHORT : Z := 1.
Definition WHITE_LONG : Z := 2.
Definition BLACK_SHORT : Z := 4.
Definition BLACK_LONG : Z := 8.

(** [unsigned int] arithmetic of the clocks. *)
Definition u32 (x : Z) : Z := x mod 2 ^ 32.

(* ------------------------------------------------------------------ *)
(** ** Moves *)

(** Modelled from the spec: [move.hpp] is not in the sources.  A move
    carries six fields and an encoding that round-trips, so it is modelled
    by the decoded record.  [en_passant_move] records the opposing pawn
    ([moved ^ 8]) as the captured piece, which [unmake_move] re-adds.
    [Board::pseudo_moves] hands the promotion constructors
    [queen_piece ^ 8] and the like, while the spec (4.5, and its perft
    counts) has the pawn promote to a piece of the moving side: the
    encoding is taken to store the promoted piece flipped back. *)
Inductive MoveFlag :=
| QUIET_MOVE | DOUBLE_PAWN_MOVE | CAPTURE_MOVE | EN_PASSANT_MOVE
| SHORT_CASTLE_MOVE | LONG_CASTLE_MOVE | PROMOTE_MOVE | PROMOTE_CAPTURE_MOVE.

#[global] Instance MoveFlag_eq_dec : EqDecision MoveFlag.
Proof. solve_decision. Defined.

Record move_t := mk_move {
  move_from : Z;
  move_to : Z;
  moved_piece : Z;
  captured_piece : Z;
  promoted_piece : Z;
  move_flag : MoveFlag
}.

#[global] Instance move_t_eq_dec : EqDecision move_t.
Proof. solve_decision. Defined.

Definition quiet_move (from to moved : Z) : move_t :=
  mk_move from to moved INVALID_PIECE INVALID_PIECE QUIET_MOVE.
Definition double_move (from to moved : Z) : move_t :=
  mk_move from to moved INVALID_PIECE INVALID_PIECE DOUBLE_PAWN_MOVE.
Definition capture_move (from to moved captured : Z) : move_t :=
  mk_move from to moved captured INVALID_PIECE CAPTURE_MOVE.
Definition en_passant_move (from to moved : Z) : move_t :=
  mk_move from to moved (Z.lxor moved 8) INVALID_PIECE EN_PASSANT_MOVE.
Definition castle_move (from to moved : Z) (flag : MoveFlag) : move_t :=
  mk_move from to moved INVALID_PIECE INVALID_PIECE flag.
Definition promote_move (from to moved promoted : Z) : move_t :=
  mk_move from to moved INVALID_PIECE (Z.lxor promoted 8) PROMOTE_MOVE.
Definition promote_capture_move (from to moved promoted captured : Z) : move_t :=
  mk_move from to moved captured (Z.lxor promoted 8) PROMOTE_CAPTURE_MOVE.

Definition move_promoted (m : move_t) : bool :=
  match move_flag m with PROMOTE_MOVE | PROMOTE_CAPTURE_MOVE => true | _ => false end.
Definition move_captured (m : move_t) : bool :=
  match move_flag m with
  | CAPTURE_MOVE | EN_PASSANT_MOVE | PROMOTE_CAPTURE_MOVE => true | _ => false end.
Definition move_castled (m : move_t) : bool :=
  match move_flag m with SHORT_CASTLE_MOVE | LONG_CASTLE_MOVE => true | _ => false end.

(* ------------------------------------------------------------------ *)
(** ** The board *)

Record history_t := mk_history {
  h_move : move_t;
  h_castle_state : Z;
  h_en_passant : Z;
  h_fifty_move : Z;
  h_hash : Z
}.

(** [history] lists the undo records newest first ([m_history.back()] is
    its head). *)
Record board := mk_board {
  pieces : list Z;
  positions : list (list Z);
  next_move_colour : bool;
  castle_state : Z;
  en_passant : Z;
  fifty_move : Z;
  half_move : Z;
  hash : Z;
  history : list history_t
}.

Definition set_pieces (ps : list Z) (B : board) : board :=
  mk_board ps (positions B) (next_move_colour B) (castle_state B) (en_passant B)
    (fifty_move B) (half_move B) (hash B) (history B).
Definition set_positions (pos : list (list Z)) (B : board) : board :=
  mk_board (pieces B) pos (next_move_colour B) (castle_state B) (en_passant B)
    (fifty_move B) (half_move B) (hash B) (history B).
Definition set_colour (c : bool) (B : board) : board :=
  mk_board (pieces B) (positions B) c (castle_state B) (en_passant B)
    (fifty_move B) (half_move B) (hash B) (history B).
Definition set_castle (cs : Z) (B : board) : board :=
  mk_board (pieces B) (positions B) (next_move_colour B) cs (en_passant B)
    (fifty_move B) (half_move B) (hash B) (history B).
Definition set_ep (ep : Z) (B : board) : board :=
  mk_board (pieces B) (positions B) (next_move_colour B) (castle_state B) ep
    (fifty_move B) (half_move B) (hash B) (history B).
Definition set_fifty (f : Z) (B : board) : board :=
  mk_board (pieces B) (positions B) (next_move_colour B) (castle_state B) (en_passant B)
    f (half_move B) (hash B) (history B).
Definition set_half (h : Z) (B : board) : board :=
  mk_board (pieces B) (positions B) (next_move_colour B) (castle_state B) (en_passant B)
    (fifty_move B) h (hash B) (history B).
Definition set_hash (h : Z) (B : board) : board :=
  mk_board (pieces B) (positions B) (next_move_colour B) (castle_state B) (en_passant B)
    (fifty_move B) (half_move B) h (history B).
Definition set_history (hs : list history_t) (B : board) : board :=
  mk_board (pieces B) (positions B) (next_move_colour B) (castle_state B) (en_passant B)
    (fifty_move B) (half_move B) (hash B) hs.

(** [m_pieces[sq]] and [m_positions[p]]. *)
Definition piece_at (B : board) (sq : Z) : Z := pieces B !!! Z.to_nat sq.
Definition plist (B : board) (p : Z) : list Z := positions B !!! Z.to_nat p.

(** [std::find] over the live prefix: the first index holding [x]. *)
Fixpoint find_index (x : Z) (l : list Z) : option nat :=
  match l with
  | [] => None
  | y :: l' => if y =? x then Some 0%nat else option_map S (find_index x l')
  end.

(** [m_num_pieces[p]--] and the [std::swap] of the found slot with the last one, on the
    live prefix: the last entry moves into slot [i], the prefix shrinks. *)
Definition swap_remove (i : nat) (l : list Z) : list Z :=
  let n := length l in
  take (n - 1) (<[i := l !!! (n - 1)%nat]> l).

(** [Board::square_attacked]'s and [Board::pseudo_moves]'s
    [while (valid_square(cur) && m_pieces[cur] == INVALID_PIECE) cur += offset].
    The sentinel border stops every walk from a playing square within 8
    steps, so the fuel of 10 is never exhausted there. *)
Fixpoint walk (fuel : nat) (B : board) (cur offset : Z) : Z :=
  match fuel with
  | O => cur
  | S f =>
      if valid_square cur && (piece_at B cur =? INVALID_PIECE)
      then walk f B (cur + offset) offset else cur
  end.

Definition king_of (side : bool) : Z := if Bool.eqb side WHITE then WHITE_KING else BLACK_KING.
Definition knight_of (side : bool) : Z := if Bool.eqb side WHITE then WHITE_KNIGHT else BLACK_KNIGHT.
Definition pawn_of (side : bool) : Z := if Bool.eqb side WHITE then WHITE_PAWN else BLACK_PAWN.
Definition queen_of (side : bool) : Z := if Bool.eqb side WHITE then WHITE_QUEEN else BLACK_QUEEN.
Definition rook_of (side : bool) : Z := if Bool.eqb side WHITE then WHITE_ROOK else BLACK_ROOK.
Definition bishop_of (side : bool) : Z := if Bool.eqb side WHITE then WHITE_BISHOP else BLACK_BISHOP.

(** One ray of [square_attacked]: the adjacency test for the attacking
    king, then the walk and the test of the first non-empty cell. *)
Definition ray_attacks (B : board) (sq : Z) (side : bool) (cap : Z -> bool)
    (offset : Z) : bool :=
  let king_square := plist B (king_of side) !!! 0%nat in
  let cur_square := sq + offset in
  if king_square =? cur_square then true else
  let cur_square := walk 10 B cur_square offset in
  let cur_piece := piece_at B cur_square in
  valid_square cur_square && Bool.eqb (get_side cur_piece) side && cap cur_piece.

Definition diagonal_offsets : list Z := [-11; -9; 9; 11].
Definition orthogonal_offsets : list Z := [-10; -1; 1; 10].
Definition knight_offsets : list Z := [-21; -19; -12; -8; 8; 12; 19; 21].
Definition king_offsets : list Z := [-11; -10; -9; -1; 1; 9; 10; 11].

(** [Board::square_attacked] after its early-return guard. *)
Definition square_attacked_body (B : board) (sq : Z) (side : bool) : bool :=
  existsb (ray_attacks B sq side is_diag) diagonal_offsets
  || existsb (ray_attacks B sq side is_ortho) orthogonal_offsets
  || existsb (fun offset => piece_at B (sq + offset) =? knight_of side) knight_offsets
  || existsb (fun offset => piece_at B (sq + offset) =? pawn_of side)
       [if Bool.eqb side WHITE then -9 else 9; if Bool.eqb side WHITE then -11 else 11].

(** [Board::square_attacked], with its guard
    [valid_piece(m_pieces[sq]) && get_side(m_pieces[sq] == side)]: the
    comparison [m_pieces[sq] == side] is a [bool], promoted to [0] or [1]
    before [get_side] reads its bit 3. *)
Definition square_attacked (B : board) (sq : Z) (side : bool) : bool :=
  if valid_piece (piece_at B sq)
     && get_side (Z.b2z (piece_at B sq =? Z.b2z side))
  then false
  else square_attacked_body B sq side.

(** [Board::king_in_check]. *)
Definition king_in_check (B : board) : bool :=
  square_attacked B (plist B (king_of (next_move_colour B)) !!! 0%nat)
    (negb (next_move_colour B)).

(* ------------------------------------------------------------------ *)
(** ** Zobrist tables, hash and the mutation primitives *)

(** Modelled from the spec: [hash.hpp] (the random tables) is not in the
    sources.  The tables are fixed for the lifetime of the process; the
    development is parametric in them. *)
Section Zobrist.
Variable piece_hash : Z -> Z -> Z.
Variable castle_hash : Z -> Z.
Variable enpas_hash : Z -> Z.
Variable side_hash : Z.

(** [Board::compute_hash].  Its [ASSERT]s only check the tables
    ([piece_hash] and [enpas_hash] zero on [INVALID_PIECE] and
    [INVALID_SQUARE]), which the theorems take as hypotheses. *)
Definition compute_hash (B : board) : Z :=
  let res := fold_left (fun res sq => Z.lxor res (piece_hash sq (piece_at B sq)))
               (map Z.of_nat (seq 0 120)) 0 in
  let res := Z.lxor res (castle_hash (castle_state B)) in
  let res := Z.lxor res (enpas_hash (en_passant B)) in
  Z.lxor res (Z.b2z (next_move_colour B) * side_hash).

(** [Board::remove_piece]. *)
Definition remove_piece (sq : Z) (B : board) : option board :=
  let piece := piece_at B sq in
  if negb (valid_piece piece) then None else
  let ps := <[Z.to_nat sq := INVALID_PIECE]> (pieces B) in
  let piece_list := plist B piece in
  match find_index sq piece_list with
  | None => None
  | Some i =>
      Some (set_hash (Z.lxor (hash B) (piece_hash sq piece))
              (set_positions (<[Z.to_nat piece := swap_remove i piece_list]> (positions B))
                 (set_pieces ps B)))
  end.

(** [Board::add_piece]. *)
Definition add_piece (sq piece : Z) (B : board) : option board :=
  if negb (valid_piece piece) then None else
  if negb (piece_at B sq =? INVALID_PIECE) then None else
  Some (set_hash (Z.lxor (hash B) (piece_hash sq piece))
          (set_positions (<[Z.to_nat piece := plist B piece ++ [sq]]> (positions B))
             (set_pieces (<[Z.to_nat sq := piece]> (pieces B)) B))).

(** [Board::set_castle_state]. *)
Definition set_castle_state (state : Z) (B : board) : board :=
  set_castle state
    (set_hash (Z.lxor (hash B) (Z.lxor (castle_hash (castle_state B)) (castle_hash state))) B).

(** [Board::set_en_passant]. *)
Definition set_en_passant (sq : Z) (B : board) : board :=
  set_ep sq
    (set_hash (Z.lxor (hash B) (Z.lxor (enpas_hash (en_passant B)) (enpas_hash sq))) B).

(** [Board::move_piece]. *)
Definition move_piece (from to : Z) (B : board) : option board :=
  if negb (piece_at B to =? INVALID_PIECE) then None else
  let piece := piece_at B from in
  let ps := <[Z.to_nat to := piece]> (<[Z.to_nat from := INVALID_PIECE]> (pieces B)) in
  let piece_list := plist B piece in
  match find_index from piece_list with
  | None => None
  | Some i =>
      Some (set_hash (Z.lxor (hash B) (Z.lxor (piece_hash from piece) (piece_hash to piece)))
              (set_positions (<[Z.to_nat piece := <[i := to]> piece_list]> (positions B))
                 (set_pieces ps B)))
  end.

(** The mask computation of [Board::update_castling]. *)
Definition strip_castling (sq cs : Z) : Z :=
  let cs := if (sq =? E1) || (sq =? A1) then Z.land cs (Z.lnot WHITE_LONG) else cs in
  let cs := if (sq =? E1) || (sq =? H1) then Z.land cs (Z.lnot WHITE_SHORT) else cs in
  let cs := if (sq =? E8) || (sq =? A8) then Z.land cs (Z.lnot BLACK_LONG) else cs in
  if (sq =? E8) || (sq =? H8) then Z.land cs (Z.lnot BLACK_SHORT) else cs.

(** [Board::update_castling]. *)
Definition update_castling (sq moved : Z) (B : board) : board :=
  if negb (is_castle moved) then B else
  let h := Z.lxor (hash B) (castle_hash (castle_state B)) in
  let cs := strip_castling sq (castle_state B) in
  set_hash (Z.lxor h (castle_hash cs)) (set_castle cs B).

(** [Board::switch_colours]. *)
Definition switch_colours (B : board) : board :=
  set_hash (Z.lxor (hash B) side_hash) (set_colour (negb (next_move_colour B)) B).

(** The piece motion of [Board::make_move], by flag. *)
Definition make_motion (move : move_t) (B : board) : option board :=
  let flag := move_flag move in
  let from := move_from move in
  let to := move_to move in
  let moved := moved_piece move in
  let cur_side := next_move_colour B in
  if move_promoted move then
    B ← (if move_captured move then remove_piece to B else Some B);
    B ← add_piece to (promoted_piece move) B;
    B ← remove_piece from B;
    Some (set_en_passant INVALID_SQUARE B)
  else if move_castled move then
    B ← (if Bool.eqb cur_side WHITE then
           if decide (flag = SHORT_CASTLE_MOVE) then
             B ← move_piece E1 G1 B; B ← move_piece H1 F1 B;
             Some (set_castle_state (Z.land (castle_state B)
                     (Z.lnot (Z.lor WHITE_LONG WHITE_SHORT))) B)
           else
             B ← move_piece E1 C1 B; B ← move_piece A1 D1 B;
             Some (set_castle_state (Z.land (castle_state B)
                     (Z.lnot (Z.lor WHITE_LONG WHITE_SHORT))) B)
         else
           if decide (flag = SHORT_CASTLE_MOVE) then
             B ← move_piece E8 G8 B; B ← move_piece H8 F8 B;
             Some (set_castle_state (Z.land (castle_state B)
                     (Z.lnot (Z.lor BLACK_LONG BLACK_SHORT))) B)
           else
             B ← move_piece E8 C8 B; B ← move_piece A8 D8 B;
             Some (set_castle_state (Z.land (castle_state B)
                     (Z.lnot (Z.lor BLACK_LONG BLACK_SHORT))) B));
    Some (set_en_passant INVALID_SQUARE B)
  else
    let enpas_square := if Bool.eqb cur_side WHITE then to - 10 else to + 10 in
    let B := if decide (flag = DOUBLE_PAWN_MOVE) then set_en_passant enpas_square B
             else set_en_passant INVALID_SQUARE B in
    match flag with
    | QUIET_MOVE => B ← move_piece from to B; Some (update_castling from moved B)
    | DOUBLE_PAWN_MOVE => move_piece from to B
    | CAPTURE_MOVE =>
        B ← remove_piece to B; B ← move_piece from to B; Some (update_castling from moved B)
    | EN_PASSANT_MOVE => B ← remove_piece enpas_square B; move_piece from to B
    | _ => Some B
    end.

(** [Board::make_move]: the undo record, the motion, the clocks, the side
    switch and the king-safety test of the side that moved. *)
Definition make_move (move : move_t) (B : board) : option (board * bool) :=
  let cur_side := next_move_colour B in
  let other_side := negb cur_side in
  let entry := mk_history move (castle_state B) (en_passant B) (fifty_move B) (hash B) in
  let B := set_half (u32 (half_move B + 1)) (set_history (entry :: history B) B) in
  B ← make_motion move B;
  let B := if move_captured move || is_pawn (moved_piece move) then set_fifty 0 B
           else set_fifty (u32 (fifty_move B + 1)) B in
  let B := switch_colours B in
  let king_piece := if Bool.eqb cur_side WHITE then WHITE_KING else BLACK_KING in
  let valid := negb (square_attacked B (plist B king_piece !!! 0%nat) other_side) in
  Some (B, valid).

(** The piece motion of [Board::unmake_move], by flag. *)
Definition unmake_motion (move : move_t) (B : board) : option board :=
  let cur_side := next_move_colour B in
  let flag := move_flag move in
  let from := move_from move in
  let to := move_to move in
  if move_promoted move then
    B ← remove_piece to B;
    B ← add_piece from (moved_piece move) B;
    if move_captured move then add_piece to (captured_piece move) B else Some B
  else if move_castled move then
    if Bool.eqb cur_side WHITE then
      if decide (flag = SHORT_CASTLE_MOVE) then
        B ← move_piece G1 E1 B; move_piece F1 H1 B
      else
        B ← move_piece C1 E1 B; move_piece D1 A1 B
    else
      if decide (flag = SHORT_CASTLE_MOVE) then
        B ← move_piece G8 E8 B; move_piece F8 H8 B
      else
        B ← move_piece C8 E8 B; move_piece D8 A8 B
  else
    B ← move_piece to from B;
    if move_captured move then
      let en_pas_sq := if Bool.eqb cur_side WHITE then en_passant B - 10
                       else en_passant B + 10 in
      let captured_sq := if decide (flag = CAPTURE_MOVE) then to else en_pas_sq in
      add_piece captured_sq (captured_piece move) B
    else Some B.

(** [Board::unmake_move]. *)
Definition unmake_move (B : board) : option board :=
  match history B with
  | [] => None
  | entry :: hist =>
      let B := set_history hist B in
      let move := h_move entry in
      let last_hash := h_hash entry in
      let B := set_castle_state (h_castle_state entry) B in
      let B := set_en_passant (h_en_passant entry) B in
      let B := set_fifty (h_fifty_move entry) B in
      if half_move B =? 0 then None else
      let B := set_half (half_move B - 1) B in
      let B := switch_colours B in
      B ← unmake_motion move B;
      if hash B =? last_hash then Some B else None
  end.

End Zobrist.

(* ------------------------------------------------------------------ *)
(** ** The pseudo-move generator *)

(** One ray of a slider in [Board::pseudo_moves]: a quiet move per empty
    cell, then a capture of a non-king enemy piece; fuel as for [walk]. *)
Fixpoint slide_moves (fuel : nat) (B : board) (piece start cur offset : Z) : list move_t :=
  match fuel with
  | O => []
  | S f =>
      if valid_square cur && (piece_at B cur =? INVALID_PIECE) then
        quiet_move start cur piece :: slide_moves f B piece start (cur + offset) offset
      else if valid_square cur && opposite_colours piece (piece_at B cur)
              && negb (is_king (piece_at B cur)) then
        [capture_move start cur piece (piece_at B cur)]
      else []
  end.

Definition slider_moves (B : board) (piece : Z) (offsets : list Z) : list move_t :=
  flat_map (fun start =>
    flat_map (fun offset => slide_moves 10 B piece start (start + offset) offset) offsets)
    (plist B piece).

(** The knight loop and the king loop (one step per offset). *)
Definition step_move (B : board) (piece start offset : Z) : list move_t :=
  let cur_square := start + offset in
  if valid_square cur_square && (piece_at B cur_square =? INVALID_PIECE) then
    [quiet_move start cur_square piece]
  else if valid_square cur_square && opposite_colours piece (piece_at B cur_square)
          && negb (is_king (piece_at B cur_square)) then
    [capture_move start cur_square piece (piece_at B cur_square)]
  else [].

Definition knight_moves (B : board) (knight_piece : Z) : list move_t :=
  flat_map (fun start => flat_map (step_move B knight_piece start) knight_offsets)
    (plist B knight_piece).

Definition last_rank (sq : Z) : bool :=
  (get_square_row sq =? RANK_1) || (get_square_row sq =? RANK_8).

(** A pawn's diagonal capture onto [capture]. *)
Definition pawn_capture (B : board) (pawn_piece start capture : Z)
    (promote_pieces : list Z) : list move_t :=
  if valid_square capture && negb (piece_at B capture =? INVALID_PIECE)
     && opposite_colours pawn_piece (piece_at B capture)
     && negb (is_king (piece_at B capture)) then
    if last_rank capture then
      map (fun promote_piece =>
             promote_capture_move start capture pawn_piece promote_piece (piece_at B capture))
          promote_pieces
    else [capture_move start capture pawn_piece (piece_at B capture)]
  else [].

(** The body of the pawn loop, for the pawn on [start]. *)
Definition pawn_moves (B : board) (side : bool) (pawn_piece : Z)
    (promote_pieces : list Z) (start : Z) : list move_t :=
  let doubles :=
    (if Bool.eqb side WHITE && (get_square_row start =? RANK_2)
        && (piece_at B (start + 10) =? INVALID_PIECE)
        && (piece_at B (start + 20) =? INVALID_PIECE)
     then [double_move start (start + 20) pawn_piece] else [])
    ++ (if Bool.eqb side BLACK && (get_square_row start =? RANK_7)
           && (piece_at B (start - 10) =? INVALID_PIECE)
           && (piece_at B (start - 20) =? INVALID_PIECE)
        then [double_move start (start - 20) pawn_piece] else []) in
  let offset := if Bool.eqb side WHITE then 10 else -10 in
  let cur_square := start + offset in
  let singles :=
    if valid_square cur_square && (piece_at B cur_square =? INVALID_PIECE) then
      if last_rank cur_square then
        map (fun promote_piece => promote_move start cur_square pawn_piece promote_piece)
            promote_pieces
      else [quiet_move start (start + offset) pawn_piece]
    else [] in
  let capture1 := cur_square - 1 in
  let capture2 := cur_square + 1 in
  let captures := pawn_capture B pawn_piece start capture1 promote_pieces
                  ++ pawn_capture B pawn_piece start capture2 promote_pieces in
  let en_pass :=
    if negb (en_passant B =? INVALID_SQUARE) then
      (if (capture1 =? en_passant B) && (piece_at B capture1 =? INVALID_PIECE)
       then [en_passant_move start (en_passant B) pawn_piece] else [])
      ++ (if (capture2 =? en_passant B) && (piece_at B capture2 =? INVALID_PIECE)
          then [en_passant_move start (en_passant B) pawn_piece] else [])
    else [] in
  doubles ++ singles ++ captures ++ en_pass.

(** The king loop; the king square is [m_positions[king_piece][0]]. *)
Definition king_moves (B : board) (king_piece : Z) : list move_t :=
  let start := plist B king_piece !!! 0%nat in
  flat_map (fun offset =>
    let cur_square := start + offset in
    let piece := piece_at B cur_square in
    if valid_square cur_square then
      if piece =? INVALID_PIECE then [quiet_move start cur_square king_piece]
      else if opposite_colours king_piece piece && negb (is_king piece) then
        [capture_move start cur_square king_piece piece]
      else []
    else []) king_offsets.

(** The castling block. *)
Definition castle_moves (B : board) (side : bool) : list move_t :=
  if Bool.eqb side WHITE then
    let d1_attacked := square_attacked B D1 BLACK in
    let e1_attacked := square_attacked B E1 BLACK in
    let f1_attacked := square_attacked B F1 BLACK in
    (if negb (Z.land (castle_state B) WHITE_SHORT =? 0) && negb e1_attacked
        && negb f1_attacked && (piece_at B F1 =? INVALID_PIECE)
        && (piece_at B G1 =? INVALID_PIECE)
     then [castle_move E1 G1 WHITE_KING SHORT_CASTLE_MOVE] else [])
    ++ (if negb (Z.land (castle_state B) WHITE_LONG =? 0) && negb e1_attacked
           && negb d1_attacked && (piece_at B D1 =? INVALID_PIECE)
           && (piece_at B C1 =? INVALID_PIECE) && (piece_at B B1 =? INVALID_PIECE)
        then [castle_move E1 C1 WHITE_KING LONG_CASTLE_MOVE] else [])
  else
    let d8_attacked := square_attacked B D8 WHITE in
    let e8_attacked := square_attacked B E8 WHITE in
    let f8_attacked := square_attacked B F8 WHITE in
    (if negb (Z.land (castle_state B) BLACK_SHORT =? 0) && negb e8_attacked
        && negb f8_attacked && (piece_at B F8 =? INVALID_PIECE)
        && (piece_at B G8 =? INVALID_PIECE)
     then [castle_move E8 G8 BLACK_KING SHORT_CASTLE_MOVE] else [])
    ++ (if negb (Z.land (castle_state B) BLACK_LONG =? 0) && negb e8_attacked
           && negb d8_attacked && (piece_at B D8 =? INVALID_PIECE)
           && (piece_at B C8 =? INVALID_PIECE) && (piece_at B B8 =? INVALID_PIECE)
        then [castle_move E8 C8 BLACK_KING LONG_CASTLE_MOVE] else []).

(** The move list [Board::pseudo_moves] builds after its cache lookup and
    its draw cut-off, in emission order. *)
Definition generate_moves (B : board) (side : bool) : list move_t :=
  let promote_pieces :=
    [Z.lxor (queen_of side) 8; Z.lxor (rook_of side) 8;
     Z.lxor (bishop_of side) 8; Z.lxor (knight_of side) 8] in
  slider_moves B (queen_of side) king_offsets
  ++ slider_moves B (rook_of side) orthogonal_offsets
  ++ slider_moves B (bishop_of side) diagonal_offsets
  ++ knight_moves B (knight_of side)
  ++ flat_map (pawn_moves B side (pawn_of side) promote_pieces) (plist B (pawn_of side))
  ++ king_moves B (king_of side)
  ++ castle_moves B side.

Definition MAX_POSITION_MOVES : nat := 256.

(** The board's [mutable] cache [m_move_cache], keyed by the stored hash. *)
Abbreviation move_cache := (gmap Z (list move_t)).

(** [Board::pseudo_moves(_side)], [None] standing for [INVALID_SIDE], the
    default argument.  The cache is looked up first; the 50 (75) move
    cut-off returns before anything is stored. *)
Definition pseudo_moves (cache : move_cache) (B : board) (_side : option bool)
    : option (list move_t * move_cache) :=
  match cache !! hash B with
  | Some r => Some (r, cache)
  | None =>
      if (1000 <? half_move B) || (75 <? fifty_move B) then Some ([], cache) else
      let side := match _side with Some s => s | None => next_move_colour B end in
      let result := generate_moves B side in
      if negb (Nat.leb (length result) MAX_POSITION_MOVES) then None else
      Some (result, <[hash B := result]> cache)
  end.

(* ------------------------------------------------------------------ *)
(** ** The FEN codec *)

(** Modelled from the spec: [piece_from_char], [char_from_piece] and
    [string_from_square] are not in the sources; FEN uses the letters
    [PNBRQK] for white and [pnbrqk] for black, algebraic squares such as
    [e3], and [-] for "no square". *)
Definition piece_from_char (c : ascii) : Z :=
  match c with
  | "P"%char => WHITE_PAWN | "N"%char => WHITE_KNIGHT | "B"%char => WHITE_BISHOP
  | "R"%char => WHITE_ROOK | "Q"%char => WHITE_QUEEN | "K"%char => WHITE_KING
  | "p"%char => BLACK_PAWN | "n"%char => BLACK_KNIGHT | "b"%char => BLACK_BISHOP
  | "r"%char => BLACK_ROOK | "q"%char => BLACK_QUEEN | "k"%char => BLACK_KING
  | _ => INVALID_PIECE
  end.

Definition char_from_piece (p : Z) : ascii :=
  if p =? WHITE_PAWN then "P" else if p =? WHITE_KNIGHT then "N"
  else if p =? WHITE_BISHOP then "B" else if p =? WHITE_ROOK then "R"
  else if p =? WHITE_QUEEN then "Q" else if p =? WHITE_KING then "K"
  else if p =? BLACK_PAWN then "p" else if p =? BLACK_KNIGHT then "n"
  else if p =? BLACK_BISHOP then "b" else if p =? BLACK_ROOK then "r"
  else if p =? BLACK_QUEEN then "q" else if p =? BLACK_KING then "k"
  else " ".

Definition chr (n : Z) : ascii := ascii_of_nat (Z.to_nat n).
Definition ord (c : ascii) : Z := Z.of_nat (nat_of_ascii c).

Definition string_from_square (sq : Z) : list ascii :=
  if valid_square sq then [chr (97 + get_square_col sq); chr (49 + get_square_row sq)]
  else ["-"%char].

(** [operator<<] on an unsigned integer: its decimal digits, most
    significant first (20 digits cover 64 bits). *)
Fixpoint digits_rev (fuel : nat) (n : Z) : list ascii :=
  match fuel with
  | O => []
  | S f => chr (48 + n mod 10) :: (if n <? 10 then [] else digits_rev f (n / 10))
  end.
Definition show_dec (n : Z) : list ascii := rev (digits_rev 20 n).

Definition MAX_PIECE_FREQ : nat := 10.

(** The character under the cursor; past the end it reads the string's
    terminating NUL. *)
Definition peek (s : list ascii) : ascii :=
  match s with [] => Ascii.zero | c :: _ => c end.

Definition is_digit (c : ascii) : bool := (48 <=? ord c) && (ord c <=? 57).

(** Part 1 of [Board::Board]: the placement loop, up to the first space. *)
Fixpoint parse_placement (s : list ascii) (square_idx : Z) (ps : list Z)
    (pos : list (list Z)) : option (Z * list Z * list (list Z) * list ascii) :=
  match s with
  | [] => None (* the NUL terminator: not a piece letter, the ASSERTs fail *)
  | c :: s' =>
      if Ascii.eqb c " " then Some (square_idx, ps, pos, s) else
      if Ascii.eqb c "/" then
        if square_idx mod 10 =? 9 then parse_placement s' (u32 (square_idx - 18)) ps pos
        else None
      else if (49 <=? ord c) && (ord c <=? 56) then
        let num_spaces := ord c - 48 in
        let ps := fold_left (fun ps i => <[Z.to_nat (square_idx + i) := INVALID_PIECE]> ps)
                    (map Z.of_nat (seq 0 (Z.to_nat num_spaces))) ps in
        let square_idx := u32 (square_idx + num_spaces) in
        if (square_idx mod 10 =? 9) || valid_square square_idx
        then parse_placement s' square_idx ps pos else None
      else
        let piece_idx := piece_from_char c in
        if negb (valid_square square_idx) then None else
        if negb (valid_piece piece_idx) then None else
        let ps := <[Z.to_nat square_idx := piece_idx]> ps in
        if negb (Nat.ltb (length (pos !!! Z.to_nat piece_idx)) MAX_PIECE_FREQ) then None else
        let pos := <[Z.to_nat piece_idx := pos !!! Z.to_nat piece_idx ++ [square_idx]]> pos in
        let square_idx := u32 (square_idx + 1) in
        if (square_idx mod 10 =? 9) || valid_square square_idx
        then parse_placement s' square_idx ps pos else None
  end.

(** Part 3: the castling letters up to the next space. *)
Fixpoint parse_castle (s : list ascii) (cs : Z) : option (Z * list ascii) :=
  match s with
  | [] => None
  | c :: s' =>
      if Ascii.eqb c " " then Some (cs, s) else
      match c with
      | "K"%char => parse_castle s' (Z.lor cs WHITE_SHORT)
      | "Q"%char => parse_castle s' (Z.lor cs WHITE_LONG)
      | "k"%char => parse_castle s' (Z.lor cs BLACK_SHORT)
      | "q"%char => parse_castle s' (Z.lor cs BLACK_LONG)
      | _ => None
      end
  end.

(** Part 5: the half-move counter, an [unsigned int]. *)
Fixpoint parse_fifty (s : list ascii) (acc : Z) : option (Z * list ascii) :=
  match s with
  | [] => None
  | c :: s' =>
      if Ascii.eqb c " " then Some (acc, s) else
      if is_digit c then parse_fifty s' (u32 (10 * acc + (ord c - 48))) else None
  end.

(** Part 6: the full-move counter, a [size_t], up to the end. *)
Fixpoint parse_full (s : list ascii) (acc : Z) : option Z :=
  match s with
  | [] => Some acc
  | c :: s' =>
      if is_digit c then parse_full s' ((10 * acc + (ord c - 48)) mod 2 ^ 64) else None
  end.

Section Fen.
Variable piece_hash : Z -> Z -> Z.
Variable castle_hash : Z -> Z.
Variable enpas_hash : Z -> Z.
Variable side_hash : Z.

(** [Board::Board(fen)]. *)
Definition board_of_fen (fen : string) : option board :=
  let s := list_ascii_of_string fen in
  (* Part 1 *)
  '(square_idx, ps, pos, s) ← parse_placement s A8 (repeat INVALID_PIECE 120) (repeat [] 16);
  if negb (square_idx =? 29) then None else
  (* Part 2 *)
  let s := skipn 1 s in
  if negb (Ascii.eqb (peek s) "w" || Ascii.eqb (peek s) "b") then None else
  let colour := if Ascii.eqb (peek s) "w" then WHITE else BLACK in
  (* Part 3 *)
  let s := skipn 2 s in
  '(cs, s) ← (if Ascii.eqb (peek s) "-" then Some (0, skipn 1 s) else parse_castle s 0);
  if negb (Ascii.eqb (peek s) " ") then None else
  (* Part 4 *)
  let s := skipn 1 s in
  '(ep, s) ←
    (if Ascii.eqb (peek s) "-" then Some (INVALID_SQUARE, skipn 1 s) else
     let row := ord (peek (skipn 1 s)) - 49 in
     let col := ord (peek s) - 97 in
     if Bool.eqb colour WHITE && negb (row =? RANK_6) then None else
     if Bool.eqb colour BLACK && negb (row =? RANK_3) then None else
     let ep := get_square_120_rc row col in
     let my_pawn := if Bool.eqb colour WHITE then WHITE_PAWN else BLACK_PAWN in
     let ep := if negb (ps !!! Z.to_nat (ep - 1) =? my_pawn)
                  && negb (ps !!! Z.to_nat (ep + 1) =? my_pawn)
               then INVALID_SQUARE else ep in
     Some (ep, skipn 2 s));
  if negb (Ascii.eqb (peek s) " ") then None else
  (* Part 5 *)
  let s := skipn 1 s in
  '(fifty, s) ← parse_fifty s 0;
  (* Part 6 *)
  let s := skipn 1 s in
  full_move ← parse_full s 0;
  let half := u32 (2 * full_move + Z.b2z colour) in
  let B := mk_board ps pos colour cs ep fifty half 0 [] in
  Some (set_hash (compute_hash piece_hash castle_hash enpas_hash side_hash B) B).

End Fen.

(** Part 1 of [Board::fen]: the placement, ranks 8 to 1. *)
Fixpoint fen_placement (fuel : nat) (B : board) (square_idx blank_count : Z)
    : list ascii :=
  match fuel with
  | O => []
  | S f =>
      if square_idx =? 29 then
        (if blank_count =? 0 then [] else [chr (48 + blank_count)])
      else
        let '(pre, square_idx, blank_count) :=
          if square_idx mod 10 =? 9 then
            ((if blank_count =? 0 then [] else [chr (48 + blank_count)]) ++ ["/"%char],
             square_idx - 18, 0)
          else ([], square_idx, blank_count) in
        let piece := piece_at B square_idx in
        if piece =? INVALID_PIECE then
          pre ++ fen_placement f B (square_idx + 1) (blank_count + 1)
        else
          pre ++ (if blank_count =? 0 then [] else [chr (48 + blank_count)])
              ++ [char_from_piece piece] ++ fen_placement f B (square_idx + 1) 0
  end.

(** [Board::fen]. *)
Definition fen (B : board) : string :=
  string_of_list_ascii
    (fen_placement 65 B A8 0 ++ [" "%char]
     ++ [if Bool.eqb (next_move_colour B) WHITE then "w"%char else "b"%char] ++ [" "%char]
     ++ (if castle_state B =? 0 then ["-"%char] else
           (if Z.land (castle_state B) WHITE_SHORT =? 0 then [] else ["K"%char])
           ++ (if Z.land (castle_state B) WHITE_LONG =? 0 then [] else ["Q"%char])
           ++ (if Z.land (castle_state B) BLACK_SHORT =? 0 then [] else ["k"%char])
           ++ (if Z.land (castle_state B) BLACK_LONG =? 0 then [] else ["q"%char]))
     ++ [" "%char]
     ++ string_from_square (en_passant B) ++ [" "%char]
     ++ show_dec (fifty_move B) ++ [" "%char]
     ++ show_dec (half_move B / 2)).

Definition startFEN : string := "rnbqkbnr/pppppppp/8/8/8/8/PPPPPPPP/RNBQKBNR w KQkq - 0 1".

(* ------------------------------------------------------------------ *)
(** ** Sequences of calls *)

(** A call a caller makes on one board. *)
Inductive call :=
| Make (m : move_t)
| Unmake.

Section Runs.
Variable piece_hash : Z -> Z -> Z.
Variable castle_hash : Z -> Z.
Variable enpas_hash : Z -> Z.
Variable side_hash : Z.

Definition step (c : call) (B : board) : option board :=
  match c with
  | Make m => '(B', _) ← make_move piece_hash castle_hash enpas_hash side_hash m B; Some B'
  | Unmake => unmake_move piece_hash castle_hash enpas_hash side_hash B
  end.

Fixpoint run (cs : list call) (B : board) : option board :=
  match cs with
  | [] => Some B
  | c :: cs' => B' ← step c B; run cs' B'
  end.

End Runs.

(* ------------------------------------------------------------------ *)
(** ** A concrete instance of the tables, for evaluation *)

Definition demo_piece_hash (sq p : Z) : Z :=
  if valid_square sq && valid_piece p then (sq * 16 + p) * 2654435761 + 7 else 0.
Definition demo_castle_hash (cs : Z) : Z := cs * 7919 + 13.
Definition demo_enpas_hash (sq : Z) : Z :=
  if sq =? INVALID_SQUARE then 0 else sq * 104729 + 1.
Definition demo_side_hash : Z := 99991.

Definition empty_board : board := mk_board [] [] WHITE 0 INVALID_SQUARE 0 0 0 [].

Definition demo_board (s : string) : board :=
  match board_of_fen demo_piece_hash demo_castle_hash demo_enpas_hash demo_side_hash s with
  | Some B => B
  | None => empty_board
  end.

Definition demo_make (m : move_t) (B : board) : board :=
  match make_move demo_piece_hash demo_castle_hash demo_enpas_hash demo_side_hash m B with
  | Some (B', _) => B'
  | None => empty_board
  end.

Definition demo_run (cs : list call) (B : board) : board :=
  match run demo_piece_hash demo_castle_hash demo_enpas_hash demo_side_hash cs B with
  | Some B' => B'
  | None => empty_board
  end.

Definition E2 : Z := 35.
Definition E3 : Z := 45.
Definition E4 : Z := 55.
Definition C3 : Z := 43.
Definition C6 : Z := 73.

(** Knights out and back: Nb1-c3, Nb8-c6, Nc3-b1, Nc6-b8. *)
Definition knight_shuffle : list call :=
  [Make (quiet_move B1 C3 WHITE_KNIGHT); Make (quiet_move B8 C6 BLACK_KNIGHT);
   Make (quiet_move C3 B1 WHITE_KNIGHT); Make (quiet_move C6 B8 BLACK_KNIGHT)].

(** The starting position again, after 76 plies of knight moves. *)
Definition start_after_76_plies : board :=
  demo_run (concat (repeat knight_shuffle 19)) (demo_board startFEN).

(** The cache after one [pseudo_moves()] call on the starting position. *)
Definition start_cache : move_cache :=
  match pseudo_moves ∅ (demo_board startFEN) None with
  | Some (_, c) => c
  | None => ∅
  end.

Definition D5 : Z := 64.
Definition H3 : Z := 48.

(** The castle bits of the side not to move, and that side's home
    squares of king and rooks. *)
Definition opponent_castle_mask (side : bool) : Z :=
  if Bool.eqb side WHITE then Z.lor BLACK_SHORT BLACK_LONG else Z.lor WHITE_SHORT WHITE_LONG.
Definition opponent_homes (side : bool) : list Z :=
  if Bool.eqb side WHITE then [E8; A8; H8] else [E1; A1; H1].

(** The castling conditions the generator checks for [side]: the right,
    the king's origin and the square it crosses not attacked, and the
    squares between king and rook empty. *)
Definition castle_conditions (B : board) (side : bool) (m : move_t) : Prop :=
  if Bool.eqb side WHITE then
    (m = castle_move E1 G1 WHITE_KING SHORT_CASTLE_MOVE
     /\ Z.land (castle_state B) WHITE_SHORT <> 0
     /\ square_attacked B E1 BLACK = false /\ square_attacked B F1 BLACK = false
     /\ piece_at B F1 = INVALID_PIECE /\ piece_at B G1 = INVALID_PIECE)
    \/ (m = castle_move E1 C1 WHITE_KING LONG_CASTLE_MOVE
     /\ Z.land (castle_state B) WHITE_LONG <> 0
     /\ square_attacked B E1 BLACK = false /\ square_attacked B D1 BLACK = false
     /\ piece_at B D1 = INVALID_PIECE /\ piece_at B C1 = INVALID_PIECE
     /\ piece_at B B1 = INVALID_PIECE)
  else
    (m = castle_move E8 G8 BLACK_KING SHORT_CASTLE_MOVE
     /\ Z.land (castle_state B) BLACK_SHORT <> 0
     /\ square_attacked B E8 WHITE = false /\ square_attacked B F8 WHITE = false
     /\ piece_at B F8 = INVALID_PIECE /\ piece_at B G8 = INVALID_PIECE)
    \/ (m = castle_move E8 C8 BLACK_KING LONG_CASTLE_MOVE
     /\ Z.land (castle_state B) BLACK_LONG <> 0
     /\ square_attacked B E8 WHITE = false /\ square_attacked B D8 WHITE = false
     /\ piece_at B D8 = INVALID_PIECE /\ piece_at B C8 = INVALID_PIECE
     /\ piece_at B B8 = INVALID_PIECE).


(** The XOR of [g] over a list, the placement part of [compute_hash], and
    the invariant that the stored hash is the recomputed one. *)
Definition xsum (g : Z -> Z) (l : list Z) : Z := fold_right (fun x acc => Z.lxor (g x) acc) 0 l.
Definition placement_hash (piece_hash : Z -> Z -> Z) (ps : list Z) : Z :=
  fold_left (fun res sq => Z.lxor res (piece_hash sq (ps !!! Z.to_nat sq)))
    (map Z.of_nat (seq 0 120)) 0.
Record hash_ok (piece_hash : Z -> Z -> Z) (castle_hash enpas_hash : Z -> Z)
    (side_hash : Z) (B : board) : Prop := {
  hash_ok_hash : hash B = compute_hash piece_hash castle_hash enpas_hash side_hash B;
  hash_ok_length : length (pieces B) = 120%nat
}.

Definition not_castled (m : move_t) : Prop := move_castled m = false.

(** The rank of the en-passant target for the side to move, the target
    invariant, and the same for the targets stored in the undo records
    (the record on top was pushed by the other side). *)
Definition ep_rank (side : bool) : Z := if Bool.eqb side WHITE then RANK_6 else RANK_3.
Definition ep_on_rank (side : bool) (ep : Z) : Prop :=
  ep = INVALID_SQUARE \/ get_square_row ep = ep_rank side.
Fixpoint hist_ep_ok (side : bool) (hs : list history_t) : Prop :=
  match hs with
  | [] => True
  | e :: hs' => ep_on_rank (negb side) (h_en_passant e) /\ hist_ep_ok (negb side) hs'
  end.

(** Boards reached from a FEN board whose target is on its rank, by
    [make_move] of generated moves of the side to move and by
    [unmake_move]. *)
Section Reach.
Variable piece_hash : Z -> Z -> Z.
Variable castle_hash : Z -> Z.
Variable enpas_hash : Z -> Z.
Variable side_hash : Z.
Inductive reachable : board -> Prop :=
| reach_fen s B :
    board_of_fen piece_hash castle_hash enpas_hash side_hash s = Some B ->
    ep_on_rank (next_move_colour B) (en_passant B) -> reachable B
| reach_make B m B' v :
    reachable B -> In m (generate_moves B (next_move_colour B)) ->
    make_move piece_hash castle_hash enpas_hash side_hash m B = Some (B', v) -> reachable B'
| reach_unmake B B' :
    reachable B -> unmake_move piece_hash castle_hash enpas_hash side_hash B = Some B' ->
    reachable B'.
End Reach.

(** The shape of a generated move, by flag. *)
Definition from_ok (B : board) (m : move_t) : Prop :=
  In (move_from m) (plist B (moved_piece m))
  \/ ((moved_piece m = WHITE_KING \/ moved_piece m = BLACK_KING)
      /\ move_from m = plist B (moved_piece m) !!! 0%nat).

Definition gen_shape (B : board) (side : bool) (m : move_t) : Prop :=
  match move_flag m with
  | QUIET_MOVE =>
      from_ok B m /\ valid_square (move_to m) = true
      /\ piece_at B (move_to m) = INVALID_PIECE
  | CAPTURE_MOVE =>
      from_ok B m /\ valid_square (move_to m) = true
      /\ captured_piece m = piece_at B (move_to m)
      /\ opposite_colours (moved_piece m) (piece_at B (move_to m)) = true
  | DOUBLE_PAWN_MOVE =>
      In (move_from m) (plist B (moved_piece m))
      /\ piece_at B (move_to m) = INVALID_PIECE
      /\ (if Bool.eqb side WHITE
          then get_square_row (move_from m) = RANK_2 /\ move_to m = move_from m + 20
          else get_square_row (move_from m) = RANK_7 /\ move_to m = move_from m - 20)
  | EN_PASSANT_MOVE =>
      In (move_from m) (plist B (moved_piece m)) /\ moved_piece m = pawn_of side
      /\ move_to m = en_passant B /\ en_passant B <> INVALID_SQUARE
      /\ piece_at B (move_to m) = INVALID_PIECE
      /\ captured_piece m = Z.lxor (moved_piece m) 8
  | SHORT_CASTLE_MOVE | LONG_CASTLE_MOVE => castle_conditions B side m
  | PROMOTE_MOVE =>
      In (move_from m) (plist B (moved_piece m)) /\ valid_square (move_to m) = true
      /\ piece_at B (move_to m) = INVALID_PIECE
      /\ valid_piece (promoted_piece m) = true
  | PROMOTE_CAPTURE_MOVE =>
      In (move_from m) (plist B (moved_piece m)) /\ valid_square (move_to m) = true
      /\ captured_piece m = piece_at B (move_to m)
      /\ opposite_colours (moved_piece m) (piece_at B (move_to m)) = true
      /\ valid_piece (promoted_piece m) = true
  end.

Definition D6 : Z := 74.

Definition E5 : Z := 65.
Definition A2 : Z := 31.
Definition A3 : Z := 41.
Definition A4 : Z := 51.
Definition F2 : Z := 36.

(** Perft position 5 of the chess programming wiki. *)
Definition perft5FEN : string := "rnbq1k1r/pp1Pbppp/2p5/8/2B5/8/PPP1NnPP/RNBQK2R w KQ - 1 8".

(** 1.a3 Nxh1 2.a4 Nh1-f2 from perft position 5. *)
Definition rook_capture_line : list move_t :=
  [quiet_move A2 A3 WHITE_PAWN; capture_move F2 H1 BLACK_KNIGHT WHITE_ROOK;
   quiet_move A3 A4 WHITE_PAWN; quiet_move H1 F2 BLACK_KNIGHT].

(** Plays [ms] from [B] with the demo tables, each move checked to be
    generated for the side to move on the board it is made on; [None]
    when a move is not generated or [make_move] fails on it. *)
Fixpoint play_generated (ms : list move_t) (B : board) : option board :=
  match ms with
  | [] => Some B
  | m :: ms' =>
      if bool_decide (m ∈ generate_moves B (next_move_colour B)) then
        match make_move demo_piece_hash demo_castle_hash demo_enpas_hash demo_side_hash m B with
        | Some (B', _) => play_generated ms' B'
        | None => None
        end
      else None
  end.


(* ------------------------------------------------------------------ *)
(** ** Well-formed boards *)

(** The cells of the array, the cells holding piece [p] in increasing
    order, the same without cell [n], and the invariant tying the piece
    lists to the array: each list holds, in some order, exactly the cells
    of its piece. *)
Definition board_squares : list Z := map Z.of_nat (seq 0 120).
Definition squares_of (ps : list Z) (p : Z) : list Z :=
  if valid_piece p then List.filter (fun sq => ps !!! Z.to_nat sq =? p) board_squares else [].
Definition squares_except (ps : list Z) (p : Z) (n : nat) : list Z :=
  if valid_piece p
  then List.filter (fun sq => (ps !!! Z.to_nat sq =? p) && negb (sq =? Z.of_nat n)) board_squares
  else [].
Definition lists_match (pos : list (list Z)) (ps : list Z) : Prop :=
  forall p, Permutation (pos !!! Z.to_nat p) (squares_of ps p).

(** The shape of the array and of the lists that the primitives keep. *)
Record pieces_inv (B : board) : Prop := {
  inv_positions : length (positions B) = 16%nat;
  inv_pieces : length (pieces B) = 120%nat;
  inv_lists : lists_match (positions B) (pieces B)
}.

(** Each castle right still set has its king and rook on their home
    squares, and a live en-passant target has the pawn that just made its
    double step behind it ([ep_square] is the [enpas_square] of
    [make_move] and [unmake_move] for that target). *)
Definition castle_homes (B : board) : Prop :=
  (Z.land (castle_state B) WHITE_SHORT <> 0 ->
     piece_at B E1 = WHITE_KING /\ piece_at B H1 = WHITE_ROOK)
  /\ (Z.land (castle_state B) WHITE_LONG <> 0 ->
     piece_at B E1 = WHITE_KING /\ piece_at B A1 = WHITE_ROOK)
  /\ (Z.land (castle_state B) BLACK_SHORT <> 0 ->
     piece_at B E8 = BLACK_KING /\ piece_at B H8 = BLACK_ROOK)
  /\ (Z.land (castle_state B) BLACK_LONG <> 0 ->
     piece_at B E8 = BLACK_KING /\ piece_at B A8 = BLACK_ROOK).

Definition ep_square (side : bool) (ep : Z) : Z :=
  if Bool.eqb side WHITE then ep - 10 else ep + 10.

Definition ep_pawn (B : board) : Prop :=
  en_passant B = INVALID_SQUARE
  \/ (valid_square (en_passant B) = true
      /\ piece_at B (ep_square (next_move_colour B) (en_passant B))
         = pawn_of (negb (next_move_colour B))).

(** The boards on which make/unmake is checked: the hash invariant, the
    array and lists, both kings on the board, the castle rights and the
    target as above, and a half-move clock that does not wrap. *)
Record board_wf ph ch eh sh (B : board) : Prop := {
  wf_hash : hash_ok ph ch eh sh B;
  wf_pieces : pieces_inv B;
  wf_white_king : plist B WHITE_KING <> [];
  wf_black_king : plist B BLACK_KING <> [];
  wf_castle : castle_homes B;
  wf_ep : ep_pawn B;
  wf_half : 0 <= half_move B < 2 ^ 32 - 1
}.

(** A move's motion succeeds, and the unmake motion run on any board
    with the same array and lists, side and target then succeeds and gives
    back the array. *)
Definition roundtrip_motion ph ch eh (m : move_t) (B : board) : Prop :=
  exists B1, make_motion ph ch eh m B = Some B1 /\
    forall C, pieces C = pieces B1 -> positions C = positions B1 ->
      next_move_colour C = next_move_colour B -> en_passant C = en_passant B ->
      exists C', unmake_motion ph m C = Some C' /\ pieces C' = pieces B /\ pieces_inv C'.


(** ** The FEN codec: scan order and valid positions *)

(** The FEN scan order of the placement: rank 8 down to rank 1, each rank
    from file a to file h ([rank_row r j] is rank [r] from file [j]). *)
Definition rank_row (r j : nat) : list Z :=
  map (fun i => 21 + 10 * Z.of_nat r + Z.of_nat i) (seq j (8 - j)).
Fixpoint scan_ranks (r : nat) : list Z :=
  match r with
  | O => []
  | S r' => rank_row r' 0 ++ scan_ranks r'
  end.
Definition scan_order : list Z := scan_ranks 8.

(** What the placement loop of [Board::Board] does with the cells of an
    array [T] read in scan order: an empty cell is cleared, a piece is
    stored and appended to its list, unless that list is already full. *)
Fixpoint scan_fold (T : list Z) (l : list Z) (ps : list Z) (pos : list (list Z))
    : option (list Z * list (list Z)) :=
  match l with
  | [] => Some (ps, pos)
  | s :: l' =>
      let p := T !!! Z.to_nat s in
      if p =? INVALID_PIECE then scan_fold T l' (<[Z.to_nat s := INVALID_PIECE]> ps) pos
      else if negb (Nat.ltb (length (pos !!! Z.to_nat p)) MAX_PIECE_FREQ) then None
      else scan_fold T l' (<[Z.to_nat s := p]> ps) (<[Z.to_nat p := pos !!! Z.to_nat p ++ [s]]> pos)
  end.

(** The state of that scan after the squares [D]: the array holds [T]
    on [D] and is empty elsewhere, list [k] holds the squares of [D]
    holding [k] in scan order. *)
Definition ps_inv (T : list Z) (D : list Z) (ps : list Z) : Prop :=
  length ps = 120%nat /\
  forall n, (n < 120)%nat -> ps !!! n = if existsb (Z.eqb (Z.of_nat n)) D then T !!! n else INVALID_PIECE.
Definition pos_inv (T : list Z) (D : list Z) (pos : list (list Z)) : Prop :=
  length pos = 16%nat /\
  forall k, (k < 16)%nat ->
    pos !!! k = if (k =? 0)%nat then [] else List.filter (fun s => T !!! Z.to_nat s =? Z.of_nat k) D.

(** A position [Board::fen] renders and [Board::Board] parses back: a
    consistent hash, piece lists matching a 120-cell array whose
    cells are empty or hold a valid piece on a board square, at most
    [MAX_PIECE_FREQ] pieces of a kind, a 4-bit castle mask, an
    en-passant target on the rank of the side to move or none, clocks in
    [unsigned int] range and a half-move parity matching the side. *)
Record fen_valid ph ch eh sh (P : board) : Prop := {
  fv_hash : hash_ok ph ch eh sh P;
  fv_pieces : pieces_inv P;
  fv_cells : forall n, (n < 120)%nat ->
    pieces P !!! n = INVALID_PIECE
    \/ (valid_square (Z.of_nat n) = true /\ valid_piece (pieces P !!! n) = true);
  fv_counts : forall p, (length (plist P p) <= MAX_PIECE_FREQ)%nat;
  fv_castle : 0 <= castle_state P < 16;
  fv_ep : en_passant P = INVALID_SQUARE
          \/ (valid_square (en_passant P) = true /\ get_square_row (en_passant P) = ep_rank (next_move_colour P));
  fv_fifty : 0 <= fifty_move P < 2 ^ 32;
  fv_half : 0 <= half_move P < 2 ^ 32;
  fv_parity : half_move P mod 2 = Z.b2z (next_move_colour P)
}.


(* ------------------------------------------------------------------ *)
(** ** Further models: legal moves, the debug validator *)

(** The king's and the rook's squares of a castle move of [make_move]
    and [unmake_move], by side and flag: king from, king to, rook from,
    rook to. *)
Definition castle_route (side : bool) (flag : MoveFlag) : Z * Z * Z * Z :=
  if Bool.eqb side WHITE then
    if decide (flag = SHORT_CASTLE_MOVE) then (E1, G1, H1, F1) else (E1, C1, A1, D1)
  else
    if decide (flag = SHORT_CASTLE_MOVE) then (E8, G8, H8, F8) else (E8, C8, A8, D8).
(** The castle rights [make_move] clears for the side that castled. *)
Definition castle_rights_of (side : bool) : Z :=
  if Bool.eqb side WHITE then Z.lor WHITE_LONG WHITE_SHORT else Z.lor BLACK_LONG BLACK_SHORT.

(** [Board::legal_moves]: the loop over the pseudo-moves of a copy [tmp]
    of the board, [make_move] then [unmake_move] on [tmp], keeping the
    moves [make_move] accepts.  The copy carries the cache; what it adds
    is dropped with it. *)
Section Legal.
Variable piece_hash : Z -> Z -> Z.
Variable castle_hash : Z -> Z.
Variable enpas_hash : Z -> Z.
Variable side_hash : Z.

Fixpoint legal_filter (ms : list move_t) (tmp : board) : option (list move_t) :=
  match ms with
  | [] => Some []
  | move :: ms' =>
      match make_move piece_hash castle_hash enpas_hash side_hash move tmp with
      | None => None
      | Some (tmp, valid) =>
          tmp ← unmake_move piece_hash castle_hash enpas_hash side_hash tmp;
          result ← legal_filter ms' tmp;
          Some (if valid then move :: result else result)
      end
  end.

Definition legal_moves (cache : move_cache) (B : board) : option (list move_t) :=
  '(ms, _) ← pseudo_moves cache B None;
  legal_filter ms B.
(** The flag [make_move] returns for [m] on [B]. *)
Definition make_valid (B : board) (m : move_t) : bool :=
  match make_move piece_hash castle_hash enpas_hash side_hash m B with
  | Some (_, valid) => valid
  | None => false
  end.
(** [unmake_move] after [make_move m] gives [B] back. *)
Definition make_unmake_ok (B : board) (m : move_t) : Prop :=
  match make_move piece_hash castle_hash enpas_hash side_hash m B with
  | Some (B', _) => unmake_move piece_hash castle_hash enpas_hash side_hash B' = Some B
  | None => False
  end.

End Legal.

(** What the placement loop of [Board::Board] leaves in the cell array
    and the lists: non-empty cells (of the array's range) on board
    squares holding valid pieces, list entries on board squares under a
    valid piece. *)
Definition on_board (ps : list Z) (pos : list (list Z)) : Prop :=
  (forall j, (j < length ps)%nat -> ps !!! j <> INVALID_PIECE ->
     valid_square (Z.of_nat j) = true /\ valid_piece (ps !!! j) = true)
  /\ (forall k sq, In sq (pos !!! k) -> valid_square sq = true /\ valid_piece (Z.of_nat k) = true).

(** [piece_count] of [Board::validate_board]: how many of the 120 cells
    hold [piece]. *)
Definition piece_count (B : board) (piece : Z) : nat :=
  length (List.filter (fun sq => piece_at B sq =? piece) board_squares).
(** The nested [compare_idx] loop of [validate_board]: no entry repeats. *)
Fixpoint distinct_entries (l : list Z) : bool :=
  match l with
  | [] => true
  | x :: l' => negb (existsb (Z.eqb x) l') && distinct_entries l'
  end.
(** [Board::validate_board] in a [DEBUG] build, as the conjunction of its
    assertions, in their order. *)
Definition validate_board (B : board) : bool :=
  forallb (fun sq => valid_piece (piece_at B sq) || (piece_at B sq =? INVALID_PIECE)) board_squares
  && Nat.eqb (length (plist B WHITE_KING)) 1
  && Nat.eqb (length (plist B BLACK_KING)) 1
  && forallb (fun piece =>
       (valid_piece piece || Nat.eqb (length (plist B piece)) 0)
       && (negb (valid_piece piece) || Nat.eqb (length (plist B piece)) (piece_count B piece))
       && Nat.leb (length (plist B piece)) MAX_PIECE_FREQ
       && forallb (fun sq => piece_at B sq =? piece) (plist B piece)
       && distinct_entries (plist B piece))
     (map Z.of_nat (seq 0 16))
  && (0 <=? castle_state B) && (castle_state B <? 16)
  && (valid_square (en_passant B) || (en_passant B =? INVALID_SQUARE))
  && (negb (Bool.eqb (next_move_colour B) BLACK && negb (en_passant B =? INVALID_SQUARE))
      || (get_square_row (en_passant B) =? RANK_3))
  && (negb (Bool.eqb (next_move_colour B) WHITE && negb (en_passant B =? INVALID_SQUARE))
      || (get_square_row (en_passant B) =? RANK_6))
  && negb (square_attacked B
             (plist B (if Bool.eqb (next_move_colour B) BLACK then WHITE_KING else BLACK_KING) !!! 0%nat)
             (next_move_colour B)).

(** Every castle right of [a] is one of [b]. *)
Definition castle_sub (a b : Z) : Prop := forall i, Z.testbit a i = true -> Z.testbit b i = true.
(** Every cached list respects [MAX_POSITION_MOVES]. *)
Definition cache_bounded (cache : move_cache) : Prop :=
  forall k l, cache !! k = Some l -> (length l <= MAX_POSITION_MOVES)%nat.


(* ================================================================== *)
(** * Theorems *)

(* ------------------------------------------------------------------ *)
(** ** Frame lemmas of the primitives *)

Section Frames.
Variable piece_hash : Z -> Z -> Z.
Variable castle_hash : Z -> Z.
Variable enpas_hash : Z -> Z.
Variable side_hash : Z.

(** What a primitive leaves alone. *)
Definition same_meta (B B' : board) : Prop :=
  history B' = history B /\ next_move_colour B' = next_move_colour B
  /\ half_move B' = half_move B /\ fifty_move B' = fifty_move B.

Lemma same_meta_refl B : same_meta B B.
Proof. repeat split. Qed.

Lemma same_meta_trans B1 B2 B3 : same_meta B1 B2 -> same_meta B2 B3 -> same_meta B1 B3.
Proof. unfold same_meta. intuition congruence. Qed.

Lemma remove_piece_frame sq B B' :
  remove_piece piece_hash sq B = Some B' ->
  same_meta B B' /\ castle_state B' = castle_state B /\ en_passant B' = en_passant B.
Proof.
  unfold remove_piece. destruct (negb _); [discriminate|].
  destruct (find_index _ _); [|discriminate]. intros [= <-]. repeat split.
Qed.

Lemma add_piece_frame sq p B B' :
  add_piece piece_hash sq p B = Some B' ->
  same_meta B B' /\ castle_state B' = castle_state B /\ en_passant B' = en_passant B.
Proof.
  unfold add_piece. destruct (negb _); [discriminate|]. destruct (negb _); [discriminate|].
  intros [= <-]. repeat split.
Qed.

Lemma move_piece_frame from to B B' :
  move_piece piece_hash from to B = Some B' ->
  same_meta B B' /\ castle_state B' = castle_state B /\ en_passant B' = en_passant B.
Proof.
  unfold move_piece. destruct (negb _); [discriminate|].
  destruct (find_index _ _); [|discriminate]. intros [= <-]. repeat split.
Qed.

Lemma set_castle_state_meta st B : same_meta B (set_castle_state castle_hash st B).
Proof. repeat split. Qed.
Lemma set_en_passant_meta sq B : same_meta B (set_en_passant enpas_hash sq B).
Proof. repeat split. Qed.
Lemma update_castling_meta sq p B : same_meta B (update_castling castle_hash sq p B).
Proof. unfold update_castling. destruct (negb _); repeat split. Qed.

End Frames.

(** Decompose a successful chain of primitives into the facts each step
    leaves behind. *)
Ltac frame_steps :=
  repeat match goal with
  | H : _ ≫= _ = Some _ |- _ => apply bind_Some in H as (? & ? & H)
  | H : Some _ = Some _ |- _ => injection H as H; subst
  | H : remove_piece _ _ _ = Some _ |- _ => apply remove_piece_frame in H as (? & ? & ?)
  | H : add_piece _ _ _ _ = Some _ |- _ => apply add_piece_frame in H as (? & ? & ?)
  | H : move_piece _ _ _ _ = Some _ |- _ => apply move_piece_frame in H as (? & ? & ?)
  end.

Lemma make_motion_meta ph ch eh m B B' :
  make_motion ph ch eh m B = Some B' -> same_meta B B'.
Proof.
  unfold make_motion, update_castling. intros H.
  repeat case_match; frame_steps; unfold same_meta in *; cbn in *; intuition congruence.
Qed.

(** The castle state after the motion of a capture or a promote-capture. *)
Lemma make_motion_capture_castle ph ch eh m B B' :
  move_flag m = CAPTURE_MOVE \/ move_flag m = PROMOTE_CAPTURE_MOVE ->
  make_motion ph ch eh m B = Some B' ->
  castle_state B' =
    (if bool_decide (move_flag m = CAPTURE_MOVE) && is_castle (moved_piece m)
     then strip_castling (move_from m) (castle_state B) else castle_state B).
Proof.
  intros Hf H. unfold make_motion, update_castling, move_promoted, move_castled,
    move_captured in H.
  destruct Hf as [Hf | Hf]; rewrite Hf in H |- *; cbn in H |- *.
  - rewrite bool_decide_true by reflexivity.
    destruct (decide _); [discriminate|].
    frame_steps. unfold same_meta in *. cbn in *.
    destruct (is_castle (moved_piece m)); cbn; congruence.
  - rewrite bool_decide_false by discriminate.
    frame_steps. unfold same_meta in *. cbn in *. congruence.
Qed.

(** Stripping at a square that is not a home of the opponent leaves the
    opponent's castle bits alone. *)
Lemma strip_castling_opponent_bits side sq cs :
  ~ In sq (opponent_homes side) ->
  Z.land (strip_castling sq cs) (opponent_castle_mask side) =
  Z.land cs (opponent_castle_mask side).
Proof.
  intros Hn. unfold strip_castling.
  destruct side; cbn in Hn |- *;
  destruct (sq =? E1) eqn:Ha; destruct (sq =? A1) eqn:Hb; destruct (sq =? H1) eqn:Hc;
  destruct (sq =? E8) eqn:Hd; destruct (sq =? A8) eqn:He; destruct (sq =? H8) eqn:Hg;
  cbn; rewrite ?Z.eqb_eq in *;
  try (exfalso; apply Hn;
       first [left; congruence | right; left; congruence | right; right; left; congruence]);
  repeat rewrite <- Z.land_assoc; reflexivity.
Qed.

(* ------------------------------------------------------------------ *)
(** ** Claims *)

(** C9: the early-return guard of [square_attacked] compares the occupant
    with 0 or 1 and asks for the side bit of that comparison, which is
    never set: for every board, square and side, [square_attacked] is the
    function with the guard removed. *)
Theorem square_attacked_guard_never_fires (B : board) (sq : Z) (side : bool) :
  square_attacked B sq side = square_attacked_body B sq side.
Proof.
  unfold square_attacked.
  destruct (piece_at B sq =? Z.b2z side); cbn; rewrite andb_false_r; reflexivity.
Qed.

(** C7: a successful [make_move] pushes exactly one undo record holding
    the move and the castle state, en-passant target, fifty-move count and
    hash from before the move; it advances the half-move clock, switches
    the side to move, and its result is true exactly when the king of the
    side that moved is not attacked by the other side afterwards. *)
Theorem make_move_record_switch_and_result ph ch eh sh (m : move_t) (B B' : board)
    (valid : bool) :
  make_move ph ch eh sh m B = Some (B', valid) ->
  history B' =
    mk_history m (castle_state B) (en_passant B) (fifty_move B) (hash B) :: history B
  /\ next_move_colour B' = negb (next_move_colour B)
  /\ half_move B' = u32 (half_move B + 1)
  /\ valid = negb (square_attacked B' (plist B' (king_of (next_move_colour B)) !!! 0%nat)
                    (negb (next_move_colour B))).
Proof.
  unfold make_move. intros H.
  apply bind_Some in H as (B1 & HM & H). injection H as <- <-.
  apply make_motion_meta in HM as (Hh & Hc & Hhalf & _). cbn in Hh, Hc, Hhalf.
  destruct (_ || _); cbn; rewrite Hh, Hc, Hhalf; repeat split.
Qed.

Lemma make_move_record_switch_and_result_witness :
  let B := demo_board startFEN in
  let m := double_move E2 E4 WHITE_PAWN in
  make_move demo_piece_hash demo_castle_hash demo_enpas_hash demo_side_hash m B =
    Some (demo_make m B, true)
  /\ history (demo_make m B) =
       mk_history m (castle_state B) (en_passant B) (fifty_move B) (hash B) :: history B
  /\ next_move_colour (demo_make m B) = negb (next_move_colour B)
  /\ half_move (demo_make m B) = u32 (half_move B + 1)
  /\ true = negb (square_attacked (demo_make m B)
                   (plist (demo_make m B) (king_of (next_move_colour B)) !!! 0%nat)
                   (negb (next_move_colour B))).
Proof.
  intros B m. split.
  - vm_compute. reflexivity.
  - apply (make_move_record_switch_and_result demo_piece_hash demo_castle_hash
             demo_enpas_hash demo_side_hash m B (demo_make m B) true).
    vm_compute. reflexivity.
Defined.

(** C10, counterexample: a white rook on A8 takes the black rook on H8
    (its home corner). The capture strips black's long castle right,
    since the capturing rook leaves A8, so the opponent's bits change. *)
Lemma rook_capture_on_corner_changes_opponent_rights :
  let B := demo_board "R6r/4k3/8/8/8/8/8/4K3 w kq - 0 1" in
  let m := capture_move A8 H8 WHITE_ROOK BLACK_ROOK in
  In m (generate_moves B WHITE) /\ piece_at B H8 = BLACK_ROOK
  /\ match make_move demo_piece_hash demo_castle_hash demo_enpas_hash demo_side_hash m B with
     | Some (B', _) =>
         Z.land (castle_state B') (opponent_castle_mask WHITE)
         <> Z.land (castle_state B) (opponent_castle_mask WHITE)
     | None => False
     end.
Proof. vm_compute. split; [tauto | split; [reflexivity | discriminate]]. Qed.

(** C10, amended: after a capture, [make_move] sets the castle state to
    the old one stripped at the from-square when a king or rook moved, and
    leaves it unchanged otherwise (and always after a promote-capture). So
    the opponent's castle bits are unchanged unless the capturing king or
    rook leaves one of the opponent's home squares E8/A8/H8 (for white)
    or E1/A1/H1 (for black); what is captured plays no part. *)
Theorem make_move_capture_castle_state ph ch eh sh (m : move_t) (B B' : board)
    (valid : bool) :
  make_move ph ch eh sh m B = Some (B', valid) ->
  move_flag m = CAPTURE_MOVE \/ move_flag m = PROMOTE_CAPTURE_MOVE ->
  castle_state B' =
    (if bool_decide (move_flag m = CAPTURE_MOVE) && is_castle (moved_piece m)
     then strip_castling (move_from m) (castle_state B) else castle_state B)
  /\ (is_castle (moved_piece m) = false
      \/ ~ In (move_from m) (opponent_homes (next_move_colour B)) ->
      Z.land (castle_state B') (opponent_castle_mask (next_move_colour B))
      = Z.land (castle_state B) (opponent_castle_mask (next_move_colour B))).
Proof.
  unfold make_move. intros H Hf.
  apply bind_Some in H as (B1 & HM & H). injection H as <- _.
  apply (make_motion_capture_castle ph ch eh) in HM; [|exact Hf]. cbn in HM.
  assert (castle_state (switch_colours sh
            (if move_captured m || is_pawn (moved_piece m) then set_fifty 0 B1
             else set_fifty (u32 (fifty_move B1 + 1)) B1)) = castle_state B1) as Hcs
    by (destruct (_ || _); reflexivity).
  rewrite Hcs, HM. split; [reflexivity|].
  intros Hc. destruct (bool_decide _ && is_castle _) eqn:Hb; [|reflexivity].
  apply andb_true_iff in Hb as [_ Hb].
  destruct Hc as [Hc | Hc]; [congruence|]. apply strip_castling_opponent_bits, Hc.
Qed.

Lemma make_move_capture_castle_state_witness :
  let B2 := demo_board "R6r/4k3/8/8/8/8/4p3/4K3 w kq - 0 1" in
  let m2 := capture_move E1 E2 WHITE_KING BLACK_PAWN in
  make_move demo_piece_hash demo_castle_hash demo_enpas_hash demo_side_hash m2 B2 =
    Some (demo_make m2 B2, true)
  /\ (move_flag m2 = CAPTURE_MOVE \/ move_flag m2 = PROMOTE_CAPTURE_MOVE)
  /\ castle_state (demo_make m2 B2) = strip_castling E1 (castle_state B2)
  /\ Z.land (castle_state (demo_make m2 B2)) (opponent_castle_mask (next_move_colour B2))
     = Z.land (castle_state B2) (opponent_castle_mask (next_move_colour B2)).
Proof.
  intros B2 m2.
  assert (Hm : make_move demo_piece_hash demo_castle_hash demo_enpas_hash demo_side_hash
                 m2 B2 = Some (demo_make m2 B2, true))
    by (vm_compute; reflexivity).
  destruct (make_move_capture_castle_state demo_piece_hash demo_castle_hash
              demo_enpas_hash demo_side_hash m2 B2 (demo_make m2 B2) true Hm
              (or_introl eq_refl)) as [H1 H2].
  split; [exact Hm|]. split; [left; reflexivity|]. split.
  - rewrite H1. vm_compute. reflexivity.
  - apply H2. right. vm_compute. intros [Hx|[Hx|[Hx|[]]]]; discriminate Hx.
Defined.

(** C3, failing input: the cache after one [pseudo_moves] call on the
    starting position has an entry for the starting hash; after 76 plies
    of knight shuffles the board has the same hash (the clocks are not
    hashed) but a fifty-move count of 76, and the cache returns the 20
    starting moves where a computation from scratch returns none. *)
Theorem pseudo_moves_cache_hit_differs_from_scratch :
  hash start_after_76_plies = hash (demo_board startFEN)
  /\ is_Some (start_cache !! hash start_after_76_plies)
  /\ option_map (fun r => length (fst r)) (pseudo_moves start_cache start_after_76_plies None)
     = Some 20%nat
  /\ option_map (fun r => length (fst r)) (pseudo_moves ∅ start_after_76_plies None)
     = Some 0%nat.
Proof.
  split; [vm_compute; reflexivity|]. split; [vm_compute; eexists; reflexivity|].
  split; vm_compute; reflexivity.
Qed.

(** C4, failing input: the same board has a fifty-move count over 75,
    yet with the cache filled on the starting position [pseudo_moves]
    returns a non-empty list. *)
Theorem pseudo_moves_after_75_moves_nonempty :
  75 < fifty_move start_after_76_plies
  /\ match pseudo_moves start_cache start_after_76_plies None with
     | Some (r, _) => r <> []
     | None => False
     end.
Proof. vm_compute. split; [reflexivity | discriminate]. Qed.

(** C5, counterexample: with a black rook on g2 and the white king and
    rook on their home squares, [pseudo_moves] emits the short castle
    E1-G1 although G1, the king's destination, is attacked. *)
Lemma castle_into_attacked_square_emitted :
  let B := demo_board "4k3/8/8/8/8/8/6r1/4K2R w K - 0 1" in
  square_attacked B G1 BLACK = true
  /\ match pseudo_moves ∅ B None with
     | Some (r, _) => In (castle_move E1 G1 WHITE_KING SHORT_CASTLE_MOVE) r
     | None => False
     end.
Proof. vm_compute. split; [reflexivity | tauto]. Qed.


(** C1, counterexample: white's e4 pawn takes the black pawn on d5,
    the first of black's two pawns. [remove_piece] moves the last entry
    of the list into the freed slot and [add_piece] appends again, so
    after make and unmake the black pawn list is reordered. *)
Lemma make_unmake_reorders_piece_list :
  let B := demo_board "4k3/8/8/3p4/4P3/7p/8/4K3 w - - 0 1" in
  let m := capture_move E4 D5 WHITE_PAWN BLACK_PAWN in
  In m (generate_moves B WHITE)
  /\ match make_move demo_piece_hash demo_castle_hash demo_enpas_hash demo_side_hash m B with
     | Some (B1, _) =>
         match unmake_move demo_piece_hash demo_castle_hash demo_enpas_hash demo_side_hash B1 with
         | Some B2 => plist B2 BLACK_PAWN = [H3; D5] /\ plist B BLACK_PAWN = [D5; H3]
         | None => False
         end
     | None => False
     end.
Proof. vm_compute. split; [tauto | split; reflexivity]. Qed.

(** C1, failing input: from perft position 5, after 1.a3 Nxh1 2.a4 Nh1-f2
    (each move generated and made), white's short castle right is still set
    though no rook stands on h1: [update_castling] only looks at the square
    a piece leaves, not the one a capture lands on.  The generator emits
    O-O, and [make_move] fails on it ([move_piece] of the empty h1, an
    [ASSERT] in the source), so make then unmake cannot restore the board.
    Likewise the FEN parser keeps the target d6 in
    [4k3/8/2P5/4P3/8/8/8/4K3 w - d6 0 1] (a white pawn on c6), the
    generator emits exd6 e.p., and [make_move] fails on it
    ([remove_piece] of the empty d5). *)
Theorem make_move_fails_on_generated_moves :
  (match play_generated rook_capture_line (demo_board perft5FEN) with
   | Some B =>
       next_move_colour B = WHITE /\ piece_at B H1 = INVALID_PIECE
       /\ Z.land (castle_state B) WHITE_SHORT = WHITE_SHORT
       /\ In (castle_move E1 G1 WHITE_KING SHORT_CASTLE_MOVE) (generate_moves B WHITE)
       /\ make_move demo_piece_hash demo_castle_hash demo_enpas_hash demo_side_hash
            (castle_move E1 G1 WHITE_KING SHORT_CASTLE_MOVE) B = None
   | None => False
   end)
  /\ (let E := demo_board "4k3/8/2P5/4P3/8/8/8/4K3 w - d6 0 1" in
      en_passant E = D6 /\ piece_at E D5 = INVALID_PIECE
      /\ In (en_passant_move E5 D6 WHITE_PAWN) (generate_moves E WHITE)
      /\ make_move demo_piece_hash demo_castle_hash demo_enpas_hash demo_side_hash
           (en_passant_move E5 D6 WHITE_PAWN) E = None).
Proof.
  vm_compute.
  split; (split; [reflexivity|]); (split; [reflexivity|]).
  - split; [reflexivity|]. split; [tauto|reflexivity].
  - split; [tauto|reflexivity].
Qed.


(** C8, counterexample: the board after e2-e4 renders with target e3;
    parsing that FEN elides the target (no black pawn beside it) but
    also drops its hash key, so the parsed hash differs from the stored
    one. *)
Lemma fen_roundtrip_changes_hash :
  let P := demo_make (double_move E2 E4 WHITE_PAWN) (demo_board startFEN) in
  hash P = compute_hash demo_piece_hash demo_castle_hash demo_enpas_hash demo_side_hash P
  /\ match board_of_fen demo_piece_hash demo_castle_hash demo_enpas_hash demo_side_hash (fen P) with
     | Some P' => en_passant P' = INVALID_SQUARE /\ hash P' <> hash P
     | None => False
     end.
Proof. vm_compute. split; [reflexivity | split; [reflexivity | discriminate]]. Qed.

(* ------------------------------------------------------------------ *)
(** ** Which sections of the generator emit castle moves *)

Lemma in_flat_map_forall {A} (P : move_t -> Prop) (f : A -> list move_t) (l : list A) :
  (forall x m, In m (f x) -> P m) -> forall m, In m (flat_map f l) -> P m.
Proof. intros Hf m (x & _ & Hm)%in_flat_map. exact (Hf x m Hm). Qed.

Lemma slide_moves_not_castled fuel B piece start cur offset m :
  In m (slide_moves fuel B piece start cur offset) -> not_castled m.
Proof.
  revert cur. induction fuel as [|f IH]; intros cur; cbn; [tauto|].
  repeat case_match; cbn; intros Hm; try tauto;
    destruct Hm as [<- | Hm]; [reflexivity | eauto | reflexivity | tauto].
Qed.

Lemma slider_moves_not_castled B piece offsets m :
  In m (slider_moves B piece offsets) -> not_castled m.
Proof.
  apply in_flat_map_forall. intros start. apply in_flat_map_forall.
  intros offset. apply slide_moves_not_castled.
Qed.

Lemma step_move_not_castled B piece start offset m :
  In m (step_move B piece start offset) -> not_castled m.
Proof. unfold step_move. repeat case_match; cbn; intuition subst; reflexivity. Qed.

Lemma knight_moves_not_castled B piece m :
  In m (knight_moves B piece) -> not_castled m.
Proof.
  apply in_flat_map_forall. intros start. apply in_flat_map_forall.
  intros offset. apply step_move_not_castled.
Qed.

Lemma pawn_capture_not_castled B pawn start capture pp m :
  In m (pawn_capture B pawn start capture pp) -> not_castled m.
Proof.
  unfold pawn_capture. repeat case_match; cbn; try tauto.
  - intros (? & <- & _)%in_map_iff. reflexivity.
  - intuition subst. reflexivity.
Qed.

Lemma pawn_moves_not_castled B side pawn pp start m :
  In m (pawn_moves B side pawn pp start) -> not_castled m.
Proof.
  unfold pawn_moves. repeat case_match; cbn; rewrite ?in_app_iff; cbn; intros Hm;
    repeat match goal with
    | H : In m (pawn_capture _ _ _ _ _) |- _ => exact (pawn_capture_not_castled _ _ _ _ _ _ H)
    | H : _ \/ _ |- _ => destruct H
    | H : In _ (map _ _) |- _ => apply in_map_iff in H as (? & <- & _)
    | H : False |- _ => destruct H
    | H : _ = m |- _ => subst m
    end; reflexivity.
Qed.

Lemma king_moves_not_castled B piece m :
  In m (king_moves B piece) -> not_castled m.
Proof.
  apply in_flat_map_forall. intros offset m' H. cbv zeta in H.
  repeat case_match; cbn in H; intuition subst; reflexivity.
Qed.

(** Every castle move of [generate_moves] comes from the castling block. *)
Lemma generate_moves_castled B side m :
  In m (generate_moves B side) -> move_castled m = true -> In m (castle_moves B side).
Proof.
  unfold generate_moves. rewrite !in_app_iff.
  intros Hm Hc. destruct Hm as [Hm|[Hm|[Hm|[Hm|[Hm|[Hm|Hm]]]]]]; try exact Hm;
    exfalso; cut (not_castled m); unfold not_castled; try congruence.
  - eapply slider_moves_not_castled; eassumption.
  - eapply slider_moves_not_castled; eassumption.
  - eapply slider_moves_not_castled; eassumption.
  - eapply knight_moves_not_castled; eassumption.
  - refine (in_flat_map_forall not_castled _ _ _ m Hm). intros start.
    apply pawn_moves_not_castled.
  - eapply king_moves_not_castled; eassumption.
Qed.

Lemma castle_moves_conditions B side m :
  In m (castle_moves B side) -> castle_conditions B side m.
Proof.
  unfold castle_moves, castle_conditions.
  destruct side; cbn [Bool.eqb WHITE BLACK]; rewrite in_app_iff;
    (intros [Hm|Hm]; [left|right]; revert Hm;
     match goal with |- In _ (if ?c then _ else _) -> _ =>
       let E := fresh "E" in destruct c eqn:E; [|intros []] end;
     intros [<-|[]];
     rewrite ?andb_true_iff, ?negb_true_iff, ?Z.eqb_neq, ?Z.eqb_eq in E;
     repeat match goal with H : _ /\ _ |- _ => destruct H end;
     repeat split; assumption).
Qed.

(** C5, amended: when [pseudo_moves] computes its list (no cache entry for
    the hash), every castle move in it has the castle right set, the
    king's origin and the square it crosses (F1/D1, F8/D8) not attacked
    by the opponent, and every square between king and rook empty
    (B1/B8 included). The destination G1/C1/G8/C8 is not tested. *)
Theorem pseudo_moves_castle_conditions (cache cache' : move_cache) (B : board)
    (sd : option bool) (r : list move_t) (m : move_t) :
  cache !! hash B = None ->
  pseudo_moves cache B sd = Some (r, cache') ->
  In m r -> move_castled m = true ->
  castle_conditions B (default (next_move_colour B) sd) m.
Proof.
  intros Hc Hp Hm Hk. unfold pseudo_moves in Hp. rewrite Hc in Hp.
  destruct (_ || _); [injection Hp as <- _; destruct Hm|].
  destruct (negb _); [discriminate|]. injection Hp as <- _.
  apply castle_moves_conditions, generate_moves_castled; [|exact Hk].
  destruct sd; exact Hm.
Qed.

Lemma pseudo_moves_castle_conditions_witness :
  let B := demo_board "4k3/8/8/8/8/8/8/4K2R w K - 0 1" in
  let m := castle_move E1 G1 WHITE_KING SHORT_CASTLE_MOVE in
  (∅ : move_cache) !! hash B = None
  /\ pseudo_moves ∅ B None = Some (generate_moves B WHITE, <[hash B := generate_moves B WHITE]> ∅)
  /\ In m (generate_moves B WHITE) /\ move_castled m = true
  /\ castle_conditions B (default (next_move_colour B) None) m.
Proof.
  intros B m.
  assert (H1 : (∅ : move_cache) !! hash B = None) by reflexivity.
  assert (H2 : pseudo_moves ∅ B None
               = Some (generate_moves B WHITE, <[hash B := generate_moves B WHITE]> ∅))
    by (vm_compute; reflexivity).
  assert (H3 : In m (generate_moves B WHITE)) by (vm_compute; tauto).
  split; [exact H1|]. split; [exact H2|]. split; [exact H3|]. split; [reflexivity|].
  exact (pseudo_moves_castle_conditions ∅ _ B None _ m H1 H2 H3 eq_refl).
Defined.

(* ------------------------------------------------------------------ *)
(** ** The hash invariant *)

(** Equalities of XOR terms, bit by bit. *)
Ltac xor_solve :=
  cbv beta iota; apply Z.bits_inj'; intros ?i ?Hi; rewrite ?Z.lxor_spec, ?Z.bits_0;
  repeat match goal with |- context [Z.testbit ?x ?j] => destruct (Z.testbit x j) end;
  reflexivity.

Lemma fold_xor (g : Z -> Z) (l : list Z) (a : Z) :
  fold_left (fun res sq => Z.lxor res (g sq)) l a = Z.lxor a (xsum g l).
Proof.
  revert a. induction l as [|x l IH]; intros a; cbn [fold_left]; [cbn; xor_solve|].
  rewrite IH. change (xsum g (x :: l)) with (Z.lxor (g x) (xsum g l)). xor_solve.
Qed.

Section HashInv.
Variable ph : Z -> Z -> Z.
Variable ch : Z -> Z.
Variable eh : Z -> Z.
Variable sh : Z.
Hypothesis Hinv : forall sq, ph sq INVALID_PIECE = 0.
Hypothesis Hoff : forall sq p, sq <= 0 \/ 120 <= sq -> ph sq p = 0.

Lemma xsum_seq_insert (ps : list Z) (n : nat) (p : Z) (s len : nat) :
  (n < length ps)%nat ->
  xsum (fun sq => ph sq (<[n:=p]> ps !!! Z.to_nat sq)) (map Z.of_nat (seq s len)) =
  Z.lxor (xsum (fun sq => ph sq (ps !!! Z.to_nat sq)) (map Z.of_nat (seq s len)))
    (if ((s <=? n) && (n <? s + len))%nat
     then Z.lxor (ph (Z.of_nat n) (ps !!! n)) (ph (Z.of_nat n) p) else 0).
Proof.
  intros Hn. revert s. induction len as [|len IH]; intros s.
  - cbn [seq map xsum fold_right]. rewrite Nat.add_0_r.
    replace ((s <=? n) && (n <? s))%nat with false; [xor_solve|].
    destruct (Nat.leb_spec s n), (Nat.ltb_spec n s); cbn; try reflexivity; lia.
  - cbn [seq map xsum fold_right]. fold (xsum (fun sq => ph sq (<[n:=p]> ps !!! Z.to_nat sq))
      (map Z.of_nat (seq (S s) len))).
    fold (xsum (fun sq => ph sq (ps !!! Z.to_nat sq)) (map Z.of_nat (seq (S s) len))).
    rewrite IH, Nat2Z.id. destruct (decide (s = n)) as [<-|Hne].
    + rewrite list_lookup_total_insert_eq by exact Hn.
      replace ((S s <=? s) && (s <? S s + len))%nat with false
        by (destruct (Nat.leb_spec (S s) s); cbn; [lia | reflexivity]).
      replace ((s <=? s) && (s <? s + S len))%nat with true
        by (destruct (Nat.leb_spec s s), (Nat.ltb_spec s (s + S len)); cbn; try reflexivity; lia).
      xor_solve.
    + rewrite list_lookup_total_insert_ne by (intros ?; apply Hne; congruence).
      replace ((S s <=? n) && (n <? S s + len))%nat with ((s <=? n) && (n <? s + S len))%nat
        by (destruct (Nat.leb_spec s n), (Nat.ltb_spec n (s + S len)),
                     (Nat.leb_spec (S s) n), (Nat.ltb_spec n (S s + len));
            cbn; try reflexivity; lia).
      xor_solve.
Qed.

Lemma placement_hash_insert (ps : list Z) (sq p : Z) :
  length ps = 120%nat ->
  placement_hash ph (<[Z.to_nat sq := p]> ps) =
  Z.lxor (Z.lxor (placement_hash ph ps) (ph sq (ps !!! Z.to_nat sq))) (ph sq p).
Proof.
  intros Hl. unfold placement_hash. rewrite !fold_xor.
  destruct (Z_lt_le_dec sq 120) as [Hlt|Hge].
  - rewrite xsum_seq_insert by lia.
    replace ((0 <=? Z.to_nat sq) && (Z.to_nat sq <? 0 + 120))%nat with true
      by (destruct (Nat.ltb_spec (Z.to_nat sq) (0 + 120)); cbn; [reflexivity | lia]).
    destruct (Z_lt_le_dec sq 0) as [Hneg|Hpos].
    + replace (Z.to_nat sq) with 0%nat by lia. cbn [Z.of_nat].
      rewrite (Hoff 0), (Hoff 0), (Hoff sq), (Hoff sq) by lia. xor_solve.
    + rewrite Z2Nat.id by lia. xor_solve.
  - rewrite list_insert_ge by lia. rewrite (Hoff sq), (Hoff sq) by lia. xor_solve.
Qed.

Lemma compute_hash_split (B : board) :
  compute_hash ph ch eh sh B =
  Z.lxor (Z.lxor (Z.lxor (placement_hash ph (pieces B)) (ch (castle_state B)))
    (eh (en_passant B))) (Z.b2z (next_move_colour B) * sh).
Proof. unfold compute_hash, placement_hash, piece_at. reflexivity. Qed.

Ltac proj_simpl :=
  cbn [pieces positions castle_state en_passant next_move_colour hash history fifty_move
       half_move set_hash set_positions set_pieces set_castle set_ep set_colour set_fifty
       set_half set_history] in *.

Lemma remove_piece_hash_ok sq B B' :
  remove_piece ph sq B = Some B' -> hash_ok ph ch eh sh B -> hash_ok ph ch eh sh B'.
Proof.
  intros H [Hh Hl]. unfold remove_piece in H. destruct (negb _); [discriminate|].
  destruct (find_index _ _); [|discriminate]. injection H as <-.
  split; rewrite ?compute_hash_split in *; proj_simpl; [|rewrite length_insert; exact Hl].
  rewrite placement_hash_insert, Hh, Hinv by exact Hl.
  unfold piece_at. xor_solve.
Qed.

Lemma add_piece_hash_ok sq p B B' :
  add_piece ph sq p B = Some B' -> hash_ok ph ch eh sh B -> hash_ok ph ch eh sh B'.
Proof.
  intros H [Hh Hl]. unfold add_piece in H. destruct (negb (valid_piece p)); [discriminate|].
  destruct (negb _) eqn:He; [discriminate|]. injection H as <-.
  apply negb_false_iff, Z.eqb_eq in He. unfold piece_at in He.
  split; rewrite ?compute_hash_split in *; proj_simpl; [|rewrite length_insert; exact Hl].
  rewrite placement_hash_insert, Hh, He, Hinv by exact Hl.
  xor_solve.
Qed.

Lemma lookup_insert_invalid (ps : list Z) (i j : nat) :
  ps !!! j = INVALID_PIECE -> <[i := INVALID_PIECE]> ps !!! j = INVALID_PIECE.
Proof. intros H. rewrite list_lookup_total_insert. case_decide; auto. Qed.

Lemma move_piece_hash_ok from to B B' :
  move_piece ph from to B = Some B' -> hash_ok ph ch eh sh B -> hash_ok ph ch eh sh B'.
Proof.
  intros H [Hh Hl]. unfold move_piece in H. destruct (negb _) eqn:He; [discriminate|].
  destruct (find_index _ _); [|discriminate]. injection H as <-.
  apply negb_false_iff, Z.eqb_eq in He. unfold piece_at in He.
  split; rewrite ?compute_hash_split in *; proj_simpl; [|rewrite !length_insert; exact Hl].
  rewrite placement_hash_insert by (rewrite length_insert; exact Hl).
  rewrite placement_hash_insert by exact Hl.
  rewrite (lookup_insert_invalid _ _ _ He), Hinv, Hh, Hinv. unfold piece_at.
  xor_solve.
Qed.

Lemma set_castle_state_hash_ok st B :
  hash_ok ph ch eh sh B -> hash_ok ph ch eh sh (set_castle_state ch st B).
Proof.
  intros [Hh Hl]. unfold set_castle_state.
  split; rewrite ?compute_hash_split in *; proj_simpl; [rewrite Hh; xor_solve | exact Hl].
Qed.

Lemma set_en_passant_hash_ok sq B :
  hash_ok ph ch eh sh B -> hash_ok ph ch eh sh (set_en_passant eh sq B).
Proof.
  intros [Hh Hl]. unfold set_en_passant.
  split; rewrite ?compute_hash_split in *; proj_simpl; [rewrite Hh; xor_solve | exact Hl].
Qed.

Lemma update_castling_hash_ok sq p B :
  hash_ok ph ch eh sh B -> hash_ok ph ch eh sh (update_castling ch sq p B).
Proof.
  intros [Hh Hl]. unfold update_castling. destruct (negb _); [split; assumption|].
  split; rewrite ?compute_hash_split in *; proj_simpl; [rewrite Hh; xor_solve | exact Hl].
Qed.

Lemma switch_colours_hash_ok B :
  hash_ok ph ch eh sh B -> hash_ok ph ch eh sh (switch_colours sh B).
Proof.
  intros [Hh Hl]. unfold switch_colours.
  split; rewrite ?compute_hash_split in *; proj_simpl; [rewrite Hh | exact Hl].
  destruct (next_move_colour B); cbn [negb Z.b2z]; rewrite ?Z.mul_1_l, ?Z.mul_0_l; xor_solve.
Qed.

Lemma set_fifty_hash_ok f B :
  hash_ok ph ch eh sh B -> hash_ok ph ch eh sh (set_fifty f B).
Proof. intros [Hh Hl]. split; rewrite ?compute_hash_split in *; proj_simpl; assumption. Qed.
Lemma set_half_hash_ok h B :
  hash_ok ph ch eh sh B -> hash_ok ph ch eh sh (set_half h B).
Proof. intros [Hh Hl]. split; rewrite ?compute_hash_split in *; proj_simpl; assumption. Qed.
Lemma set_history_hash_ok hs B :
  hash_ok ph ch eh sh B -> hash_ok ph ch eh sh (set_history hs B).
Proof. intros [Hh Hl]. split; rewrite ?compute_hash_split in *; proj_simpl; assumption. Qed.

Ltac hash_base :=
  repeat match goal with
  | |- hash_ok _ _ _ _ (set_en_passant _ _ _) => apply set_en_passant_hash_ok
  | |- hash_ok _ _ _ _ (set_castle_state _ _ _) => apply set_castle_state_hash_ok
  | |- hash_ok _ _ _ _ (update_castling _ _ _ _) => apply update_castling_hash_ok
  | |- hash_ok _ _ _ _ (switch_colours _ _) => apply switch_colours_hash_ok
  | |- hash_ok _ _ _ _ (set_fifty _ _) => apply set_fifty_hash_ok
  | |- hash_ok _ _ _ _ (set_half _ _) => apply set_half_hash_ok
  | |- hash_ok _ _ _ _ (set_history _ _) => apply set_history_hash_ok
  end; assumption.

Ltac hash_chain :=
  repeat match goal with
  | H : _ ≫= _ = Some _ |- _ => apply bind_Some in H as (? & ? & H)
  | H : Some _ = Some _ |- _ => injection H as H; subst
  | H : remove_piece _ _ _ = Some _ |- _ => apply remove_piece_hash_ok in H; [|hash_base]
  | H : add_piece _ _ _ _ = Some _ |- _ => apply add_piece_hash_ok in H; [|hash_base]
  | H : move_piece _ _ _ _ = Some _ |- _ => apply move_piece_hash_ok in H; [|hash_base]
  end.

Lemma make_motion_hash_ok m B B' :
  make_motion ph ch eh m B = Some B' -> hash_ok ph ch eh sh B -> hash_ok ph ch eh sh B'.
Proof.
  unfold make_motion. intros H HB.
  destruct (move_promoted m).
  - repeat case_match; hash_chain; hash_base.
  - destruct (move_castled m).
    + repeat case_match; hash_chain; hash_base.
    + destruct (move_flag m); (destruct (decide _) as [Hd|Hd]; [try (exfalso; discriminate Hd)|]);
        try destruct (Bool.eqb _ _); hash_chain; hash_base.
Qed.

Lemma unmake_motion_hash_ok m B B' :
  unmake_motion ph m B = Some B' -> hash_ok ph ch eh sh B -> hash_ok ph ch eh sh B'.
Proof.
  unfold unmake_motion. intros H HB.
  destruct (move_promoted m).
  - destruct (move_captured m); hash_chain; hash_base.
  - destruct (move_castled m).
    + destruct (Bool.eqb _ _); destruct (decide _); hash_chain; hash_base.
    + apply bind_Some in H as (B1 & HM & H). apply move_piece_hash_ok in HM; [|exact HB].
      destruct (move_captured m); [|injection H as <-; exact HM].
      apply add_piece_hash_ok in H; [exact H | exact HM].
Qed.

Lemma make_move_hash_ok m B B' valid :
  make_move ph ch eh sh m B = Some (B', valid) ->
  hash_ok ph ch eh sh B -> hash_ok ph ch eh sh B'.
Proof.
  unfold make_move. intros H HB. apply bind_Some in H as (B1 & HM & H).
  injection H as <- _. apply make_motion_hash_ok in HM; [|hash_base].
  destruct (_ || _); hash_base.
Qed.

Lemma unmake_move_hash_ok B B' :
  unmake_move ph ch eh sh B = Some B' -> hash_ok ph ch eh sh B -> hash_ok ph ch eh sh B'.
Proof.
  unfold unmake_move. intros H HB. destruct (history B) as [|e hs]; [discriminate|].
  destruct (_ =? 0); [discriminate|]. apply bind_Some in H as (B1 & HM & H).
  destruct (_ =? _); [|discriminate]. injection H as <-.
  apply unmake_motion_hash_ok in HM; [exact HM|]. hash_base.
Qed.

Lemma run_hash_ok cs B B' :
  run ph ch eh sh cs B = Some B' -> hash_ok ph ch eh sh B -> hash_ok ph ch eh sh B'.
Proof.
  revert B. induction cs as [|c cs IH]; intros B H HB; cbn in H.
  - injection H as <-. exact HB.
  - apply bind_Some in H as (B1 & HS & H). apply (IH B1 H).
    destruct c; cbn in HS.
    + apply bind_Some in HS as ([B2 v] & HM & HS). injection HS as <-.
      exact (make_move_hash_ok _ _ _ _ HM HB).
    + exact (unmake_move_hash_ok _ _ HS HB).
Qed.

Lemma fold_insert_length (l : list Z) (f : Z -> nat) (v : Z) (ps : list Z) :
  length (fold_left (fun ps i => <[f i := v]> ps) l ps) = length ps.
Proof.
  revert ps. induction l as [|x l IH]; intros ps; cbn; [reflexivity|].
  rewrite IH. apply length_insert.
Qed.

Lemma parse_placement_length s i ps pos i' ps' pos' s' :
  parse_placement s i ps pos = Some (i', ps', pos', s') -> length ps' = length ps.
Proof.
  revert i ps pos. induction s as [|c s IH]; intros i ps pos H; cbn in H; [discriminate|].
  repeat case_match; try discriminate;
    repeat match goal with
    | H : Some _ = Some _ |- _ => injection H as <- <- <- <-; reflexivity
    | H : parse_placement _ _ _ _ = Some _ |- _ => apply IH in H; rewrite H
    end;
    rewrite ?fold_insert_length, ?length_insert; reflexivity.
Qed.

Lemma good_bind {A} (m : option A) (k : A -> option board) :
  (forall x B, k x = Some B -> hash_ok ph ch eh sh B) ->
  forall B, m ≫= k = Some B -> hash_ok ph ch eh sh B.
Proof. intros Hk B (x & _ & H)%bind_Some. exact (Hk x B H). Qed.

Lemma good_if (c : bool) (a b : option board) :
  (forall B, a = Some B -> hash_ok ph ch eh sh B) ->
  (forall B, b = Some B -> hash_ok ph ch eh sh B) ->
  forall B, (if c then a else b) = Some B -> hash_ok ph ch eh sh B.
Proof. destruct c; auto. Qed.

Lemma good_none : forall B, (None : option board) = Some B -> hash_ok ph ch eh sh B.
Proof. discriminate. Qed.

Lemma good_final (X : board) :
  length (pieces X) = 120%nat ->
  forall B, Some (set_hash (compute_hash ph ch eh sh X) X) = Some B -> hash_ok ph ch eh sh B.
Proof.
  intros Hl B [= <-]. split; [|exact Hl].
  rewrite !compute_hash_split. reflexivity.
Qed.

Lemma board_of_fen_hash_ok s B :
  board_of_fen ph ch eh sh s = Some B -> hash_ok ph ch eh sh B.
Proof.
  unfold board_of_fen. intros H.
  destruct (parse_placement _ _ _ _) as [[[[sq ps] pos] rest]|] eqn:Hp; [|discriminate].
  apply parse_placement_length in Hp. rewrite repeat_length in Hp. cbn in H.
  revert B H.
  repeat first
    [ apply good_none
    | apply good_final; exact Hp
    | apply good_if
    | apply good_bind;
      match goal with
      | |- forall x : _ * _, _ => intros [? ?]
      | |- forall x, _ => intros ?
      end; cbv beta iota zeta ].
Qed.

(** C2: after FEN construction and any sequence of [make_move] and
    [unmake_move] calls, the stored hash equals [compute_hash], the XOR of
    [piece_hash] over the occupied squares, of [castle_hash] of the state,
    of [enpas_hash] of the target and of [side_hash] when black is to
    move. The tables are assumed zero on [INVALID_PIECE] (what
    [compute_hash] asserts) and outside the 120-cell array and at its
    cell 0 (no piece can stand there). *)
Theorem hash_matches_recomputation (s : string) (cs : list call) (B0 B : board) :
  board_of_fen ph ch eh sh s = Some B0 ->
  run ph ch eh sh cs B0 = Some B ->
  hash B = compute_hash ph ch eh sh B.
Proof.
  intros Hf Hr.
  exact (hash_ok_hash _ _ _ _ _ (run_hash_ok cs B0 B Hr (board_of_fen_hash_ok s B0 Hf))).
Qed.

End HashInv.

Lemma demo_piece_hash_invalid sq : demo_piece_hash sq INVALID_PIECE = 0.
Proof. unfold demo_piece_hash. rewrite andb_false_r. reflexivity. Qed.

Lemma demo_piece_hash_off sq p : sq <= 0 \/ 120 <= sq -> demo_piece_hash sq p = 0.
Proof.
  intros H. unfold demo_piece_hash, valid_square.
  destruct H as [H|H].
  - rewrite (proj2 (Z.leb_gt 21 sq)) by lia. reflexivity.
  - rewrite (proj2 (Z.leb_gt sq 98)) by lia. rewrite andb_false_r. reflexivity.
Qed.

Lemma hash_matches_recomputation_witness :
  let B0 := demo_board startFEN in
  let B := demo_run (concat (repeat knight_shuffle 19)) B0 in
  board_of_fen demo_piece_hash demo_castle_hash demo_enpas_hash demo_side_hash startFEN
    = Some B0
  /\ run demo_piece_hash demo_castle_hash demo_enpas_hash demo_side_hash
       (concat (repeat knight_shuffle 19)) B0 = Some B
  /\ hash B = compute_hash demo_piece_hash demo_castle_hash demo_enpas_hash demo_side_hash B.
Proof.
  intros B0 B.
  assert (H1 : board_of_fen demo_piece_hash demo_castle_hash demo_enpas_hash demo_side_hash
                 startFEN = Some B0) by (vm_compute; reflexivity).
  assert (H2 : run demo_piece_hash demo_castle_hash demo_enpas_hash demo_side_hash
                 (concat (repeat knight_shuffle 19)) B0 = Some B) by (vm_compute; reflexivity).
  split; [exact H1|]. split; [exact H2|].
  exact (hash_matches_recomputation demo_piece_hash demo_castle_hash demo_enpas_hash
           demo_side_hash demo_piece_hash_invalid demo_piece_hash_off startFEN
           (concat (repeat knight_shuffle 19)) B0 B H1 H2).
Defined.

(* ------------------------------------------------------------------ *)
(** ** The en-passant target *)


Section FenWalk.
Variable Q : board -> Prop.
Lemma fen_bind {A} (m : option A) (k : A -> option board) :
  (forall x, m = Some x -> forall B, k x = Some B -> Q B) ->
  forall B, m ≫= k = Some B -> Q B.
Proof. intros Hk B (x & Hx & H)%bind_Some. exact (Hk x Hx B H). Qed.
Lemma fen_if (c : bool) (a b : option board) :
  (c = true -> forall B, a = Some B -> Q B) ->
  (c = false -> forall B, b = Some B -> Q B) ->
  forall B, (if c then a else b) = Some B -> Q B.
Proof. destruct c; auto. Qed.
Lemma fen_none : forall B, (None : option board) = Some B -> Q B.
Proof. discriminate. Qed.
End FenWalk.

Ltac fen_walk :=
  repeat first
    [ apply fen_none
    | apply fen_if; intros ?
    | apply fen_bind;
      match goal with
      | |- forall x : _ * _, _ => intros [? ?] ?
      | |- forall x, _ => intros ? ?
      end; cbv beta iota zeta ].

Lemma board_of_fen_ep ph ch eh sh s B :
  board_of_fen ph ch eh sh s = Some B ->
  en_passant B = INVALID_SQUARE
  \/ ((piece_at B (en_passant B - 1) = pawn_of (next_move_colour B)
       \/ piece_at B (en_passant B + 1) = pawn_of (next_move_colour B))
      /\ exists col, en_passant B = get_square_120_rc (ep_rank (next_move_colour B)) col).
Proof.
  unfold board_of_fen. intros H.
  destruct (parse_placement _ _ _ _) as [[[[sq ps] pos] rest]|] eqn:Hp; [|discriminate].
  cbn in H. revert B H. fen_walk.
  all: intros B [= <-]; cbn [set_hash en_passant pieces next_move_colour]; unfold piece_at;
       cbn [pieces].
  cbn [set_hash pieces en_passant next_move_colour].
  match goal with
  | H : (if _ then Some (INVALID_SQUARE, _) else _) = Some _ |- _ => clear - H; revert H
  end.
  destruct (peek (drop 1 l) =? "-")%char; [intros [= <- _]; left; reflexivity|].
  destruct (peek (drop 1 rest) =? "w")%char; cbn [Bool.eqb WHITE BLACK andb negb pawn_of ep_rank].
  - destruct (_ - 49 =? RANK_6) eqn:Hr; cbn [negb]; [|discriminate].
    apply Z.eqb_eq in Hr. rewrite <- Hr.
    destruct (negb _ && negb _) eqn:E; intros [= <- _]; [left; reflexivity|right].
    apply andb_false_iff in E. rewrite !negb_false_iff, !Z.eqb_eq in E.
    split; [exact E | eexists; reflexivity].
  - destruct (_ - 49 =? RANK_3) eqn:Hr; cbn [negb]; [|discriminate].
    apply Z.eqb_eq in Hr. rewrite <- Hr.
    destruct (negb _ && negb _) eqn:E; intros [= <- _]; [left; reflexivity|right].
    apply andb_false_iff in E. rewrite !negb_false_iff, !Z.eqb_eq in E.
    split; [exact E | eexists; reflexivity].
Qed.


Ltac bool_facts :=
  repeat match goal with
  | H : (_ && _) = true |- _ => apply andb_true_iff in H as [? ?]
  | H : negb _ = true |- _ => apply negb_true_iff in H
  | H : (_ =? _) = true |- _ => apply Z.eqb_eq in H
  end.

Tactic Notation "case_if" ident(E) :=
  match goal with |- In _ (if ?c then _ else _) -> _ => destruct c eqn:E end.

Ltac shape_simpl :=
  unfold gen_shape, from_ok, quiet_move, capture_move, double_move, en_passant_move,
    promote_move, promote_capture_move;
  cbn [move_flag move_from move_to moved_piece captured_piece promoted_piece].

Lemma slide_moves_shape fuel B side piece start cur offset m :
  In start (plist B piece) -> In m (slide_moves fuel B piece start cur offset) ->
  gen_shape B side m.
Proof.
  intros Hs. revert cur. induction fuel as [|f IH]; intros cur; cbn; [tauto|].
  case_if E1.
  - intros [<- | Hm]; [|exact (IH _ Hm)]. bool_facts. shape_simpl. tauto.
  - case_if E2; [|cbn; tauto]. intros [<- | []]. bool_facts. shape_simpl. tauto.
Qed.

Lemma slider_moves_shape B side piece offsets m :
  In m (slider_moves B piece offsets) -> gen_shape B side m.
Proof.
  intros (start & Hs & Hm)%in_flat_map. apply in_flat_map in Hm as (offset & _ & Hm).
  exact (slide_moves_shape _ _ _ _ _ _ _ _ Hs Hm).
Qed.

Lemma knight_moves_shape B side piece m :
  In m (knight_moves B piece) -> gen_shape B side m.
Proof.
  intros (start & Hs & Hm)%in_flat_map. apply in_flat_map in Hm as (offset & _ & Hm).
  unfold step_move in Hm. revert Hm.
  case_if E1.
  - intros [<- | []]. bool_facts. shape_simpl. tauto.
  - case_if E2; [|cbn; tauto]. intros [<- | []]. bool_facts. shape_simpl. tauto.
Qed.

Lemma king_moves_shape B side piece m :
  piece = WHITE_KING \/ piece = BLACK_KING -> In m (king_moves B piece) -> gen_shape B side m.
Proof.
  intros Hk (offset & _ & Hm)%in_flat_map. cbv zeta in Hm. revert Hm.
  case_if E0; [|cbn; tauto].
  case_if E1.
  - intros [<- | []]. bool_facts. shape_simpl. tauto.
  - case_if E2; [|cbn; tauto]. intros [<- | []]. bool_facts. shape_simpl. tauto.
Qed.

Lemma pawn_capture_shape B side pawn start capture pp m :
  In start (plist B pawn) -> (forall x, In x pp -> valid_piece (Z.lxor x 8) = true) ->
  In m (pawn_capture B pawn start capture pp) -> gen_shape B side m.
Proof.
  intros Hs Hpp. unfold pawn_capture.
  case_if E; [|cbn; tauto]. bool_facts.
  destruct (last_rank capture).
  - intros (x & <- & Hx)%in_map_iff. shape_simpl. auto 6.
  - intros [<- | []]. shape_simpl. tauto.
Qed.

Lemma pawn_moves_shape B side pp start m :
  In start (plist B (pawn_of side)) -> (forall x, In x pp -> valid_piece (Z.lxor x 8) = true) ->
  In m (pawn_moves B side (pawn_of side) pp start) -> gen_shape B side m.
Proof.
  intros Hs Hpp. unfold pawn_moves. cbv zeta. rewrite !in_app_iff. intros Hm.
  destruct Hm as [[Hm|Hm]|[Hm|[[Hm|Hm]|Hm]]].
  - revert Hm. case_if E; [|cbn; tauto]. intros [<- | []].
    bool_facts. destruct side; [discriminate|]. shape_simpl. cbn [Bool.eqb WHITE BLACK]. auto.
  - revert Hm. case_if E; [|cbn; tauto]. intros [<- | []].
    bool_facts. destruct side; [|discriminate]. shape_simpl. cbn [Bool.eqb WHITE BLACK]. auto.
  - revert Hm. case_if E; [|cbn; tauto]. bool_facts.
    destruct (last_rank _).
    + intros (x & <- & Hx)%in_map_iff. shape_simpl. auto.
    + intros [<- | []]. shape_simpl. auto.
  - exact (pawn_capture_shape _ _ _ _ _ _ _ Hs Hpp Hm).
  - exact (pawn_capture_shape _ _ _ _ _ _ _ Hs Hpp Hm).
  - revert Hm. case_if E0; [|cbn; tauto]. rewrite in_app_iff. bool_facts.
    apply Z.eqb_neq in E0.
    intros [Hm|Hm]; revert Hm; (case_if E; [|cbn; tauto]); intros [<- | []];
      bool_facts; shape_simpl; repeat split; try assumption; congruence.
Qed.

Lemma castle_moves_shape B side m :
  In m (castle_moves B side) -> gen_shape B side m.
Proof.
  intros Hm. pose proof (castle_moves_conditions B side m Hm) as Hc.
  pose proof Hc as Hc'. unfold castle_conditions in Hc'.
  assert (Hf : move_flag m = SHORT_CASTLE_MOVE \/ move_flag m = LONG_CASTLE_MOVE)
    by (destruct (Bool.eqb side WHITE); destruct Hc' as [[-> _]|[-> _]]; auto).
  unfold gen_shape. destruct Hf as [-> | ->]; exact Hc.
Qed.

Lemma promote_pieces_valid side x :
  In x [Z.lxor (queen_of side) 8; Z.lxor (rook_of side) 8;
        Z.lxor (bishop_of side) 8; Z.lxor (knight_of side) 8] ->
  valid_piece (Z.lxor x 8) = true.
Proof. destruct side; intros [<-|[<-|[<-|[<-|[]]]]]; reflexivity. Qed.

(** Every move of [generate_moves] has the shape its flag prescribes. *)
Lemma generate_moves_shape B side m :
  In m (generate_moves B side) -> gen_shape B side m.
Proof.
  unfold generate_moves. rewrite !in_app_iff.
  intros [Hm|[Hm|[Hm|[Hm|[Hm|[Hm|Hm]]]]]].
  - exact (slider_moves_shape _ _ _ _ _ Hm).
  - exact (slider_moves_shape _ _ _ _ _ Hm).
  - exact (slider_moves_shape _ _ _ _ _ Hm).
  - exact (knight_moves_shape _ _ _ _ Hm).
  - apply in_flat_map in Hm as (start & Hs & Hm).
    exact (pawn_moves_shape _ _ _ _ _ Hs (promote_pieces_valid side) Hm).
  - refine (king_moves_shape _ _ _ _ _ Hm).
    unfold king_of. destruct (Bool.eqb side WHITE); auto.
  - exact (castle_moves_shape _ _ _ Hm).
Qed.

Lemma make_motion_ep ph ch eh m B B' :
  make_motion ph ch eh m B = Some B' ->
  en_passant B' =
    (if decide (move_flag m = DOUBLE_PAWN_MOVE)
     then (if Bool.eqb (next_move_colour B) WHITE then move_to m - 10 else move_to m + 10)
     else INVALID_SQUARE).
Proof.
  unfold make_motion, update_castling, move_promoted, move_castled, move_captured.
  intros H. destruct (move_flag m); cbn iota in H;
    repeat case_match; try discriminate; frame_steps; cbn in *; congruence.
Qed.

Lemma unmake_motion_frame ph m B B' :
  unmake_motion ph m B = Some B' ->
  same_meta B B' /\ castle_state B' = castle_state B /\ en_passant B' = en_passant B.
Proof.
  unfold unmake_motion. intros H.
  repeat case_match; frame_steps; unfold same_meta in *; cbn in *; intuition congruence.
Qed.

Lemma board_of_fen_history ph ch eh sh s B :
  board_of_fen ph ch eh sh s = Some B -> history B = [].
Proof.
  unfold board_of_fen. intros H.
  destruct (parse_placement _ _ _ _) as [[[[sq ps] pos] rest]|] eqn:Hp; [|discriminate].
  cbn in H. revert B H. fen_walk. all: intros B [= <-]; reflexivity.
Qed.

Lemma double_push_rank side from :
  (if Bool.eqb side WHITE
   then get_square_row from = RANK_2 /\ from + 20 = from + 20
   else get_square_row from = RANK_7 /\ from - 20 = from - 20) ->
  get_square_row (if Bool.eqb side WHITE then from + 20 - 10 else from - 20 + 10)
  = ep_rank (negb side).
Proof.
  unfold get_square_row, ep_rank, RANK_2, RANK_7, RANK_3, RANK_6.
  destruct side; cbn [Bool.eqb WHITE negb]; intros [Hr _].
  - replace (from - 20 + 10) with (from + (-1) * 10) by lia.
    rewrite Z.div_add by lia. lia.
  - replace (from + 20 - 10) with (from + 1 * 10) by lia.
    rewrite Z.div_add by lia. lia.
Qed.

Lemma make_move_ep_inv ph ch eh sh m B B' v :
  In m (generate_moves B (next_move_colour B)) ->
  make_move ph ch eh sh m B = Some (B', v) ->
  ep_on_rank (next_move_colour B) (en_passant B) ->
  hist_ep_ok (next_move_colour B) (history B) ->
  ep_on_rank (next_move_colour B') (en_passant B')
  /\ hist_ep_ok (next_move_colour B') (history B').
Proof.
  intros Hg H He Hh. unfold make_move in H.
  apply bind_Some in H as (B1 & HM & H). injection H as <- _.
  pose proof (make_motion_ep _ _ _ _ _ _ HM) as Hep.
  apply make_motion_meta in HM as (Hhist & Hc & _). cbn in Hhist, Hc, Hep.
  assert (Hsw : forall X, next_move_colour (switch_colours sh X) = negb (next_move_colour X)
                /\ en_passant (switch_colours sh X) = en_passant X
                /\ history (switch_colours sh X) = history X) by (intros; repeat split).
  destruct (_ || _); cbn [switch_colours set_hash set_colour set_fifty next_move_colour
    en_passant history]; rewrite Hhist, Hc, Hep; cbn [hist_ep_ok];
    rewrite negb_involutive; (split; [|split; assumption]);
    (destruct (decide _) as [Hd|Hd]; [right | left; reflexivity]);
    pose proof (generate_moves_shape _ _ _ Hg) as Hs; unfold gen_shape in Hs;
    rewrite Hd in Hs; destruct Hs as (_ & _ & Hs);
    destruct (Bool.eqb (next_move_colour B) WHITE) eqn:Hw;
    (destruct Hs as [Hr Ht]; rewrite Ht;
     pose proof (double_push_rank (next_move_colour B) (move_from m)) as Hdp;
     rewrite Hw in Hdp; apply Hdp; split; [exact Hr | reflexivity]).
Qed.

Lemma unmake_move_ep_inv ph ch eh sh B B' :
  unmake_move ph ch eh sh B = Some B' ->
  hist_ep_ok (next_move_colour B) (history B) ->
  ep_on_rank (next_move_colour B') (en_passant B')
  /\ hist_ep_ok (next_move_colour B') (history B').
Proof.
  unfold unmake_move. intros H Hh. destruct (history B) as [|e hs]; [discriminate|].
  destruct (_ =? 0); [discriminate|]. apply bind_Some in H as (B1 & HM & H).
  destruct (_ =? _); [|discriminate]. injection H as <-.
  apply unmake_motion_frame in HM as ((Hhist & Hc & _) & _ & Hep).
  rewrite Hhist, Hc, Hep. exact Hh.
Qed.

Lemma reachable_ep_inv ph ch eh sh B :
  reachable ph ch eh sh B ->
  ep_on_rank (next_move_colour B) (en_passant B)
  /\ hist_ep_ok (next_move_colour B) (history B).
Proof.
  induction 1 as [s B Hf He | B m B' v _ [He Hh] Hg Hm | B B' _ [He Hh] Hu].
  - split; [exact He|]. rewrite (board_of_fen_history _ _ _ _ _ _ Hf). exact I.
  - exact (make_move_ep_inv _ _ _ _ _ _ _ _ Hg Hm He Hh).
  - exact (unmake_move_ep_inv _ _ _ _ _ _ Hu Hh).
Qed.


(** X29: FEN construction leaves the en-passant target [INVALID_SQUARE],
    or sets it to [get_square_120_rc] of the rank of the side to move
    (rank 6 for white, rank 3 for black) and the file given, and keeps it
    only when a pawn of the side to move stands on [ep - 1] or [ep + 1];
    otherwise it is elided.  On every board reached from a FEN board whose
    target is [INVALID_SQUARE] or on that rank, by [make_move] of generated
    moves of the side to move and by [unmake_move], the target is
    [INVALID_SQUARE] or a cell on the rank of the side to move. *)
Theorem en_passant_target_invariant ph ch eh sh :
  (forall s B, board_of_fen ph ch eh sh s = Some B ->
     en_passant B = INVALID_SQUARE
     \/ ((piece_at B (en_passant B - 1) = pawn_of (next_move_colour B)
          \/ piece_at B (en_passant B + 1) = pawn_of (next_move_colour B))
         /\ exists col, en_passant B = get_square_120_rc (ep_rank (next_move_colour B)) col))
  /\ (forall B, reachable ph ch eh sh B -> ep_on_rank (next_move_colour B) (en_passant B)).
Proof.
  split.
  - exact (board_of_fen_ep ph ch eh sh).
  - intros B HB. exact (proj1 (reachable_ep_inv _ _ _ _ _ HB)).
Qed.

Lemma en_passant_target_invariant_witness :
  let s := "4k3/8/2P5/3p4/8/8/8/4K3 w - d6 0 1"%string in
  let m := double_move E2 E4 WHITE_PAWN in
  let B0 := demo_board startFEN in
  (en_passant (demo_board s) = D6 /\ piece_at (demo_board s) (D6 - 1) = WHITE_PAWN)
  /\ (en_passant (demo_board s) = INVALID_SQUARE
      \/ ((piece_at (demo_board s) (en_passant (demo_board s) - 1)
            = pawn_of (next_move_colour (demo_board s))
           \/ piece_at (demo_board s) (en_passant (demo_board s) + 1)
            = pawn_of (next_move_colour (demo_board s)))
          /\ exists col, en_passant (demo_board s)
               = get_square_120_rc (ep_rank (next_move_colour (demo_board s))) col))
  /\ ep_on_rank (next_move_colour (demo_make m B0)) (en_passant (demo_make m B0)).
Proof.
  intros s m B0.
  assert (Hs : board_of_fen demo_piece_hash demo_castle_hash demo_enpas_hash demo_side_hash s
               = Some (demo_board s)) by (vm_compute; reflexivity).
  assert (H0 : board_of_fen demo_piece_hash demo_castle_hash demo_enpas_hash demo_side_hash
                 startFEN = Some B0) by (vm_compute; reflexivity).
  assert (He0 : ep_on_rank (next_move_colour B0) (en_passant B0))
    by (left; vm_compute; reflexivity).
  assert (Hg : In m (generate_moves B0 (next_move_colour B0))) by (vm_compute; tauto).
  assert (Hm : make_move demo_piece_hash demo_castle_hash demo_enpas_hash demo_side_hash m B0
               = Some (demo_make m B0, true)) by (vm_compute; reflexivity).
  pose proof (en_passant_target_invariant demo_piece_hash demo_castle_hash demo_enpas_hash
                demo_side_hash) as [Hf Hr].
  split; [split; vm_compute; reflexivity|]. split.
  - exact (Hf s (demo_board s) Hs).
  - apply Hr. eapply reach_make; [|exact Hg|exact Hm]. eapply reach_fen; [exact H0|exact He0].
Defined.

(* ------------------------------------------------------------------ *)
(** ** Make followed by unmake *)

(** Counting the cells of a piece. *)
Lemma filter_split (f : Z -> bool) (l : list Z) (x : Z) :
  List.NoDup l -> In x l ->
  Permutation (List.filter f l)
    ((if f x then [x] else []) ++ List.filter (fun y => f y && negb (y =? x)) l).
Proof.
  induction l as [|y l IH]; intros Hnd Hx; [destruct Hx|].
  inversion Hnd as [|? ? Hy Hnd']; subst. cbn [List.filter].
  destruct (Z.eqb_spec y x) as [->|Hne].
  - rewrite andb_false_r.
    rewrite (filter_ext_in (fun y => f y && negb (y =? x)) f).
    + destruct (f x); reflexivity.
    + intros a Ha. destruct (Z.eqb_spec a x); [subst; contradiction|].
      rewrite andb_true_r. reflexivity.
  - destruct Hx as [Hx|Hx]; [congruence|]. rewrite andb_true_r.
    specialize (IH Hnd' Hx).
    destruct (f y); [|exact IH].
    rewrite IH. destruct (f x); cbn; [apply perm_swap | reflexivity].
Qed.

Lemma board_squares_nodup : List.NoDup board_squares.
Proof.
  unfold board_squares. apply Finite.Injective_map_NoDup; [|apply seq_NoDup].
  intros a b H. lia.
Qed.

Lemma in_board_squares (sq : Z) : In sq board_squares <-> 0 <= sq < 120.
Proof.
  unfold board_squares. rewrite in_map_iff. split.
  - intros (k & <- & Hk). apply in_seq in Hk. lia.
  - intros Hr. exists (Z.to_nat sq). split; [lia|]. apply in_seq. lia.
Qed.

Lemma squares_of_split (ps : list Z) (p : Z) (n : nat) :
  (n < 120)%nat ->
  Permutation (squares_of ps p)
    ((if valid_piece p && (ps !!! n =? p) then [Z.of_nat n] else []) ++ squares_except ps p n).
Proof.
  intros Hn. unfold squares_of, squares_except. destruct (valid_piece p); [|reflexivity].
  cbn [andb]. rewrite (filter_split _ _ (Z.of_nat n) board_squares_nodup)
    by (apply in_board_squares; lia).
  rewrite Nat2Z.id. reflexivity.
Qed.

Lemma squares_except_insert (ps : list Z) (p : Z) (n : nat) (b : Z) :
  squares_except (<[n:=b]> ps) p n = squares_except ps p n.
Proof.
  unfold squares_except. destruct (valid_piece p); [|reflexivity].
  apply filter_ext_in. intros a Ha. apply in_board_squares in Ha.
  destruct (Z.eqb_spec a (Z.of_nat n)) as [->|Hne]; [rewrite !andb_false_r; reflexivity|].
  rewrite list_lookup_total_insert_ne by lia. reflexivity.
Qed.

Lemma valid_piece_range (p : Z) : valid_piece p = true -> 1 <= p < 16.
Proof.
  unfold valid_piece. intros H.
  apply andb_true_iff in H as [H _]. apply andb_true_iff in H as [H H2].
  apply andb_true_iff in H as [H0 H1].
  apply Z.leb_le in H0, H2. apply Z.ltb_lt in H1.
  destruct (Z.eq_dec p 0) as [->|]; [unfold species in H2; rewrite Z.land_0_l in H2; lia | lia].
Qed.

Lemma lists_match_remove pos ps n p l' :
  length pos = 16%nat -> length ps = 120%nat -> lists_match pos ps -> (n < 120)%nat ->
  ps !!! n = p -> valid_piece p = true ->
  Permutation (pos !!! Z.to_nat p) (Z.of_nat n :: l') ->
  lists_match (<[Z.to_nat p := l']> pos) (<[n := INVALID_PIECE]> ps).
Proof.
  intros Hl Hlp Hm Hn Hp Hv Hperm p'. pose proof (valid_piece_range p Hv).
  rewrite (squares_of_split _ p' n Hn), squares_except_insert.
  rewrite list_lookup_total_insert_eq by lia.
  destruct (decide (Z.to_nat p' = Z.to_nat p)) as [E|E].
  - assert (p' = p) by (destruct (Z_lt_le_dec p' 0); lia). subst p'.
    rewrite list_lookup_total_insert_eq by lia.
    rewrite Hv. replace (INVALID_PIECE =? p) with false by (symmetry; apply Z.eqb_neq;
      unfold INVALID_PIECE; lia). cbn [andb app].
    specialize (Hm p). rewrite (squares_of_split ps p n Hn), Hp, Hv, Z.eqb_refl in Hm.
    cbn [andb app] in Hm.
    apply (Permutation_cons_inv (a := Z.of_nat n)). rewrite <- Hm, Hperm. reflexivity.
  - rewrite list_lookup_total_insert_ne by auto.
    specialize (Hm p'). rewrite (squares_of_split ps p' n Hn) in Hm. rewrite Hm.
    destruct (valid_piece p') eqn:Hv'; [|reflexivity]. pose proof (valid_piece_range p' Hv').
    rewrite Hp. replace (p =? p') with false by (symmetry; apply Z.eqb_neq; intros ->; auto).
    replace (INVALID_PIECE =? p') with false by (symmetry; apply Z.eqb_neq;
      unfold INVALID_PIECE; lia).
    reflexivity.
Qed.

Lemma lists_match_add pos ps n p l' :
  length pos = 16%nat -> length ps = 120%nat -> lists_match pos ps -> (n < 120)%nat ->
  ps !!! n = INVALID_PIECE -> valid_piece p = true ->
  Permutation l' (Z.of_nat n :: pos !!! Z.to_nat p) ->
  lists_match (<[Z.to_nat p := l']> pos) (<[n := p]> ps).
Proof.
  intros Hl Hlp Hm Hn Hp Hv Hperm p'. pose proof (valid_piece_range p Hv).
  rewrite (squares_of_split _ p' n Hn), squares_except_insert.
  rewrite list_lookup_total_insert_eq by lia.
  destruct (decide (Z.to_nat p' = Z.to_nat p)) as [E|E].
  - assert (p' = p) by (destruct (Z_lt_le_dec p' 0); lia). subst p'.
    rewrite list_lookup_total_insert_eq by lia.
    rewrite Hv, Z.eqb_refl. cbn [andb app].
    specialize (Hm p). rewrite (squares_of_split ps p n Hn), Hp, Hv in Hm.
    replace (INVALID_PIECE =? p) with false in Hm by (symmetry; apply Z.eqb_neq;
      unfold INVALID_PIECE; lia). cbn [andb app] in Hm.
    rewrite Hperm, Hm. reflexivity.
  - rewrite list_lookup_total_insert_ne by auto.
    specialize (Hm p'). rewrite (squares_of_split ps p' n Hn) in Hm. rewrite Hm.
    destruct (valid_piece p') eqn:Hv'; [|reflexivity]. pose proof (valid_piece_range p' Hv').
    rewrite Hp. replace (p =? p') with false by (symmetry; apply Z.eqb_neq; intros ->; auto).
    replace (INVALID_PIECE =? p') with false by (symmetry; apply Z.eqb_neq;
      unfold INVALID_PIECE; lia).
    reflexivity.
Qed.

Lemma lists_match_in pos ps p sq :
  lists_match pos ps ->
  In sq (pos !!! Z.to_nat p) <-> valid_piece p = true /\ 0 <= sq < 120 /\ ps !!! Z.to_nat sq = p.
Proof.
  intros Hm. split.
  - intros H. apply (Permutation_in _ (Hm p)) in H. unfold squares_of in H.
    destruct (valid_piece p); [|destruct H].
    apply filter_In in H as [H1 H2]. apply in_board_squares in H1. apply Z.eqb_eq in H2.
    auto.
  - intros (Hv & Hr & Hp). apply (Permutation_in _ (Permutation_sym (Hm p))).
    unfold squares_of. rewrite Hv. apply filter_In. split.
    + apply in_board_squares. exact Hr.
    + apply Z.eqb_eq. exact Hp.
Qed.

Lemma find_index_lookup x l i : find_index x l = Some i -> l !! i = Some x.
Proof.
  revert i. induction l as [|y l IH]; intros i; cbn; [discriminate|].
  destruct (Z.eqb_spec y x) as [->|]; [intros [= <-]; reflexivity|].
  destruct (find_index x l) as [j|]; cbn; [intros [= <-]; apply IH; reflexivity|discriminate].
Qed.

Lemma find_index_in x l : In x l -> exists i, find_index x l = Some i.
Proof.
  induction l as [|y l IH]; cbn; [tauto|]. intros H.
  destruct (Z.eqb_spec y x); [eauto|]. destruct H as [->|H]; [congruence|].
  destruct (IH H) as [i ->]. cbn. eauto.
Qed.

Lemma swap_remove_perm (l : list Z) (i : nat) (x : Z) :
  l !! i = Some x -> Permutation l (x :: swap_remove i l).
Proof.
  intros Hi. unfold swap_remove. pose proof (lookup_lt_Some _ _ _ Hi) as Hlt.
  destruct (lookup_lt_is_Some_2 l (length l - 1)) as [y Hy]; [lia|].
  rewrite (list_lookup_total_correct _ _ _ Hy).
  set (j := (length l - 1)%nat). set (l1 := <[i := y]> l).
  assert (Hk : <[j := x]> l1 = take j l1 ++ [x]).
  { assert (Hlen : length (<[j := x]> l1) = S j).
    { unfold l1, j. rewrite !length_insert. lia. }
    rewrite <- (take_ge (<[j := x]> l1) (S j)) by lia.
    rewrite (take_S_r _ j x) by (apply list_lookup_insert_eq; unfold l1, j;
      rewrite length_insert; lia).
    rewrite take_insert. rewrite decide_False by lia. reflexivity. }
  transitivity (<[j := x]> l1).
  - symmetry. apply Permutation_insert_swap; assumption.
  - rewrite Hk. rewrite Permutation_app_comm. reflexivity.
Qed.

Lemma list_delete_insert (l : list Z) (i : nat) (y : Z) : delete i (<[i := y]> l) = delete i l.
Proof. revert i. induction l as [|x l IH]; intros [|i]; cbn; [reflexivity..| f_equal; apply IH]. Qed.

Lemma pieces_inv_in B p sq :
  pieces_inv B -> In sq (plist B p) <-> valid_piece p = true /\ 0 <= sq < 120 /\ piece_at B sq = p.
Proof. intros [_ _ Hm]. apply lists_match_in. exact Hm. Qed.

Lemma pieces_inv_frame B B' :
  pieces B' = pieces B -> positions B' = positions B -> pieces_inv B -> pieces_inv B'.
Proof. intros E1 E2 [H1 H2 H3]. split; rewrite ?E1, ?E2; assumption. Qed.

Section Prims.
Variable ph : Z -> Z -> Z.

Lemma remove_piece_inv sq B B' :
  remove_piece ph sq B = Some B' -> pieces_inv B ->
  pieces_inv B' /\ pieces B' = <[Z.to_nat sq := INVALID_PIECE]> (pieces B).
Proof.
  intros H HB. pose proof HB as [H1 H2 H3]. unfold remove_piece in H.
  destruct (negb _) eqn:Hv; [discriminate|]. apply negb_false_iff in Hv.
  destruct (find_index _ _) as [i|] eqn:Hf; [|discriminate]. injection H as <-.
  apply find_index_lookup in Hf. pose proof (swap_remove_perm _ _ _ Hf) as Hp.
  apply list_elem_of_lookup_2, list_elem_of_In in Hf.
  apply (pieces_inv_in _ _ _ HB) in Hf as (_ & Hr & _).
  split; [|reflexivity]. split; cbn.
  - rewrite length_insert. exact H1.
  - rewrite length_insert. exact H2.
  - apply lists_match_remove; try assumption; [lia|reflexivity|].
    rewrite Z2Nat.id by lia. exact Hp.
Qed.

Lemma remove_piece_some sq B :
  pieces_inv B -> 0 <= sq < 120 -> valid_piece (piece_at B sq) = true ->
  exists B', remove_piece ph sq B = Some B'.
Proof.
  intros HB Hr Hv. unfold remove_piece. rewrite Hv. cbn [negb].
  destruct (find_index_in sq (plist B (piece_at B sq))) as [i ->];
    [apply (pieces_inv_in _ _ _ HB); auto|eauto].
Qed.

Lemma add_piece_inv sq p B B' :
  add_piece ph sq p B = Some B' -> pieces_inv B -> 0 <= sq < 120 ->
  pieces_inv B' /\ pieces B' = <[Z.to_nat sq := p]> (pieces B).
Proof.
  intros H [H1 H2 H3] Hr. unfold add_piece in H.
  destruct (negb (valid_piece p)) eqn:Hv; [discriminate|]. apply negb_false_iff in Hv.
  destruct (negb _) eqn:He; [discriminate|]. apply negb_false_iff, Z.eqb_eq in He.
  injection H as <-. split; [|reflexivity]. split; cbn.
  - rewrite length_insert. exact H1.
  - rewrite length_insert. exact H2.
  - apply lists_match_add; try assumption; [lia|].
    rewrite Z2Nat.id by lia. unfold plist. rewrite Permutation_app_comm. reflexivity.
Qed.

Lemma add_piece_some sq p B :
  valid_piece p = true -> piece_at B sq = INVALID_PIECE -> exists B', add_piece ph sq p B = Some B'.
Proof. intros Hv He. unfold add_piece. rewrite Hv, He. cbn. eauto. Qed.

Lemma move_piece_inv from to B B' :
  move_piece ph from to B = Some B' -> pieces_inv B -> 0 <= to < 120 ->
  pieces_inv B' /\
  pieces B' = <[Z.to_nat to := piece_at B from]> (<[Z.to_nat from := INVALID_PIECE]> (pieces B)).
Proof.
  intros H HB Hr. pose proof HB as [H1 H2 H3]. unfold move_piece in H.
  destruct (negb _) eqn:He; [discriminate|]. apply negb_false_iff, Z.eqb_eq in He.
  destruct (find_index _ _) as [i|] eqn:Hf; [|discriminate]. injection H as <-.
  apply find_index_lookup in Hf. pose proof Hf as Hi.
  apply list_elem_of_lookup_2, list_elem_of_In in Hf.
  apply (pieces_inv_in _ _ _ HB) in Hf as (Hv & Hfr & _).
  pose proof (valid_piece_range _ Hv).
  split; [|reflexivity]. split; cbn.
  - rewrite length_insert. exact H1.
  - rewrite !length_insert. exact H2.
  - rewrite <- (list_insert_insert_eq (positions B) (Z.to_nat (piece_at B from))
                 (<[i:=to]> (plist B (piece_at B from))) (delete i (plist B (piece_at B from)))).
    apply lists_match_add.
    + rewrite length_insert. exact H1.
    + rewrite length_insert. exact H2.
    + apply lists_match_remove; try assumption; [lia|reflexivity|].
      rewrite Z2Nat.id by lia. apply delete_Permutation. exact Hi.
    + lia.
    + apply lookup_insert_invalid. exact He.
    + exact Hv.
    + rewrite list_lookup_total_insert_eq by lia. rewrite Z2Nat.id by lia.
      rewrite (delete_Permutation _ i to) by (apply list_lookup_insert_eq;
        eapply lookup_lt_Some; exact Hi).
      rewrite list_delete_insert. reflexivity.
Qed.

Lemma move_piece_some from to B :
  pieces_inv B -> 0 <= from < 120 -> valid_piece (piece_at B from) = true ->
  piece_at B to = INVALID_PIECE -> exists B', move_piece ph from to B = Some B'.
Proof.
  intros HB Hr Hv He. unfold move_piece. rewrite He. cbn [Z.eqb negb].
  destruct (find_index_in from (plist B (piece_at B from))) as [i ->];
    [apply (pieces_inv_in _ _ _ HB); auto|eauto].
Qed.

End Prims.

Section Steps.
Variable ph : Z -> Z -> Z.

Lemma bind_Some_id (o : option board) : (x ← o; Some x) = o.
Proof. destruct o; reflexivity. Qed.

Lemma remove_step sq B (k : board -> option board) (Q : board -> Prop) :
  pieces_inv B -> 0 <= sq < 120 -> valid_piece (piece_at B sq) = true ->
  (forall B', pieces_inv B' -> pieces B' = <[Z.to_nat sq := INVALID_PIECE]> (pieces B) ->
     same_meta B B' -> castle_state B' = castle_state B -> en_passant B' = en_passant B ->
     exists X, k B' = Some X /\ Q X) ->
  exists X, (B' ← remove_piece ph sq B; k B') = Some X /\ Q X.
Proof.
  intros HB Hr Hv Hk. destruct (remove_piece_some ph sq B HB Hr Hv) as [B' HR].
  rewrite HR. cbn [mbind option_bind].
  destruct (remove_piece_inv ph sq B B' HR HB) as [HB' Hp].
  destruct (remove_piece_frame ph sq B B' HR) as (Hm & Hc & He). auto.
Qed.

Lemma add_step sq p B (k : board -> option board) (Q : board -> Prop) :
  pieces_inv B -> 0 <= sq < 120 -> valid_piece p = true -> piece_at B sq = INVALID_PIECE ->
  (forall B', pieces_inv B' -> pieces B' = <[Z.to_nat sq := p]> (pieces B) ->
     same_meta B B' -> castle_state B' = castle_state B -> en_passant B' = en_passant B ->
     exists X, k B' = Some X /\ Q X) ->
  exists X, (B' ← add_piece ph sq p B; k B') = Some X /\ Q X.
Proof.
  intros HB Hr Hv He Hk. destruct (add_piece_some ph sq p B Hv He) as [B' HR].
  rewrite HR. cbn [mbind option_bind].
  destruct (add_piece_inv ph sq p B B' HR HB Hr) as [HB' Hp].
  destruct (add_piece_frame ph sq p B B' HR) as (Hm & Hc & Hep). auto.
Qed.

Lemma move_step from to B (k : board -> option board) (Q : board -> Prop) :
  pieces_inv B -> 0 <= from < 120 -> 0 <= to < 120 ->
  valid_piece (piece_at B from) = true -> piece_at B to = INVALID_PIECE ->
  (forall B', pieces_inv B' ->
     pieces B' = <[Z.to_nat to := piece_at B from]> (<[Z.to_nat from := INVALID_PIECE]> (pieces B)) ->
     same_meta B B' -> castle_state B' = castle_state B -> en_passant B' = en_passant B ->
     exists X, k B' = Some X /\ Q X) ->
  exists X, (B' ← move_piece ph from to B; k B') = Some X /\ Q X.
Proof.
  intros HB Hr Hr' Hv He Hk. destruct (move_piece_some ph from to B HB Hr Hv He) as [B' HR].
  rewrite HR. cbn [mbind option_bind].
  destruct (move_piece_inv ph from to B B' HR HB Hr') as [HB' Hp].
  destruct (move_piece_frame ph from to B B' HR) as (Hm & Hc & Hep). auto.
Qed.

End Steps.

Lemma update_castling_pieces ch sq p B :
  pieces (update_castling ch sq p B) = pieces B /\ positions (update_castling ch sq p B) = positions B.
Proof. unfold update_castling. destruct (negb _); split; reflexivity. Qed.

Lemma list_eq_total (l1 l2 : list Z) :
  length l1 = length l2 -> (forall i, (i < length l2)%nat -> l1 !!! i = l2 !!! i) -> l1 = l2.
Proof.
  intros Hl H. apply list_eq. intros i.
  destruct (decide (i < length l2)%nat) as [Hi|Hi].
  - rewrite !list_lookup_lookup_total_lt by lia. f_equal. auto.
  - rewrite !lookup_ge_None_2 by lia. reflexivity.
Qed.

Lemma valid_square_range sq : valid_square sq = true -> 21 <= sq <= 98.
Proof. unfold valid_square. rewrite !andb_true_iff, !Z.leb_le. lia. Qed.

Lemma cells_distinct B a b p :
  piece_at B a = p -> valid_piece p = true -> piece_at B b = INVALID_PIECE ->
  Z.to_nat a <> Z.to_nat b.
Proof. unfold piece_at. intros Ha Hv Hb E. rewrite E, Hb in Ha. subst p. discriminate. Qed.

Lemma cells_distinct' B a b p q :
  piece_at B a = p -> piece_at B b = q -> p <> q -> Z.to_nat a <> Z.to_nat b.
Proof. unfold piece_at. intros Ha Hb Hpq E. rewrite E in Ha. congruence. Qed.

Ltac setter_simpl :=
  cbn [pieces positions next_move_colour en_passant castle_state set_en_passant set_ep
       set_hash set_castle_state set_castle] in *.

Ltac pieces_rw :=
  repeat match goal with H : pieces ?X = _ |- context [pieces ?X] => rewrite H end.

Ltac cells_simpl Hlen :=
  unfold piece_at in *; repeat (setter_simpl; pieces_rw);
  rewrite ?list_lookup_total_insert, ?length_insert, ?Hlen.

Ltac cell_solve :=
  repeat (case_decide; cbn iota); try lia; try assumption; try reflexivity; try congruence.

Ltac pieces_eq Hlen :=
  unfold piece_at in *; repeat (setter_simpl; pieces_rw);
  apply list_eq_total; [rewrite ?length_insert; reflexivity|];
  intros ?i ?Hi; rewrite ?list_lookup_total_insert, ?length_insert, ?Hlen in *;
  repeat (case_decide; cbn iota); try lia; try reflexivity;
  repeat match goal with H : ?a = ?j /\ _ |- _ => is_var j; destruct H as [<- _] end;
  unfold piece_at in *; congruence.

Lemma from_ok_in B m :
  plist B WHITE_KING <> [] -> plist B BLACK_KING <> [] -> from_ok B m ->
  In (move_from m) (plist B (moved_piece m)).
Proof.
  intros Hwk Hbk [H|[[Hk|Hk] ->]]; [exact H| |]; rewrite Hk.
  - destruct (plist B WHITE_KING) as [|z l]; [contradiction|]. cbn. left. reflexivity.
  - destruct (plist B BLACK_KING) as [|z l]; [contradiction|]. cbn. left. reflexivity.
Qed.

Lemma opposite_colours_facts a b :
  opposite_colours a b = true -> valid_piece a = true /\ valid_piece b = true /\ a <> b.
Proof.
  unfold opposite_colours. rewrite !andb_true_iff. intros [[Ha Hb] Hx].
  split; [exact Ha|]. split; [exact Hb|]. intros <-. rewrite xorb_nilpotent in Hx. discriminate.
Qed.

Lemma obind_assoc (o : option board) (f g : board -> option board) :
  (x ← (y ← o; f y); g x) = (y ← o; x ← f y; g x).
Proof. destruct o; reflexivity. Qed.

Ltac inv_of HP :=
  match type of HP with pieces_inv ?X =>
    apply (pieces_inv_frame X); [reflexivity|reflexivity|exact HP] end.

Ltac bind_final :=
  match goal with |- exists X, ?o = Some X /\ _ => rewrite <- (bind_Some_id o) end.

Ltac side_solve H := first [lia | cells_simpl H; cell_solve].

Ltac unmake_done Hlen :=
  intros ?C1 ?HC1 ?Hp _ _ _; eexists; split; [reflexivity|]; split; [|assumption];
  pieces_eq Hlen.

Ltac make_done U :=
  intros ?B1 ?HB1 ?Hp1 _ _ _; eexists; split; [reflexivity|];
  intros ?C ?HC1 ?HC2 ?HC3 ?HC4;
  repeat match goal with H : context [?f (update_castling ?a ?b ?c ?d)] |- _ =>
    first [ rewrite (proj1 (update_castling_pieces a b c d)) in H
          | rewrite (proj2 (update_castling_pieces a b c d)) in H ] end;
  setter_simpl;
  assert (U : pieces_inv C) by (eapply pieces_inv_frame; [eassumption|eassumption|eassumption]).

Lemma motion_roundtrip_quiet ph ch eh m B :
  pieces_inv B -> plist B WHITE_KING <> [] -> plist B BLACK_KING <> [] ->
  move_flag m = QUIET_MOVE -> gen_shape B (next_move_colour B) m ->
  roundtrip_motion ph ch eh m B.
Proof.
  intros HP Hwk Hbk Hf Hs. pose proof (inv_pieces _ HP) as Hlen.
  unfold gen_shape in Hs. rewrite Hf in Hs. destruct Hs as (Hfo & Hvt & Hte).
  apply (from_ok_in _ _ Hwk Hbk), (pieces_inv_in _ _ _ HP) in Hfo as (Hv & Hfr & Hfp).
  apply valid_square_range in Hvt.
  pose proof (cells_distinct _ _ _ _ Hfp Hv Hte) as Hne.
  unfold roundtrip_motion, make_motion, unmake_motion, move_promoted, move_castled, move_captured.
  rewrite Hf. cbv zeta iota beta. rewrite decide_False by discriminate.
  apply move_step; [inv_of HP|side_solve Hlen..|].
  make_done HPC.
  apply move_step; [exact HPC|side_solve Hlen..|].
  unmake_done Hlen.
Qed.

Lemma motion_roundtrip_capture ph ch eh m B :
  pieces_inv B -> plist B WHITE_KING <> [] -> plist B BLACK_KING <> [] ->
  move_flag m = CAPTURE_MOVE -> gen_shape B (next_move_colour B) m ->
  roundtrip_motion ph ch eh m B.
Proof.
  intros HP Hwk Hbk Hf Hs. pose proof (inv_pieces _ HP) as Hlen.
  unfold gen_shape in Hs. rewrite Hf in Hs. destruct Hs as (Hfo & Hvt & Hcap & Hopp).
  apply (from_ok_in _ _ Hwk Hbk), (pieces_inv_in _ _ _ HP) in Hfo as (Hv & Hfr & Hfp).
  apply valid_square_range in Hvt.
  apply opposite_colours_facts in Hopp as (_ & Hvc & Hmc).
  pose proof (cells_distinct' _ _ _ _ _ Hfp eq_refl Hmc) as Hne.
  rewrite <- Hcap in Hvc.
  unfold roundtrip_motion, make_motion, unmake_motion, move_promoted, move_castled, move_captured.
  rewrite Hf. cbv zeta iota beta. rewrite decide_False by discriminate.
  apply remove_step; [inv_of HP|side_solve Hlen..|].
  intros B0 HB0 Hp0 _ _ _.
  apply move_step; [exact HB0|side_solve Hlen..|].
  make_done HPC.
  apply move_step; [exact HPC|side_solve Hlen..|].
  intros C1 HC1' Hp _ _ _. rewrite decide_True by reflexivity.
  bind_final. apply add_step; [exact HC1'|side_solve Hlen..|].
  unmake_done Hlen.
Qed.

Lemma motion_roundtrip_double ph ch eh m B :
  pieces_inv B -> move_flag m = DOUBLE_PAWN_MOVE -> gen_shape B (next_move_colour B) m ->
  roundtrip_motion ph ch eh m B.
Proof.
  intros HP Hf Hs. pose proof (inv_pieces _ HP) as Hlen.
  unfold gen_shape in Hs. rewrite Hf in Hs. destruct Hs as (Hin & Hte & Hrow).
  apply (pieces_inv_in _ _ _ HP) in Hin as (Hv & Hfr & Hfp).
  assert (Hvt : 0 <= move_to m < 120).
  { unfold get_square_row, RANK_2, RANK_7 in Hrow.
    pose proof (Z.div_mod (move_from m) 10 ltac:(lia)).
    pose proof (Z.mod_pos_bound (move_from m) 10 ltac:(lia)).
    destruct (Bool.eqb _ _); destruct Hrow as [Hr ->]; lia. }
  pose proof (cells_distinct _ _ _ _ Hfp Hv Hte) as Hne.
  unfold roundtrip_motion, make_motion, unmake_motion, move_promoted, move_castled, move_captured.
  rewrite Hf. cbv zeta iota beta. rewrite decide_True by reflexivity.
  bind_final. apply move_step; [inv_of HP|side_solve Hlen..|].
  make_done HPC.
  apply move_step; [exact HPC|side_solve Hlen..|].
  unmake_done Hlen.
Qed.

Lemma lxor_pawn_of side : Z.lxor (pawn_of side) 8 = pawn_of (negb side).
Proof. destruct side; reflexivity. Qed.

Lemma pawn_of_valid side : valid_piece (pawn_of side) = true.
Proof. destruct side; reflexivity. Qed.

Lemma pawn_of_neq side : pawn_of side <> pawn_of (negb side).
Proof. destruct side; discriminate. Qed.

Lemma motion_roundtrip_ep ph ch eh m B :
  pieces_inv B -> ep_pawn B ->
  move_flag m = EN_PASSANT_MOVE -> gen_shape B (next_move_colour B) m ->
  roundtrip_motion ph ch eh m B.
Proof.
  intros HP Hep Hf Hs. pose proof (inv_pieces _ HP) as Hlen.
  unfold gen_shape in Hs. rewrite Hf in Hs.
  destruct Hs as (Hin & Hmv & Hto & Hnv & Hte & Hcap).
  destruct Hep as [Hep|[Hvs Hpe]]; [contradiction|].
  apply (pieces_inv_in _ _ _ HP) in Hin as (Hv & Hfr & Hfp).
  apply valid_square_range in Hvs.
  rewrite Hmv, lxor_pawn_of in Hcap. rewrite Hmv in Hfp.
  pose proof (cells_distinct _ _ _ _ Hfp (pawn_of_valid _) Hte) as Hne.
  pose proof (cells_distinct' _ _ _ _ _ Hfp Hpe (pawn_of_neq _)) as Hne'.
  pose proof (pawn_of_valid (negb (next_move_colour B))) as Hvc.
  unfold roundtrip_motion, make_motion, unmake_motion, move_promoted, move_castled, move_captured.
  rewrite Hf. cbv zeta iota beta. rewrite decide_False by discriminate.
  unfold ep_square in *. rewrite <- Hto in Hpe, Hne', Hvs.
  revert Hpe Hne'. destruct (Bool.eqb (next_move_colour B) WHITE) eqn:Hc; intros Hpe Hne'.
  all: apply remove_step; [inv_of HP|side_solve Hlen..|].
  all: intros B0 HB0 Hp0 _ _ _.
  all: bind_final; apply move_step; [exact HB0|side_solve Hlen..|].
  all: intros B1 HB1 Hp1 _ _ _; eexists; split; [reflexivity|].
  all: intros C HC1 HC2 HC3 HC4.
  all: assert (HPC : pieces_inv C) by (eapply pieces_inv_frame; [eassumption|eassumption|eassumption]).
  all: apply move_step; [exact HPC|side_solve Hlen..|].
  all: intros C1 HC1' Hp Hm Hcs Hep1; rewrite decide_False by discriminate.
  all: rewrite HC3, Hc, Hep1, HC4, <- Hto, Hcap.
  all: bind_final; apply add_step; [exact HC1'|side_solve Hlen..|].
  all: unmake_done Hlen.
Qed.

Lemma motion_roundtrip_promote ph ch eh m B :
  pieces_inv B -> move_flag m = PROMOTE_MOVE -> gen_shape B (next_move_colour B) m ->
  roundtrip_motion ph ch eh m B.
Proof.
  intros HP Hf Hs. pose proof (inv_pieces _ HP) as Hlen.
  unfold gen_shape in Hs. rewrite Hf in Hs. destruct Hs as (Hin & Hvt & Hte & Hvp).
  apply (pieces_inv_in _ _ _ HP) in Hin as (Hv & Hfr & Hfp).
  apply valid_square_range in Hvt.
  pose proof (cells_distinct _ _ _ _ Hfp Hv Hte) as Hne.
  unfold roundtrip_motion, make_motion, unmake_motion, move_promoted, move_castled, move_captured.
  rewrite Hf. cbv zeta iota beta. cbn [mbind option_bind].
  apply add_step; [exact HP|side_solve Hlen..|].
  intros B0 HB0 Hp0 _ _ _.
  apply remove_step; [exact HB0|side_solve Hlen..|].
  make_done HPC.
  apply remove_step; [exact HPC|side_solve Hlen..|].
  intros C0 HC0 Hq0 _ _ _.
  apply add_step; [exact HC0|side_solve Hlen..|].
  unmake_done Hlen.
Qed.

Lemma motion_roundtrip_promote_capture ph ch eh m B :
  pieces_inv B -> move_flag m = PROMOTE_CAPTURE_MOVE -> gen_shape B (next_move_colour B) m ->
  roundtrip_motion ph ch eh m B.
Proof.
  intros HP Hf Hs. pose proof (inv_pieces _ HP) as Hlen.
  unfold gen_shape in Hs. rewrite Hf in Hs. destruct Hs as (Hin & Hvt & Hcap & Hopp & Hvp).
  apply (pieces_inv_in _ _ _ HP) in Hin as (Hv & Hfr & Hfp).
  apply valid_square_range in Hvt.
  apply opposite_colours_facts in Hopp as (_ & Hvc & Hmc).
  pose proof (cells_distinct' _ _ _ _ _ Hfp eq_refl Hmc) as Hne.
  rewrite <- Hcap in Hvc.
  unfold roundtrip_motion, make_motion, unmake_motion, move_promoted, move_castled, move_captured.
  rewrite Hf. cbv zeta iota beta.
  apply remove_step; [exact HP|side_solve Hlen..|].
  intros B0 HB0 Hp0 _ _ _.
  apply add_step; [exact HB0|side_solve Hlen..|].
  intros B1 HB1 Hp1 _ _ _.
  apply remove_step; [exact HB1|side_solve Hlen..|].
  make_done HPC.
  apply remove_step; [exact HPC|side_solve Hlen..|].
  intros C0 HC0 Hq0 _ _ _.
  apply add_step; [exact HC0|side_solve Hlen..|].
  intros C1 HC1' Hq1 _ _ _.
  bind_final. apply add_step; [exact HC1'|side_solve Hlen..|].
  unmake_done Hlen.
Qed.

Ltac castle_case Hlen :=
  rewrite obind_assoc; apply move_step; [assumption|side_solve Hlen..|];
  intros ?B0 ?HB0 ?Hp0 _ _ _; rewrite obind_assoc; apply move_step; [assumption|side_solve Hlen..|];
  cbn [mbind option_bind]; let U := fresh "HPC" in make_done U;
  match goal with H : next_move_colour _ = _ |- _ => rewrite H end; cbn [Bool.eqb WHITE BLACK];
  apply move_step; [assumption|side_solve Hlen..|];
  intros ?C0 ?HC0 ?Hq0 _ _ _; bind_final; apply move_step; [assumption|side_solve Hlen..|];
  unmake_done Hlen.

Lemma motion_roundtrip_castle ph ch eh m B :
  pieces_inv B -> castle_homes B ->
  (move_flag m = SHORT_CASTLE_MOVE \/ move_flag m = LONG_CASTLE_MOVE) ->
  gen_shape B (next_move_colour B) m ->
  roundtrip_motion ph ch eh m B.
Proof.
  intros HP Hh Hf Hs. pose proof (inv_pieces _ HP) as Hlen.
  assert (Hc : castle_conditions B (next_move_colour B) m)
    by (unfold gen_shape in Hs; destruct Hf as [Hf|Hf]; rewrite Hf in Hs; exact Hs).
  clear Hs Hf.
  assert (valid_piece WHITE_KING = true /\ valid_piece WHITE_ROOK = true
          /\ valid_piece BLACK_KING = true /\ valid_piece BLACK_ROOK = true)
    as (Hv1 & Hv2 & Hv3 & Hv4) by (repeat split).
  unfold castle_conditions, castle_homes in *.
  unfold roundtrip_motion, make_motion, unmake_motion, move_promoted, move_castled, move_captured.
  destruct (next_move_colour B) eqn:Hcol; cbn [Bool.eqb WHITE BLACK] in Hc;
    destruct Hc as [(-> & Hbit & _ & _ & Ha & Hb) | (-> & Hbit & _ & _ & Ha & Hb & Hd)];
    cbn [castle_move move_flag move_from move_to moved_piece captured_piece promoted_piece];
    cbv zeta iota beta; cbn [Bool.eqb WHITE BLACK];
    (rewrite decide_True by reflexivity) || (rewrite decide_False by discriminate);
    destruct Hh as (Hh1 & Hh2 & Hh3 & Hh4);
    unfold E1, F1, G1, H1, A1, B1, C1, D1, E8, F8, G8, H8, A8, B8, C8, D8 in *.
  - destruct (Hh3 Hbit) as [Hk Hr]. castle_case Hlen.
  - destruct (Hh4 Hbit) as [Hk Hr]. castle_case Hlen.
  - destruct (Hh1 Hbit) as [Hk Hr]. castle_case Hlen.
  - destruct (Hh2 Hbit) as [Hk Hr]. castle_case Hlen.
Qed.

Lemma motion_roundtrip ph ch eh m B :
  pieces_inv B -> plist B WHITE_KING <> [] -> plist B BLACK_KING <> [] ->
  castle_homes B -> ep_pawn B -> gen_shape B (next_move_colour B) m ->
  roundtrip_motion ph ch eh m B.
Proof.
  intros HP Hwk Hbk Hh Hep Hs. destruct (move_flag m) eqn:Hf.
  all: first [ exact (motion_roundtrip_quiet ph ch eh m B HP Hwk Hbk Hf Hs)
             | exact (motion_roundtrip_capture ph ch eh m B HP Hwk Hbk Hf Hs)
             | exact (motion_roundtrip_double ph ch eh m B HP Hf Hs)
             | exact (motion_roundtrip_ep ph ch eh m B HP Hep Hf Hs)
             | exact (motion_roundtrip_promote ph ch eh m B HP Hf Hs)
             | exact (motion_roundtrip_promote_capture ph ch eh m B HP Hf Hs)
             | exact (motion_roundtrip_castle ph ch eh m B HP Hh (or_introl Hf) Hs)
             | exact (motion_roundtrip_castle ph ch eh m B HP Hh (or_intror Hf) Hs) ].
Qed.

Lemma lists_match_perm pos1 ps1 pos2 ps2 p :
  lists_match pos1 ps1 -> lists_match pos2 ps2 -> ps1 = ps2 ->
  Permutation (pos1 !!! Z.to_nat p) (pos2 !!! Z.to_nat p).
Proof. intros H1 H2 <-. transitivity (squares_of ps1 p); [exact (H1 p) | symmetry; exact (H2 p)]. Qed.

Section Roundtrip.
Variable ph : Z -> Z -> Z.
Variable ch : Z -> Z.
Variable eh : Z -> Z.
Variable sh : Z.
Hypothesis Hinv : forall sq, ph sq INVALID_PIECE = 0.
Hypothesis Hoff : forall sq p, sq <= 0 \/ 120 <= sq -> ph sq p = 0.

(** X28: on a well-formed board ([board_wf]) and for every move the
    generator produces for the side to move, [make_move] succeeds and
    [unmake_move] on its result succeeds and gives back the piece array,
    each piece list up to the order of its entries (hence the counts), the
    castle state, the en-passant target, both clocks, the side to move, the
    hash bit for bit and the history.  The tables are assumed zero on
    [INVALID_PIECE] and off the array. *)
Theorem make_unmake_restores (B : board) (m : move_t) :
  board_wf ph ch eh sh B ->
  In m (generate_moves B (next_move_colour B)) ->
  exists B1 valid B2,
    make_move ph ch eh sh m B = Some (B1, valid)
    /\ unmake_move ph ch eh sh B1 = Some B2
    /\ pieces B2 = pieces B
    /\ (forall p, Permutation (plist B2 p) (plist B p))
    /\ castle_state B2 = castle_state B /\ en_passant B2 = en_passant B
    /\ fifty_move B2 = fifty_move B /\ half_move B2 = half_move B
    /\ next_move_colour B2 = next_move_colour B
    /\ hash B2 = hash B /\ history B2 = history B.
Proof.
  intros [Hh HP Hwk Hbk Hc Hep Hhalf] Hm.
  pose proof (generate_moves_shape _ _ _ Hm) as Hs.
  set (entry := mk_history m (castle_state B) (en_passant B) (fifty_move B) (hash B)).
  set (B0 := set_half (u32 (half_move B + 1)) (set_history (entry :: history B) B)).
  assert (HP0 : pieces_inv B0) by (apply (pieces_inv_frame B); [reflexivity|reflexivity|exact HP]).
  destruct (motion_roundtrip ph ch eh m B0 HP0 Hwk Hbk Hc Hep Hs) as (B1 & HM & Hun).
  pose proof (make_motion_meta _ _ _ _ _ _ HM) as (Hhi1 & Hco1 & Hha1 & Hfi1).
  assert (HMM : exists v, make_move ph ch eh sh m B =
    Some (switch_colours sh (set_fifty (if move_captured m || is_pawn (moved_piece m) then 0
                                        else u32 (fifty_move B1 + 1)) B1), v)).
  { unfold make_move. fold entry. fold B0. rewrite HM. cbn [mbind option_bind].
    destruct (_ || _); eexists; reflexivity. }
  destruct HMM as [v HMM].
  pose proof (make_move_hash_ok ph ch eh sh Hinv Hoff m B _ v HMM Hh) as Hh1.
  match type of HMM with _ = Some (?X, _) => exists X, v end.
  unfold unmake_move.
  cbn [history switch_colours set_hash set_colour set_fifty]. rewrite Hhi1. unfold B0, entry.
  cbn [history switch_colours set_hash set_colour set_fifty set_half set_history set_castle_state
       set_castle set_en_passant set_ep h_move h_castle_state h_en_passant h_fifty_move h_hash
       half_move next_move_colour].
  assert (Hh1' : half_move B1 = half_move B + 1).
  { rewrite Hha1. unfold B0. cbn [half_move set_half set_history]. unfold u32.
    apply Z.mod_small. lia. }
  rewrite Hh1', (proj2 (Z.eqb_neq _ 0)) by lia.
  replace (half_move B + 1 - 1) with (half_move B) by lia.
  match goal with |- context [unmake_motion ph m ?X] => set (C := X) end.
  assert (HcC : next_move_colour C = next_move_colour B).
  { unfold C. cbn [next_move_colour switch_colours set_hash set_colour set_fifty set_half
      set_history set_castle_state set_castle set_en_passant set_ep].
    rewrite Hco1, negb_involutive. reflexivity. }
  destruct (Hun C) as (C' & HU & HpC' & HPC'); [reflexivity|reflexivity|exact HcC|reflexivity|].
  rewrite HU. cbn [mbind option_bind].
  assert (HhC : hash_ok ph ch eh sh C).
  { apply switch_colours_hash_ok, set_half_hash_ok, set_fifty_hash_ok, set_en_passant_hash_ok,
      set_castle_state_hash_ok, set_history_hash_ok. exact Hh1. }
  pose proof (unmake_motion_hash_ok ph ch eh sh Hinv Hoff m C C' HU HhC) as HhC'.
  destruct (unmake_motion_frame _ _ _ _ HU) as ((Hhi2 & Hco2 & Hha2 & Hfi2) & Hcs2 & Hep2).
  assert (Hhash : hash C' = hash B).
  { rewrite (hash_ok_hash _ _ _ _ _ HhC'), (hash_ok_hash _ _ _ _ _ Hh), !compute_hash_split.
    rewrite HpC', Hcs2, Hep2, Hco2, HcC. reflexivity. }
  rewrite Hhash, Z.eqb_refl. exists C'. split; [exact HMM|]. split; [reflexivity|].
  split; [exact HpC'|]. split.
  { intros p. unfold plist. apply lists_match_perm with (pieces C') (pieces B).
    - exact (inv_lists _ HPC').
    - exact (inv_lists _ HP).
    - exact HpC'. }
  rewrite Hcs2, Hep2, Hfi2, Hha2, Hco2, HcC, Hhi2, Hhash.
  repeat split.
Qed.
End Roundtrip.

Lemma lists_match_table pos ps :
  length pos = 16%nat ->
  forallb (fun n => bool_decide (pos !!! n = squares_of ps (Z.of_nat n))) (seq 0 16) = true ->
  lists_match pos ps.
Proof.
  intros Hl Ht p. rewrite forallb_forall in Ht.
  destruct (Z_lt_le_dec p 0) as [Hn|Hn]; [|destruct (Z_lt_le_dec p 16) as [Hp|Hp]].
  - assert (Hv : valid_piece p = false) by (unfold valid_piece; rewrite (proj2 (Z.leb_gt 0 p)) by lia; reflexivity).
    specialize (Ht 0%nat ltac:(apply in_seq; lia)). apply bool_decide_eq_true in Ht.
    replace (Z.to_nat p) with 0%nat by lia. rewrite Ht.
    unfold squares_of. rewrite Hv. reflexivity.
  - specialize (Ht (Z.to_nat p) ltac:(apply in_seq; lia)). apply bool_decide_eq_true in Ht.
    rewrite Ht, Z2Nat.id by lia. reflexivity.
  - assert (Hv : valid_piece p = false)
      by (unfold valid_piece; rewrite (proj2 (Z.ltb_ge p 16)) by lia; rewrite andb_false_r; reflexivity).
    rewrite list_lookup_total_alt, lookup_ge_None_2 by lia. cbn.
    unfold squares_of. rewrite Hv. reflexivity.
Qed.

(** The start position and e2-e4 satisfy the hypotheses of [make_unmake_restores]. *)
Lemma make_unmake_restores_witness :
  let B := demo_board startFEN in
  let m := double_move E2 E4 WHITE_PAWN in
  board_wf demo_piece_hash demo_castle_hash demo_enpas_hash demo_side_hash B
  /\ In m (generate_moves B (next_move_colour B))
  /\ exists B1 valid B2,
    make_move demo_piece_hash demo_castle_hash demo_enpas_hash demo_side_hash m B = Some (B1, valid)
    /\ unmake_move demo_piece_hash demo_castle_hash demo_enpas_hash demo_side_hash B1 = Some B2
    /\ pieces B2 = pieces B
    /\ (forall p, Permutation (plist B2 p) (plist B p))
    /\ castle_state B2 = castle_state B /\ en_passant B2 = en_passant B
    /\ fifty_move B2 = fifty_move B /\ half_move B2 = half_move B
    /\ next_move_colour B2 = next_move_colour B
    /\ hash B2 = hash B /\ history B2 = history B.
Proof.
  intros B m.
  assert (Hwf : board_wf demo_piece_hash demo_castle_hash demo_enpas_hash demo_side_hash B).
  { split.
    - split; vm_compute; reflexivity.
    - split; [vm_compute; reflexivity|vm_compute; reflexivity|].
      apply lists_match_table; vm_compute; reflexivity.
    - vm_compute. discriminate.
    - vm_compute. discriminate.
    - unfold castle_homes. repeat split; intros _; split; vm_compute; reflexivity.
    - left. vm_compute. reflexivity.
    - replace (half_move B) with 2 by (vm_compute; reflexivity). lia. }
  assert (Hin : In m (generate_moves B (next_move_colour B))) by (vm_compute; tauto).
  split; [exact Hwf|]. split; [exact Hin|].
  exact (make_unmake_restores demo_piece_hash demo_castle_hash demo_enpas_hash demo_side_hash
           demo_piece_hash_invalid demo_piece_hash_off B m Hwf Hin).
Defined.

(** ** C8: the FEN round trip *)

(* ------------------------------------------------------------------ *)
(** ** FEN round trip *)

Lemma digit_char (b : nat) : (1 <= b <= 8)%nat ->
  Ascii.eqb (chr (48 + Z.of_nat b)) " " = false /\ Ascii.eqb (chr (48 + Z.of_nat b)) "/" = false
  /\ ((49 <=? ord (chr (48 + Z.of_nat b))) && (ord (chr (48 + Z.of_nat b)) <=? 56)) = true
  /\ ord (chr (48 + Z.of_nat b)) - 48 = Z.of_nat b.
Proof.
  intros Hb. assert (Hc : b = 1%nat \/ b = 2%nat \/ b = 3%nat \/ b = 4%nat \/ b = 5%nat
    \/ b = 6%nat \/ b = 7%nat \/ b = 8%nat) by lia.
  repeat destruct Hc as [-> | Hc]; [..| subst]; vm_compute; split_and!; reflexivity.
Qed.

Lemma piece_char (p : Z) : valid_piece p = true ->
  Ascii.eqb (char_from_piece p) " " = false /\ Ascii.eqb (char_from_piece p) "/" = false
  /\ ((49 <=? ord (char_from_piece p)) && (ord (char_from_piece p) <=? 56)) = false
  /\ piece_from_char (char_from_piece p) = p.
Proof.
  intros Hv. assert (Hr : 0 <= p < 16).
  { unfold valid_piece in Hv. rewrite !andb_true_iff, Z.leb_le, Z.ltb_lt in Hv. lia. }
  assert (Hc : p = 0 \/ p = 1 \/ p = 2 \/ p = 3 \/ p = 4 \/ p = 5 \/ p = 6 \/ p = 7 \/ p = 8
    \/ p = 9 \/ p = 10 \/ p = 11 \/ p = 12 \/ p = 13 \/ p = 14 \/ p = 15) by lia.
  repeat destruct Hc as [-> | Hc]; [..| subst]; vm_compute in Hv |- *;
    first [discriminate | split_and!; reflexivity].
Qed.

Lemma fen_placement_end f B b :
  fen_placement (S f) B 29 b = (if b =? 0 then [] else [chr (48 + b)]).
Proof. reflexivity. Qed.

Lemma fen_placement_cell f B sq b :
  sq <> 29 -> sq mod 10 <> 9 ->
  fen_placement (S f) B sq b =
    if piece_at B sq =? INVALID_PIECE then fen_placement f B (sq + 1) (b + 1)
    else (if b =? 0 then [] else [chr (48 + b)]) ++ [char_from_piece (piece_at B sq)]
         ++ fen_placement f B (sq + 1) 0.
Proof.
  intros H29 H9. cbn [fen_placement].
  rewrite (proj2 (Z.eqb_neq _ _) H29), (proj2 (Z.eqb_neq _ _) H9).
  destruct (piece_at B sq =? INVALID_PIECE); reflexivity.
Qed.

Lemma fen_placement_rank f B sq b :
  sq <> 29 -> sq mod 10 = 9 -> sq - 18 <> 29 -> (sq - 18) mod 10 <> 9 ->
  fen_placement (S f) B sq b =
    ((if b =? 0 then [] else [chr (48 + b)]) ++ ["/"%char]) ++ fen_placement (S f) B (sq - 18) 0.
Proof.
  intros H29 H9 H29' H9'. rewrite (fen_placement_cell f B (sq - 18) 0 H29' H9').
  cbn [fen_placement]. rewrite (proj2 (Z.eqb_neq _ _) H29), H9. cbn -[piece_at].
  destruct (piece_at B (sq - 18) =? INVALID_PIECE); reflexivity.
Qed.

Lemma parse_pending (b : nat) x s ps pos :
  (b <= 8)%nat -> 0 <= x -> x + Z.of_nat b < 2 ^ 32 ->
  ((x + Z.of_nat b) mod 10 = 9 \/ valid_square (x + Z.of_nat b) = true) ->
  parse_placement ((if Z.of_nat b =? 0 then [] else [chr (48 + Z.of_nat b)]) ++ s) x ps pos
  = parse_placement s (x + Z.of_nat b)
      (fold_left (fun ps i => <[Z.to_nat (x + i) := INVALID_PIECE]> ps) (map Z.of_nat (seq 0 b)) ps) pos.
Proof.
  intros Hb Hx Hw Hk. destruct b as [|b'].
  - change (Z.of_nat 0) with 0. replace (x + 0) with x by lia. reflexivity.
  - destruct (digit_char (S b')) as (Ha & Hs & Hd & Ho); [lia|].
    rewrite (proj2 (Z.eqb_neq (Z.of_nat (S b')) 0)) by lia.
    cbn [app parse_placement]. rewrite Ha, Hs, Hd. cbv zeta. rewrite Ho, Nat2Z.id.
    unfold u32. rewrite (Z.mod_small (x + Z.of_nat (S b'))) by lia.
    destruct Hk as [Hk | Hk]; rewrite Hk; [reflexivity|]. rewrite orb_true_r. reflexivity.
Qed.

Lemma parse_piece x p s ps pos :
  valid_square x = true -> valid_piece p = true -> 0 <= x -> x + 1 < 2 ^ 32 ->
  ((x + 1) mod 10 = 9 \/ valid_square (x + 1) = true) ->
  parse_placement (char_from_piece p :: s) x ps pos =
    if negb (Nat.ltb (length (pos !!! Z.to_nat p)) MAX_PIECE_FREQ) then None
    else parse_placement s (x + 1) (<[Z.to_nat x := p]> ps)
           (<[Z.to_nat p := pos !!! Z.to_nat p ++ [x]]> pos).
Proof.
  intros Hx Hp H0 Hw Hk. destruct (piece_char p Hp) as (Ha & Hs & Hd & Hc).
  cbn [parse_placement]. rewrite Ha, Hs, Hd. cbv zeta. rewrite Hc, Hx, Hp. cbn [negb].
  destruct (Nat.ltb _ _); [|reflexivity]. cbn [negb].
  unfold u32. rewrite (Z.mod_small (x + 1)) by lia.
  destruct Hk as [Hk | Hk]; rewrite Hk; [reflexivity|]. rewrite orb_true_r. reflexivity.
Qed.

Lemma parse_slash x s ps pos :
  x mod 10 = 9 -> 18 <= x < 2 ^ 32 ->
  parse_placement ("/"%char :: s) x ps pos = parse_placement s (x - 18) ps pos.
Proof.
  intros H9 Hx. cbn [parse_placement]. cbn [Ascii.eqb Bool.eqb].
  rewrite H9. cbn. unfold u32. rewrite Z.mod_small by lia. reflexivity.
Qed.

Lemma scan_fold_app_empty T l l' ps pos :
  (forall s, In s l -> T !!! Z.to_nat s = INVALID_PIECE) ->
  scan_fold T (l ++ l') ps pos
  = scan_fold T l' (fold_left (fun ps s => <[Z.to_nat s := INVALID_PIECE]> ps) l ps) pos.
Proof.
  revert ps. induction l as [|s l IH]; intros ps He; [reflexivity|].
  cbn [app scan_fold fold_left]. rewrite (He s (or_introl eq_refl)). cbn.
  apply IH. intros s' Hs'. apply He. right. exact Hs'.
Qed.

Lemma fold_blank_shift (n : nat) : forall (a j : nat) x x' (ps : list Z),
  x + Z.of_nat a = x' + Z.of_nat j ->
  fold_left (fun ps i => <[Z.to_nat (x + i) := INVALID_PIECE]> ps) (map Z.of_nat (seq a n)) ps
  = fold_left (fun ps s => <[Z.to_nat s := INVALID_PIECE]> ps)
      (map (fun i => x' + Z.of_nat i) (seq j n)) ps.
Proof.
  induction n as [|n IH]; intros a j x x' ps Hx; [reflexivity|].
  cbn [seq map fold_left]. rewrite Hx. apply IH. lia.
Qed.

Lemma rank_row_split r j k :
  (j + k <= 8)%nat ->
  rank_row r j = map (fun i => 21 + 10 * Z.of_nat r + Z.of_nat i) (seq j k) ++ rank_row r (j + k).
Proof.
  intros Hk. unfold rank_row. rewrite <- map_app, <- seq_app.
  f_equal. f_equal. lia.
Qed.

Lemma rank_row_cons r c :
  (c < 8)%nat -> rank_row r c = (21 + 10 * Z.of_nat r + Z.of_nat c) :: rank_row r (S c).
Proof. intros Hc. unfold rank_row. replace (8 - c)%nat with (S (8 - S c)) by lia. reflexivity. Qed.

Lemma sq_mod (r c : nat) : (c <= 8)%nat -> (21 + 10 * Z.of_nat r + Z.of_nat c) mod 10 = 1 + Z.of_nat c.
Proof.
  intros Hc. replace (21 + 10 * Z.of_nat r + Z.of_nat c) with ((1 + Z.of_nat c) + (2 + Z.of_nat r) * 10) by lia.
  rewrite Z_mod_plus_full. apply Z.mod_small. lia.
Qed.

Lemma sq_valid (r c : nat) : (r <= 7)%nat -> (c < 8)%nat ->
  valid_square (21 + 10 * Z.of_nat r + Z.of_nat c) = true.
Proof.
  intros Hr Hc. unfold valid_square. rewrite sq_mod by lia.
  rewrite !andb_true_iff, !Z.leb_le. lia.
Qed.

Lemma in_row_range r j k s :
  In s (map (fun i => 21 + 10 * Z.of_nat r + Z.of_nat i) (seq j k)) ->
  exists i, (j <= i < j + k)%nat /\ s = 21 + 10 * Z.of_nat r + Z.of_nat i.
Proof. intros (i & <- & Hi)%in_map_iff. apply in_seq in Hi. exists i. split; [lia | reflexivity]. Qed.

Section Placement.
Variable B : board.
Hypothesis HT : forall n, (n < 120)%nat ->
  pieces B !!! n = INVALID_PIECE
  \/ (valid_square (Z.of_nat n) = true /\ valid_piece (pieces B !!! n) = true).

(** The pending blanks of a rank: the digit, then the parse goes on at
    [21 + 10 r + c] with the same array as the scan over those blanks. *)
Lemma pending_blanks (r c b : nat) s l ps pos :
  (r <= 7)%nat -> (c <= 8)%nat -> (b <= c)%nat ->
  (forall i, (c - b <= i < c)%nat -> piece_at B (21 + 10 * Z.of_nat r + Z.of_nat i) = INVALID_PIECE) ->
  ((21 + 10 * Z.of_nat r + Z.of_nat c) mod 10 = 9 \/ valid_square (21 + 10 * Z.of_nat r + Z.of_nat c) = true) ->
  exists ps1,
  parse_placement ((if Z.of_nat b =? 0 then [] else [chr (48 + Z.of_nat b)]) ++ s)
    (21 + 10 * Z.of_nat r + Z.of_nat (c - b)) ps pos
  = parse_placement s (21 + 10 * Z.of_nat r + Z.of_nat c) ps1 pos
  /\ scan_fold (pieces B) (rank_row r (c - b) ++ l) ps pos
     = scan_fold (pieces B) (rank_row r c ++ l) ps1 pos.
Proof.
  intros Hr Hc Hb He Hk.
  eexists. split.
  - assert (Hx : 21 + 10 * Z.of_nat r + Z.of_nat (c - b) + Z.of_nat b = 21 + 10 * Z.of_nat r + Z.of_nat c) by lia.
    rewrite parse_pending, Hx; [reflexivity | lia | lia | lia | rewrite Hx; exact Hk].
  - rewrite (rank_row_split r (c - b) b) by lia. replace (c - b + b)%nat with c by lia.
    rewrite <- app_assoc, scan_fold_app_empty.
    + f_equal. symmetry. apply fold_blank_shift. lia.
    + intros s' (i & Hi & ->)%in_row_range. apply He. lia.
Qed.

(** The placement parse of the rendered placement, from any point of the
    render: [N] squares are left, the render stands at file [c] of rank
    [r] with [b] blanks pending, the parse [b] squares behind it. *)
Lemma placement_gen (N : nat) : forall (r c b f : nat) ps pos rest,
  N = (8 * r + 8 - c)%nat -> (r <= 7)%nat -> (c <= 8)%nat -> (b <= c)%nat -> (N < f)%nat ->
  (forall i, (c - b <= i < c)%nat -> piece_at B (21 + 10 * Z.of_nat r + Z.of_nat i) = INVALID_PIECE) ->
  parse_placement (fen_placement f B (21 + 10 * Z.of_nat r + Z.of_nat c) (Z.of_nat b) ++ " "%char :: rest)
    (21 + 10 * Z.of_nat r + Z.of_nat (c - b)) ps pos
  = option_map (fun '(ps', pos') => (29, ps', pos', " "%char :: rest))
      (scan_fold (pieces B) (rank_row r (c - b) ++ scan_ranks r) ps pos).
Proof.
  induction N as [|N IH]; intros r c b f ps pos rest HN Hr Hc Hb Hf He.
  - assert (r = 0%nat /\ c = 8%nat) as [-> ->] by lia.
    destruct f as [|f]; [lia|].
    change (21 + 10 * Z.of_nat 0 + Z.of_nat 8) with 29 at 1.
    rewrite fen_placement_end.
    destruct (pending_blanks 0 8 b (" "%char :: rest) (scan_ranks 0) ps pos) as (ps1 & Hq & Hs);
      [lia | lia | lia | exact He | left; reflexivity |].
    rewrite Hq, Hs. reflexivity.
  - assert (Hstep : forall r c b f ps pos, (c < 8)%nat -> S N = (8 * r + 8 - c)%nat -> (r <= 7)%nat ->
      (b <= c)%nat -> (S N < f)%nat ->
      (forall i, (c - b <= i < c)%nat -> piece_at B (21 + 10 * Z.of_nat r + Z.of_nat i) = INVALID_PIECE) ->
      parse_placement (fen_placement f B (21 + 10 * Z.of_nat r + Z.of_nat c) (Z.of_nat b) ++ " "%char :: rest)
        (21 + 10 * Z.of_nat r + Z.of_nat (c - b)) ps pos
      = option_map (fun '(ps', pos') => (29, ps', pos', " "%char :: rest))
          (scan_fold (pieces B) (rank_row r (c - b) ++ scan_ranks r) ps pos)).
    { clear - IH HT. intros r c b f ps pos Hc HN Hr Hb Hf He.
      destruct f as [|f]; [lia|].
      assert (Hm : (21 + 10 * Z.of_nat r + Z.of_nat c) mod 10 = 1 + Z.of_nat c) by (apply sq_mod; lia).
      assert (H29 : 21 + 10 * Z.of_nat r + Z.of_nat c <> 29)
        by (intros Heq; rewrite Heq in Hm; cbn in Hm; lia).
      assert (H9 : (21 + 10 * Z.of_nat r + Z.of_nat c) mod 10 <> 9) by (rewrite Hm; lia).
      rewrite (fen_placement_cell f B _ _ H29 H9).
      assert (Hv : valid_square (21 + 10 * Z.of_nat r + Z.of_nat c) = true) by (apply sq_valid; lia).
      destruct (piece_at B (21 + 10 * Z.of_nat r + Z.of_nat c) =? INVALID_PIECE) eqn:Hp.
      + apply Z.eqb_eq in Hp.
        replace (21 + 10 * Z.of_nat r + Z.of_nat c + 1) with (21 + 10 * Z.of_nat r + Z.of_nat (S c)) by lia.
        replace (Z.of_nat b + 1) with (Z.of_nat (S b)) by lia.
        change (c - b)%nat with (S c - S b)%nat.
        apply IH; try lia.
        intros i Hi. destruct (Nat.eq_dec i c) as [-> | Hne]; [exact Hp | apply He; lia].
      + apply Z.eqb_neq in Hp.
        assert (Hvp : valid_piece (piece_at B (21 + 10 * Z.of_nat r + Z.of_nat c)) = true).
        { destruct (HT (Z.to_nat (21 + 10 * Z.of_nat r + Z.of_nat c))) as [Hx | [_ Hx]];
            [lia | unfold piece_at in Hp; contradiction | exact Hx]. }
        set (p := piece_at B (21 + 10 * Z.of_nat r + Z.of_nat c)) in *.
        rewrite <- !app_assoc. cbn [app].
        destruct (pending_blanks r c b
                    (char_from_piece p :: fen_placement f B (21 + 10 * Z.of_nat r + Z.of_nat c + 1) 0
                       ++ " "%char :: rest) (scan_ranks r) ps pos) as (ps1 & Hq & Hs);
          [lia | lia | lia | exact He | right; exact Hv |].
        rewrite Hq, Hs.
        rewrite parse_piece; [| exact Hv | exact Hvp | lia | lia | ].
        2: { replace (21 + 10 * Z.of_nat r + Z.of_nat c + 1) with (21 + 10 * Z.of_nat r + Z.of_nat (S c)) by lia.
             destruct (Nat.eq_dec (S c) 8%nat) as [E|E].
             - left. rewrite E, sq_mod by lia. reflexivity.
             - right. apply sq_valid; lia. }
        rewrite (rank_row_cons r c) by lia. cbn [app scan_fold]. cbv zeta.
        change (pieces B !!! Z.to_nat (21 + 10 * Z.of_nat r + Z.of_nat c)) with p.
        rewrite (proj2 (Z.eqb_neq p INVALID_PIECE) Hp).
        destruct (negb _); [reflexivity|].
        replace (21 + 10 * Z.of_nat r + Z.of_nat c + 1) with (21 + 10 * Z.of_nat r + Z.of_nat (S c)) by lia.
        pose proof (IH r (S c) 0%nat f) as IH'. cbn [Nat.sub] in IH'.
        apply IH'; try lia. }
    destruct (Nat.lt_ge_cases c 8) as [Hc8 | Hc8]; [apply Hstep; assumption|].
    assert (c = 8%nat) as -> by lia. destruct r as [|r']; [lia|].
    destruct f as [|f]; [lia|].
    assert (Hm : (21 + 10 * Z.of_nat (S r') + Z.of_nat 8) mod 10 = 9) by (rewrite sq_mod by lia; reflexivity).
    assert (Hm' : (21 + 10 * Z.of_nat r' + Z.of_nat 0) mod 10 = 1) by (rewrite sq_mod by lia; reflexivity).
    replace (21 + 10 * Z.of_nat r' + Z.of_nat 0) with (21 + 10 * Z.of_nat (S r') + Z.of_nat 8 - 18) in Hm' by lia.
    rewrite fen_placement_rank; [| lia | exact Hm | lia | rewrite Hm'; lia].
    rewrite <- !app_assoc. cbn [app].
    destruct (pending_blanks (S r') 8 b
                ("/"%char :: fen_placement (S f) B (21 + 10 * Z.of_nat (S r') + Z.of_nat 8 - 18) 0
                   ++ " "%char :: rest) (scan_ranks (S r')) ps pos) as (ps1 & Hq & Hs);
      [lia | lia | lia | exact He | left; exact Hm |].
    rewrite Hq, Hs. rewrite parse_slash by (exact Hm || lia).
    cbn [scan_ranks]. change (rank_row (S r') 8) with (@nil Z). cbn [app].
    replace (21 + 10 * Z.of_nat (S r') + Z.of_nat 8 - 18) with (21 + 10 * Z.of_nat r' + Z.of_nat 0) by lia.
    pose proof (Hstep r' 0%nat 0%nat (S f) ps1 pos) as Hs'. cbn [Nat.sub] in Hs'.
    apply Hs'; lia.
Qed.
End Placement.

Lemma scan_order_range s : In s scan_order -> 21 <= s <= 98 /\ valid_square s = true.
Proof.
  intros Hs. assert (Hc : forallb (fun s => (21 <=? s) && (s <=? 98) && valid_square s) scan_order = true)
    by reflexivity.
  rewrite forallb_forall in Hc. specialize (Hc s Hs). rewrite !andb_true_iff, !Z.leb_le in Hc.
  destruct Hc as [Hc Hv]. split; [lia | exact Hv].
Qed.

Lemma scan_order_nodup : List.NoDup scan_order.
Proof. apply NoDup_ListNoDup. apply (bool_decide_unpack _). vm_compute. reflexivity. Qed.

Lemma scan_order_complete n : (n < 120)%nat -> valid_square (Z.of_nat n) = true -> In (Z.of_nat n) scan_order.
Proof.
  intros Hn Hv.
  assert (Hc : forallb (fun n => implb (valid_square (Z.of_nat n)) (existsb (Z.eqb (Z.of_nat n)) scan_order))
                 (seq 0 120) = true) by (vm_compute; reflexivity).
  rewrite forallb_forall in Hc. specialize (Hc n ltac:(apply in_seq; lia)). rewrite Hv in Hc.
  apply existsb_exists in Hc. destruct Hc as (x & Hx & E). apply Z.eqb_eq in E. subst x. exact Hx.
Qed.

Lemma filter_app_one (f : Z -> bool) (D : list Z) s :
  List.filter f (D ++ [s]) = List.filter f D ++ (if f s then [s] else []).
Proof. rewrite List.filter_app. cbn. destruct (f s); reflexivity. Qed.

Lemma valid_piece_bounds (p : Z) : valid_piece p = true -> 1 <= p <= 14.
Proof.
  intros Hv. assert (Hr : 0 <= p < 16).
  { unfold valid_piece in Hv. rewrite !andb_true_iff, Z.leb_le, Z.ltb_lt in Hv. lia. }
  assert (Hc : p = 0 \/ p = 1 \/ p = 2 \/ p = 3 \/ p = 4 \/ p = 5 \/ p = 6 \/ p = 7 \/ p = 8
    \/ p = 9 \/ p = 10 \/ p = 11 \/ p = 12 \/ p = 13 \/ p = 14 \/ p = 15) by lia.
  repeat destruct Hc as [-> | Hc]; [..| subst]; vm_compute in Hv; first [discriminate | lia].
Qed.

Section ScanInv.
Variable T : list Z.
Hypothesis HT : forall n, (n < 120)%nat ->
  T !!! n = INVALID_PIECE \/ (valid_square (Z.of_nat n) = true /\ valid_piece (T !!! n) = true).
Hypothesis Hcount : forall k, (0 < k < 16)%nat ->
  (length (List.filter (fun s => Z.eqb (T !!! Z.to_nat s) (Z.of_nat k)) scan_order) <= MAX_PIECE_FREQ)%nat.

Lemma scan_fold_inv (l : list Z) : forall D ps pos,
  D ++ l = scan_order -> ps_inv T D ps -> pos_inv T D pos ->
  exists ps' pos', scan_fold T l ps pos = Some (ps', pos') /\ ps_inv T scan_order ps' /\ pos_inv T scan_order pos'.
Proof.
  induction l as [|s l IH]; intros D ps pos HD [Hlp Hps] [Hlq Hpos].
  { rewrite app_nil_r in HD. subst D. exists ps, pos. split; [reflexivity | split; split; assumption]. }
  assert (Hs : In s scan_order) by (rewrite <- HD; apply in_or_app; right; left; reflexivity).
  destruct (scan_order_range s Hs) as [Hsr Hsv].
  assert (HsD : ~ In s D).
  { intros Hin. pose proof scan_order_nodup as Hnd. rewrite <- HD in Hnd.
    apply NoDup_remove_2 in Hnd. apply Hnd. apply in_or_app. left. exact Hin. }
  assert (HD' : (D ++ [s]) ++ l = scan_order) by (rewrite <- app_assoc; exact HD).
  assert (Hin : forall n, (n < 120)%nat ->
    existsb (Z.eqb (Z.of_nat n)) (D ++ [s]) = if decide (n = Z.to_nat s) then true else existsb (Z.eqb (Z.of_nat n)) D).
  { intros n Hn. rewrite existsb_app. cbn [existsb]. case_decide as Hns.
    - rewrite (proj2 (Z.eqb_eq (Z.of_nat n) s)) by lia. rewrite orb_true_r. reflexivity.
    - rewrite (proj2 (Z.eqb_neq (Z.of_nat n) s)) by lia. rewrite !orb_false_r. reflexivity. }
  cbn [scan_fold]. cbv zeta.
  destruct (T !!! Z.to_nat s =? INVALID_PIECE) eqn:Hp.
  - apply Z.eqb_eq in Hp. apply (IH (D ++ [s])); [exact HD' | split | split].
    + rewrite length_insert. exact Hlp.
    + intros n Hn. rewrite list_lookup_total_insert, Hin by exact Hn.
      destruct (decide (n = Z.to_nat s)) as [->|Hns].
      * rewrite decide_True by lia. symmetry. exact Hp.
      * rewrite decide_False by lia. apply Hps. exact Hn.
    + exact Hlq.
    + intros k Hk. rewrite Hpos by exact Hk. rewrite filter_app_one.
      destruct (k =? 0)%nat eqn:Hk0; [reflexivity|]. apply Nat.eqb_neq in Hk0.
      rewrite Hp. destruct (INVALID_PIECE =? Z.of_nat k) eqn:E; [apply Z.eqb_eq in E; unfold INVALID_PIECE in E; lia|]. rewrite app_nil_r. reflexivity.
  - apply Z.eqb_neq in Hp.
    destruct (HT (Z.to_nat s)) as [Hx | [_ Hvp]]; [lia | contradiction |].
    set (p := T !!! Z.to_nat s) in *.
    assert (Hpr : 1 <= p <= 14) by (apply valid_piece_bounds; exact Hvp).
    set (k0 := Z.to_nat p).
    assert (Hk0 : (0 < k0 < 16)%nat) by lia.
    assert (Hlen : (length (pos !!! k0) < MAX_PIECE_FREQ)%nat).
    { rewrite Hpos by lia. rewrite (proj2 (Nat.eqb_neq k0 0)) by lia.
      specialize (Hcount k0 Hk0). rewrite <- HD, List.filter_app in Hcount. cbn in Hcount.
      unfold k0 in Hcount. rewrite Z2Nat.id in Hcount by lia. fold p in Hcount.
      rewrite Z.eqb_refl in Hcount. cbn in Hcount. rewrite length_app in Hcount. cbn in Hcount.
      unfold k0. rewrite Z2Nat.id by lia. lia. }
    apply Nat.ltb_lt in Hlen. rewrite Hlen. cbn [negb].
    apply (IH (D ++ [s])); [exact HD' | split | split].
    + rewrite length_insert. exact Hlp.
    + intros n Hn. rewrite list_lookup_total_insert, Hin by exact Hn.
      destruct (decide (n = Z.to_nat s)) as [->|Hns].
      * rewrite decide_True by lia. reflexivity.
      * rewrite decide_False by lia. apply Hps. exact Hn.
    + rewrite length_insert. exact Hlq.
    + intros k Hk. rewrite list_lookup_total_insert, filter_app_one.
      destruct (decide (k0 = k /\ (k0 < length pos)%nat)) as [[<- _]|Hne].
      * rewrite Hpos by lia. rewrite (proj2 (Nat.eqb_neq k0 0)) by lia.
        unfold k0. rewrite Z2Nat.id by lia. fold p. rewrite Z.eqb_refl. reflexivity.
      * rewrite Hpos by exact Hk. destruct (k =? 0)%nat eqn:Hkz; [reflexivity|].
        apply Nat.eqb_neq in Hkz. fold p.
        destruct (p =? Z.of_nat k) eqn:E; [apply Z.eqb_eq in E; exfalso; apply Hne; split; [|lia]; unfold k0; lia|].
        rewrite app_nil_r. reflexivity.
Qed.
End ScanInv.

Lemma ord_chr n : 0 <= n < 256 -> ord (chr n) = n.
Proof. intros Hn. unfold ord, chr. rewrite nat_ascii_embedding by lia. lia. Qed.

Lemma chr_neq n c : 0 <= n < 256 -> n <> ord c -> Ascii.eqb (chr n) c = false.
Proof.
  intros Hn Hc. destruct (Ascii.eqb (chr n) c) eqn:E; [|reflexivity].
  apply Ascii.eqb_eq in E. rewrite <- E, ord_chr in Hc by exact Hn. lia.
Qed.

Lemma digit_char10 k : 0 <= k < 10 ->
  Ascii.eqb (chr (48 + k)) " " = false /\ is_digit (chr (48 + k)) = true /\ ord (chr (48 + k)) - 48 = k.
Proof.
  intros Hk. rewrite chr_neq; [| lia | change (ord " "%char) with 32; lia]. unfold is_digit. rewrite ord_chr by lia.
  split_and!; [reflexivity | | lia]. rewrite andb_true_iff, !Z.leb_le. lia.
Qed.

Lemma parse_fifty_digits (f : nat) : forall n acc rest,
  0 <= n < 10 ^ Z.of_nat f -> 0 <= acc ->
  acc * 10 ^ Z.of_nat (length (digits_rev f n)) + n < 2 ^ 32 ->
  parse_fifty (rev (digits_rev f n) ++ rest) acc
  = parse_fifty rest (acc * 10 ^ Z.of_nat (length (digits_rev f n)) + n).
Proof.
  induction f as [|f IH]; intros n acc rest Hn Ha Hb.
  - cbn in Hn |- *. replace n with 0 by lia. rewrite Z.mul_1_r, Z.add_0_r. reflexivity.
  - destruct (digit_char10 (n mod 10)) as (Hs & Hd & Ho); [apply Z.mod_pos_bound; lia|].
    pose proof (Z.div_mod n 10 ltac:(lia)) as Hdm. pose proof (Z.mod_pos_bound n 10 ltac:(lia)) as Hmb.
    cbn [digits_rev] in Hb |- *. destruct (n <? 10) eqn:Hn10.
    + apply Z.ltb_lt in Hn10. cbn [rev app length] in Hb |- *. cbn [parse_fifty].
      rewrite Hs, Hd, Ho. unfold u32. rewrite Z.mod_small by (cbn in Hb; lia).
      f_equal. rewrite Z.mod_small by lia. cbn. lia.
    + apply Z.ltb_ge in Hn10. cbn [rev length] in Hb |- *. rewrite <- app_assoc. cbn [app].
      rewrite Nat2Z.inj_succ, Z.pow_succ_r in Hb |- * by lia.
      set (K := 10 ^ Z.of_nat (length (digits_rev f (n / 10)))) in *.
      assert (HK : 0 < K) by (unfold K; apply Z.pow_pos_nonneg; lia).
      rewrite Nat2Z.inj_succ, Z.pow_succ_r in Hn by lia.
      assert (Hq : 0 <= n / 10 < 10 ^ Z.of_nat f)
        by (split; [apply Z.div_pos; lia | apply Z.div_lt_upper_bound; lia]).
      rewrite IH by (try exact Hq; try lia; unfold K in *; nia).
      fold K. cbn [parse_fifty]. rewrite Hs, Hd, Ho. unfold u32.
      rewrite Z.mod_small by nia. f_equal. lia.
Qed.

Lemma parse_full_digits (f : nat) : forall n acc rest,
  0 <= n < 10 ^ Z.of_nat f -> 0 <= acc ->
  acc * 10 ^ Z.of_nat (length (digits_rev f n)) + n < 2 ^ 64 ->
  parse_full (rev (digits_rev f n) ++ rest) acc
  = parse_full rest (acc * 10 ^ Z.of_nat (length (digits_rev f n)) + n).
Proof.
  induction f as [|f IH]; intros n acc rest Hn Ha Hb.
  - cbn in Hn |- *. replace n with 0 by lia. rewrite Z.mul_1_r, Z.add_0_r. reflexivity.
  - destruct (digit_char10 (n mod 10)) as (Hs & Hd & Ho); [apply Z.mod_pos_bound; lia|].
    pose proof (Z.div_mod n 10 ltac:(lia)) as Hdm. pose proof (Z.mod_pos_bound n 10 ltac:(lia)) as Hmb.
    cbn [digits_rev] in Hb |- *. destruct (n <? 10) eqn:Hn10.
    + apply Z.ltb_lt in Hn10. cbn [rev app length] in Hb |- *. cbn [parse_full].
      rewrite Hd, Ho. rewrite Z.mod_small by (cbn in Hb; lia).
      f_equal. rewrite Z.mod_small by lia. cbn. lia.
    + apply Z.ltb_ge in Hn10. cbn [rev length] in Hb |- *. rewrite <- app_assoc. cbn [app].
      rewrite Nat2Z.inj_succ, Z.pow_succ_r in Hb |- * by lia.
      set (K := 10 ^ Z.of_nat (length (digits_rev f (n / 10)))) in *.
      assert (HK : 0 < K) by (unfold K; apply Z.pow_pos_nonneg; lia).
      rewrite Nat2Z.inj_succ, Z.pow_succ_r in Hn by lia.
      assert (Hq : 0 <= n / 10 < 10 ^ Z.of_nat f)
        by (split; [apply Z.div_pos; lia | apply Z.div_lt_upper_bound; lia]).
      rewrite IH by (try exact Hq; try lia; unfold K in *; nia).
      fold K. cbn [parse_full]. rewrite Hd, Ho.
      rewrite Z.mod_small by nia. f_equal. lia.
Qed.

Lemma show_dec_length n : (length (digits_rev 20 n) <= 20)%nat.
Proof.
  generalize 20%nat as f. intros f. revert n. induction f as [|f IH]; intros n; [cbn; lia|].
  cbn [digits_rev length]. destruct (n <? 10); cbn; [lia | specialize (IH (n / 10)); lia].
Qed.

Lemma parse_fifty_show n r : 0 <= n < 2 ^ 32 ->
  parse_fifty (show_dec n ++ " "%char :: r) 0 = Some (n, " "%char :: r).
Proof.
  intros Hn. unfold show_dec. rewrite parse_fifty_digits.
  - reflexivity.
  - split; [lia|]. apply (Z.lt_trans _ (2 ^ 32)); [lia | vm_compute; reflexivity].
  - lia.
  - lia.
Qed.

Lemma parse_full_show n : 0 <= n < 2 ^ 64 -> parse_full (show_dec n) 0 = Some n.
Proof.
  intros Hn. unfold show_dec. rewrite <- (app_nil_r (rev (digits_rev 20 n))).
  rewrite parse_full_digits.
  - cbn. reflexivity.
  - split; [lia|]. apply (Z.lt_trans _ (2 ^ 64)); [lia | vm_compute; reflexivity].
  - lia.
  - lia.
Qed.

Lemma filter_none (f : Z -> bool) l : (forall x, In x l -> f x = false) -> List.filter f l = [].
Proof. induction l as [|x l IH]; intros H; [reflexivity|]. cbn. rewrite H by (left; reflexivity). apply IH. intros y Hy. apply H. right. exact Hy. Qed.

Section Final.
Variable T : list Z.
Hypothesis HT : forall n, (n < 120)%nat ->
  T !!! n = INVALID_PIECE \/ (valid_square (Z.of_nat n) = true /\ valid_piece (T !!! n) = true).

Lemma scan_perm p : valid_piece p = true ->
  Permutation (List.filter (fun s => Z.eqb (T !!! Z.to_nat s) p) scan_order) (squares_of T p).
Proof.
  intros Hv. unfold squares_of. rewrite Hv. apply Permutation.NoDup_Permutation.
  - apply List.NoDup_filter, scan_order_nodup.
  - apply List.NoDup_filter, board_squares_nodup.
  - intros x. rewrite !filter_In. split; intros [Hx Hp].
    + split; [|exact Hp]. destruct (scan_order_range x Hx) as [Hr _].
      unfold board_squares. apply in_map_iff. exists (Z.to_nat x). split; [lia | apply in_seq; lia].
    + split; [|exact Hp]. unfold board_squares in Hx. apply in_map_iff in Hx. destruct Hx as (n & <- & Hn).
      apply in_seq in Hn. apply Z.eqb_eq in Hp. rewrite Nat2Z.id in Hp.
      destruct (HT n) as [H0 | [Hvs _]]; [lia | |].
      * apply valid_piece_bounds in Hv. unfold INVALID_PIECE in H0. lia.
      * apply scan_order_complete; [lia | exact Hvs].
Qed.
End Final.

Lemma repeat_lookup_total {A} `{Inhabited A} (x : A) n i : (i < n)%nat -> repeat x n !!! i = x.
Proof.
  revert i. induction n as [|n IH]; intros i Hi; [lia|].
  destruct i as [|i]; [reflexivity|]. cbn. apply IH. lia.
Qed.

Lemma placement_roundtrip (P : board) rest :
  length (pieces P) = 120%nat ->
  (forall n, (n < 120)%nat ->
    pieces P !!! n = INVALID_PIECE
    \/ (valid_square (Z.of_nat n) = true /\ valid_piece (pieces P !!! n) = true)) ->
  (forall p, valid_piece p = true -> (length (squares_of (pieces P) p) <= MAX_PIECE_FREQ)%nat) ->
  exists pos', parse_placement (fen_placement 65 P A8 0 ++ " "%char :: rest) A8
                 (repeat INVALID_PIECE 120) (repeat [] 16) = Some (29, pieces P, pos', " "%char :: rest)
    /\ lists_match pos' (pieces P) /\ length pos' = 16%nat.
Proof.
  intros Hlen HT Hc.
  assert (Hcount : forall k, (0 < k < 16)%nat ->
    (length (List.filter (fun s => Z.eqb (pieces P !!! Z.to_nat s) (Z.of_nat k)) scan_order) <= MAX_PIECE_FREQ)%nat).
  { intros k Hk. destruct (valid_piece (Z.of_nat k)) eqn:Hv.
    - rewrite (Permutation_length (scan_perm (pieces P) HT _ Hv)). apply Hc. exact Hv.
    - rewrite filter_none; [cbn; unfold MAX_PIECE_FREQ; lia|]. intros x Hx.
      destruct (Z.eqb_spec (pieces P !!! Z.to_nat x) (Z.of_nat k)) as [E|E]; [|reflexivity].
      destruct (scan_order_range x Hx) as [Hr _].
      destruct (HT (Z.to_nat x)) as [H0 | [_ Hvp]]; [lia | unfold INVALID_PIECE in H0; lia |].
      rewrite E, Hv in Hvp. discriminate. }
  destruct (scan_fold_inv (pieces P) HT Hcount scan_order [] (repeat INVALID_PIECE 120) (repeat [] 16))
    as (ps' & pos' & Hsf & [Hlp Hps] & [Hlq Hpos]).
  - reflexivity.
  - split; [reflexivity|]. intros n Hn. cbn [existsb]. rewrite repeat_lookup_total by lia. reflexivity.
  - split; [reflexivity|]. intros k Hk. rewrite repeat_lookup_total by lia. destruct (k =? 0)%nat; reflexivity.
  - assert (Hps' : ps' = pieces P).
    { apply list_eq_total; [lia|]. intros n Hn. rewrite Hlen in Hn. rewrite Hps by exact Hn.
      destruct (existsb (Z.eqb (Z.of_nat n)) scan_order) eqn:E; [reflexivity|].
      destruct (HT n Hn) as [H0 | [Hvs _]]; [symmetry; exact H0|].
      exfalso. apply scan_order_complete in Hvs; [|exact Hn].
      assert (existsb (Z.eqb (Z.of_nat n)) scan_order = true)
        by (apply existsb_exists; exists (Z.of_nat n); split; [exact Hvs | apply Z.eqb_refl]).
      congruence. }
    subst ps'. exists pos'. split; [|split; [|exact Hlq]].
    + change A8 with (21 + 10 * Z.of_nat 7 + Z.of_nat (0 - 0)) at 2.
      change A8 with (21 + 10 * Z.of_nat 7 + Z.of_nat 0).
      change 0 with (Z.of_nat 0) at 1.
      rewrite (placement_gen P HT 64 7 0 0 65); [| lia .. | intros; lia].
      change (rank_row 7 (0 - 0) ++ scan_ranks 7) with scan_order. rewrite Hsf. reflexivity.
    + intros p. destruct (valid_piece p) eqn:Hv.
      * pose proof (valid_piece_bounds p Hv) as Hr.
        rewrite Hpos by lia. rewrite (proj2 (Nat.eqb_neq _ 0)) by lia. rewrite Z2Nat.id by lia.
        apply scan_perm; assumption.
      * unfold squares_of. rewrite Hv.
        destruct (decide (Z.to_nat p < 16)%nat) as [Hk|Hk].
        -- rewrite Hpos by exact Hk. destruct (Z.to_nat p =? 0)%nat eqn:E0; [reflexivity|].
           apply Nat.eqb_neq in E0. rewrite Z2Nat.id by lia. rewrite filter_none; [reflexivity|].
           intros x Hx. destruct (Z.eqb_spec (pieces P !!! Z.to_nat x) p) as [E|E]; [|reflexivity].
           destruct (scan_order_range x Hx) as [Hr _].
           destruct (HT (Z.to_nat x)) as [H0 | [_ Hvp]]; [lia | rewrite H0 in E; unfold INVALID_PIECE in E; lia |].
           rewrite E, Hv in Hvp. discriminate.
        -- rewrite list_lookup_total_alt, lookup_ge_None_2 by lia. reflexivity.
Qed.

Lemma castle_parse cs r L : 0 <= cs < 16 ->
  L = (if cs =? 0 then ["-"%char] else
         (if Z.land cs WHITE_SHORT =? 0 then [] else ["K"%char])
         ++ (if Z.land cs WHITE_LONG =? 0 then [] else ["Q"%char])
         ++ (if Z.land cs BLACK_SHORT =? 0 then [] else ["k"%char])
         ++ (if Z.land cs BLACK_LONG =? 0 then [] else ["q"%char])) ++ " "%char :: r ->
  (if Ascii.eqb (peek L) "-" then Some (0, drop 1 L) else parse_castle L 0) = Some (cs, " "%char :: r).
Proof.
  intros Hcs ->.
  assert (Hc : cs = 0 \/ cs = 1 \/ cs = 2 \/ cs = 3 \/ cs = 4 \/ cs = 5 \/ cs = 6 \/ cs = 7 \/ cs = 8
    \/ cs = 9 \/ cs = 10 \/ cs = 11 \/ cs = 12 \/ cs = 13 \/ cs = 14 \/ cs = 15) by lia.
  repeat destruct Hc as [-> | Hc]; [..| subst]; reflexivity.
Qed.

Lemma square_rc ep : valid_square ep = true ->
  0 <= get_square_row ep <= 7 /\ 0 <= get_square_col ep <= 7
  /\ get_square_120_rc (get_square_row ep) (get_square_col ep) = ep.
Proof.
  intros Hv. unfold valid_square in Hv. rewrite !andb_true_iff, !Z.leb_le in Hv.
  unfold get_square_row, get_square_col, get_square_120_rc.
  pose proof (Z.div_mod ep 10 ltac:(lia)). lia.
Qed.

Section FenRoundtrip.
Variable ph : Z -> Z -> Z.
Variable ch : Z -> Z.
Variable eh : Z -> Z.
Variable sh : Z.
(** C8 (amended): for a position satisfying [fen_valid], parsing the rendered
    FEN succeeds and gives back the piece array, the piece lists up to order,
    the side to move, the castle rights and the fifty-move and half-move
    clocks; the en-passant target is kept with the same hash, or elided to
    INVALID_SQUARE with the hash changed by the two en-passant keys. *)
Theorem fen_roundtrip (P : board) : fen_valid ph ch eh sh P ->
  exists P', board_of_fen ph ch eh sh (fen P) = Some P'
    /\ pieces P' = pieces P /\ (forall p, Permutation (plist P' p) (plist P p))
    /\ next_move_colour P' = next_move_colour P /\ castle_state P' = castle_state P
    /\ fifty_move P' = fifty_move P /\ half_move P' = half_move P
    /\ ((en_passant P' = en_passant P /\ hash P' = hash P)
        \/ (en_passant P' = INVALID_SQUARE
            /\ hash P' = Z.lxor (Z.lxor (hash P) (eh (en_passant P))) (eh INVALID_SQUARE))).
Proof.
  intros [[Hh Hl] [Hlq Hlp Hm] Hcells Hcnt Hcs Hep Hf Hhalf Hpar].
  assert (Hc : forall p, valid_piece p = true -> (length (squares_of (pieces P) p) <= MAX_PIECE_FREQ)%nat).
  { intros p _. rewrite <- (Permutation_length (Hm p)). apply Hcnt. }
  unfold board_of_fen, fen. rewrite list_ascii_of_string_of_list_ascii.
  cbn [app].
  match goal with |- context [parse_placement (fen_placement 65 P A8 0 ++ " "%char :: ?r)] => set (rest := r) end.
  destruct (placement_roundtrip P rest Hlp Hcells Hc) as (pos' & Hpp & Hpl & Hpq).
  rewrite Hpp. subst rest.
  remember (show_dec (fifty_move P)) as F1 eqn:HF1.
  remember (show_dec (half_move P / 2)) as F2 eqn:HF2.
  remember (string_from_square (en_passant P)) as EPS eqn:HEPS.
  cbn -[compute_hash].
  destruct (next_move_colour P) eqn:Hcol; cbn -[compute_hash];
    rewrite drop_0; (erewrite castle_parse; [| exact Hcs | reflexivity]); cbn -[compute_hash].
  all: destruct Hep as [He0 | [Hev Her]]; rewrite ?drop_0.
  1,3: rewrite He0 in HEPS; cbn in HEPS; subst EPS; cbn -[compute_hash].
  3,4: unfold string_from_square in HEPS; rewrite Hev in HEPS; subst EPS;
       destruct (square_rc _ Hev) as (Hr & Hcl & Hrc);
       cbn -[compute_hash chr ord get_square_row get_square_col get_square_120_rc];
       rewrite chr_neq by (change (ord "-"%char) with 45; lia);
       rewrite !ord_chr by lia;
       replace (49 + get_square_row (en_passant P) - 49) with (get_square_row (en_passant P)) by lia;
       replace (97 + get_square_col (en_passant P) - 97) with (get_square_col (en_passant P)) by lia;
       rewrite Hrc, Her; cbn -[compute_hash];
       destruct (_ && _) eqn:Hel; cbn -[compute_hash].
  all: rewrite drop_0; subst F1; rewrite parse_fifty_show by lia; cbn -[compute_hash show_dec];
    rewrite drop_0; subst F2; rewrite parse_full_show
      by (split; [apply Z.div_pos; lia | apply (Z.le_lt_trans _ (half_move P)); [apply Z.div_le_upper_bound; lia | lia]]);
    cbn -[compute_hash]; eexists; (split; [reflexivity|]); cbn [pieces positions next_move_colour castle_state
      fifty_move half_move en_passant hash set_hash plist].
  all: split_and!; [reflexivity | intros p; apply (lists_match_perm pos' (pieces P) (positions P) (pieces P) p Hpl Hm eq_refl)
    | reflexivity | reflexivity | reflexivity | |].
  all: try (unfold u32; pose proof (Z.div_mod (half_move P) 2 ltac:(lia)) as Hdm;
            rewrite ?Hcol in Hpar; cbn in Hpar; rewrite Z.mod_small; lia).
  all: rewrite Hh; unfold compute_hash, piece_at;
    cbn [pieces positions next_move_colour castle_state fifty_move half_move en_passant hash];
    rewrite ?Hcol; unfold WHITE, BLACK.
  all: first [ left; split; reflexivity
             | right; split; [reflexivity|];
               apply Z.bits_inj'; intros n _; rewrite !Z.lxor_spec;
               repeat match goal with |- context [Z.testbit ?x n] => destruct (Z.testbit x n) end;
               reflexivity ].
Qed.
End FenRoundtrip.

Lemma cells_check (ps : list Z) :
  forallb (fun n => (ps !!! n =? INVALID_PIECE)
                    || (valid_square (Z.of_nat n) && valid_piece (ps !!! n))) (seq 0 120) = true ->
  forall n, (n < 120)%nat -> ps !!! n = INVALID_PIECE
    \/ (valid_square (Z.of_nat n) = true /\ valid_piece (ps !!! n) = true).
Proof.
  intros Hc n Hn. rewrite forallb_forall in Hc.
  specialize (Hc n ltac:(apply in_seq; lia)).
  apply orb_true_iff in Hc as [H|H].
  - left. apply Z.eqb_eq. exact H.
  - right. apply andb_true_iff in H. exact H.
Qed.

Lemma counts_check (B : board) : length (positions B) = 16%nat ->
  forallb (fun l => Nat.leb (length l) MAX_PIECE_FREQ) (positions B) = true ->
  forall p, (length (plist B p) <= MAX_PIECE_FREQ)%nat.
Proof.
  intros Hl Hc p. unfold plist.
  destruct (decide (Z.to_nat p < 16)%nat) as [Hp|Hp].
  - rewrite forallb_forall in Hc.
    assert (Hin : In (positions B !!! Z.to_nat p) (positions B)).
    { apply list_elem_of_In. apply (list_elem_of_lookup_2 _ (Z.to_nat p)).
      apply list_lookup_lookup_total_lt. lia. }
    specialize (Hc _ Hin). apply Nat.leb_le in Hc. exact Hc.
  - rewrite list_lookup_total_alt, lookup_ge_None_2 by lia. cbn. unfold MAX_PIECE_FREQ. lia.
Qed.

Lemma lists_match_perm_table pos ps :
  length pos = 16%nat ->
  forallb (fun n => bool_decide (Permutation (pos !!! n) (squares_of ps (Z.of_nat n)))) (seq 0 16) = true ->
  lists_match pos ps.
Proof.
  intros Hl Ht p. rewrite forallb_forall in Ht.
  destruct (Z_lt_le_dec p 0) as [Hn|Hn]; [|destruct (Z_lt_le_dec p 16) as [Hp|Hp]].
  - assert (Hv : valid_piece p = false) by (unfold valid_piece; rewrite (proj2 (Z.leb_gt 0 p)) by lia; reflexivity).
    specialize (Ht 0%nat ltac:(apply in_seq; lia)). apply bool_decide_eq_true in Ht.
    replace (Z.to_nat p) with 0%nat by lia. rewrite Ht.
    unfold squares_of. rewrite Hv. reflexivity.
  - specialize (Ht (Z.to_nat p) ltac:(apply in_seq; lia)). apply bool_decide_eq_true in Ht.
    rewrite Z2Nat.id in Ht by lia. exact Ht.
  - assert (Hv : valid_piece p = false)
      by (unfold valid_piece; rewrite (proj2 (Z.ltb_ge p 16)) by lia; rewrite andb_false_r; reflexivity).
    rewrite list_lookup_total_alt, lookup_ge_None_2 by lia. cbn.
    unfold squares_of. rewrite Hv. reflexivity.
Qed.

Lemma fen_roundtrip_witness :
  let P := demo_board "rnbqkbnr/pppppppp/8/8/4P3/8/PPPP1PPP/RNBQKBNR b KQkq e3 0 1" in
  fen_valid demo_piece_hash demo_castle_hash demo_enpas_hash demo_side_hash P
  /\ exists P', board_of_fen demo_piece_hash demo_castle_hash demo_enpas_hash demo_side_hash (fen P) = Some P'
    /\ pieces P' = pieces P /\ (forall p, Permutation (plist P' p) (plist P p))
    /\ next_move_colour P' = next_move_colour P /\ castle_state P' = castle_state P
    /\ fifty_move P' = fifty_move P /\ half_move P' = half_move P
    /\ ((en_passant P' = en_passant P /\ hash P' = hash P)
        \/ (en_passant P' = INVALID_SQUARE
            /\ hash P' = Z.lxor (Z.lxor (hash P) (demo_enpas_hash (en_passant P)))
                                (demo_enpas_hash INVALID_SQUARE))).
Proof.
  intros P.
  assert (Hv : fen_valid demo_piece_hash demo_castle_hash demo_enpas_hash demo_side_hash P).
  { split.
    - split; vm_compute; reflexivity.
    - split; [vm_compute; reflexivity|vm_compute; reflexivity|].
      apply lists_match_perm_table; vm_compute; reflexivity.
    - apply cells_check. vm_compute. reflexivity.
    - apply counts_check; vm_compute; reflexivity.
    - replace (castle_state P) with 15 by (vm_compute; reflexivity). lia.
    - left. vm_compute. reflexivity.
    - replace (fifty_move P) with 0 by (vm_compute; reflexivity). lia.
    - replace (half_move P) with 3 by (vm_compute; reflexivity). lia.
    - vm_compute. reflexivity. }
  split; [exact Hv|].
  exact (fen_roundtrip demo_piece_hash demo_castle_hash demo_enpas_hash demo_side_hash P Hv).
Defined.

(* ------------------------------------------------------------------ *)
(** ** Further properties of the primitives *)

Ltac xor_bits :=
  apply Z.bits_inj'; intros ? ?; rewrite ?Z.lxor_spec;
  repeat match goal with |- context [Z.testbit ?x ?n] => destruct (Z.testbit x n) end;
  reflexivity.

(** X1: [set_castle_state] back to the old state restores the board, hash included. *)
Lemma set_castle_state_roundtrip ch st B :
  set_castle_state ch (castle_state B) (set_castle_state ch st B) = B.
Proof. destruct B. unfold set_castle_state, set_castle, set_hash. cbn. f_equal. xor_bits. Qed.

(** X2: [set_en_passant] back to the old square restores the board, hash included. *)
Lemma set_en_passant_roundtrip eh sq B :
  set_en_passant eh (en_passant B) (set_en_passant eh sq B) = B.
Proof. destruct B. unfold set_en_passant, set_ep, set_hash. cbn. f_equal. xor_bits. Qed.

(** X3: [switch_colours] twice is the identity, hash included. *)
Lemma switch_colours_involutive sh B : switch_colours sh (switch_colours sh B) = B.
Proof.
  destruct B. unfold switch_colours, set_colour, set_hash. cbn. rewrite negb_involutive.
  f_equal. xor_bits.
Qed.

Lemma strip_castling_idem sq cs : strip_castling sq (strip_castling sq cs) = strip_castling sq cs.
Proof.
  unfold strip_castling.
  destruct ((sq =? E1) || (sq =? A1)), ((sq =? E1) || (sq =? H1)),
    ((sq =? E8) || (sq =? A8)), ((sq =? E8) || (sq =? H8));
    apply Z.bits_inj'; intros n Hn; rewrite ?Z.land_spec, ?Z.lnot_spec by lia;
    repeat match goal with |- context [Z.testbit ?x ?n] => destruct (Z.testbit x n) end;
    reflexivity.
Qed.

(** X4: [update_castling] applied twice for the same square and piece is applied once. *)
Lemma update_castling_idem ch sq moved B :
  update_castling ch sq moved (update_castling ch sq moved B) = update_castling ch sq moved B.
Proof.
  unfold update_castling. destruct (is_castle moved); cbn; [|reflexivity].
  destruct B. unfold set_castle, set_hash. cbn. rewrite strip_castling_idem. f_equal. xor_bits.
Qed.

(** X5: [update_castling] leaves the board unchanged when the piece is no king or rook or the square is none of E1, A1, H1, E8, A8 and H8. *)
Lemma update_castling_off_homes ch sq moved B :
  is_castle moved = false \/ ~ In sq [E1; A1; H1; E8; A8; H8] ->
  update_castling ch sq moved B = B.
Proof.
  unfold update_castling. intros [Hc | Hn].
  - rewrite Hc. reflexivity.
  - destruct (negb _); [reflexivity|].
    assert (Hs : strip_castling sq (castle_state B) = castle_state B).
    { unfold strip_castling.
      rewrite !(proj2 (Z.eqb_neq _ _)) by (intros ->; apply Hn; cbn; tauto). reflexivity. }
    rewrite Hs. destruct B. unfold set_castle, set_hash. cbn. f_equal. xor_bits.
Qed.

Lemma update_castling_off_homes_witness :
  (is_castle WHITE_KING = false \/ ~ In E2 [E1; A1; H1; E8; A8; H8])
  /\ update_castling demo_castle_hash E2 WHITE_KING (demo_board startFEN) = demo_board startFEN.
Proof.
  assert (H : is_castle WHITE_KING = false \/ ~ In E2 [E1; A1; H1; E8; A8; H8])
    by (right; vm_compute; intuition discriminate).
  split; [exact H|]. exact (update_castling_off_homes demo_castle_hash E2 WHITE_KING _ H).
Defined.

(** X6: [add_piece] of the removed piece after a successful [remove_piece] restores the cells and the hash; the lists come back up to order. *)
Lemma remove_add_roundtrip ph sq B B1 :
  (Z.to_nat sq < length (pieces B))%nat ->
  remove_piece ph sq B = Some B1 ->
  exists pos, add_piece ph sq (piece_at B sq) B1 = Some (set_positions pos B)
    /\ forall p, Permutation (pos !!! Z.to_nat p) (plist B p).
Proof.
  intros Hlen H. unfold remove_piece in H.
  destruct (negb (valid_piece (piece_at B sq))) eqn:Hv; [discriminate|].
  apply negb_false_iff in Hv.
  destruct (find_index sq (plist B (piece_at B sq))) as [i|] eqn:Hf; [|discriminate].
  injection H as <-. apply find_index_lookup in Hf.
  pose proof (swap_remove_perm _ _ _ Hf) as Hp.
  set (piece := piece_at B sq) in *. set (l := plist B piece) in *.
  assert (Hpl : (Z.to_nat piece < length (positions B))%nat).
  { destruct (decide (Z.to_nat piece < length (positions B))%nat) as [|Hn]; [assumption|].
    exfalso. apply lookup_lt_Some in Hf. unfold l, plist in Hf.
    rewrite list_lookup_total_alt in Hf.
    rewrite (lookup_ge_None_2 (positions B)) in Hf by lia. cbn in Hf. lia. }
  exists (<[Z.to_nat piece := swap_remove i l ++ [sq]]> (positions B)).
  unfold add_piece. rewrite Hv. cbn [negb].
  unfold piece_at at 1; cbn [pieces set_hash set_positions set_pieces].
  rewrite list_lookup_total_insert_eq by exact Hlen. cbn [Z.eqb negb].
  split.
  - unfold plist at 1. cbn [positions set_hash set_positions set_pieces].
    rewrite list_lookup_total_insert_eq by exact Hpl.
    rewrite list_insert_insert_eq.
    rewrite list_insert_insert_eq.
    assert (Hps : <[Z.to_nat sq := piece]> (pieces B) = pieces B).
    { apply list_insert_id. unfold piece, piece_at.
      apply list_lookup_lookup_total_lt. exact Hlen. }
    rewrite Hps. destruct B as [ps pos c cs ep f h hh hs].
    unfold set_hash, set_positions, set_pieces. cbn. do 2 f_equal. xor_bits.
  - intros p. unfold plist.
    destruct (decide (Z.to_nat p = Z.to_nat piece)) as [E|E].
    + rewrite E, list_lookup_total_insert_eq by exact Hpl.
      change (positions B !!! Z.to_nat piece) with l.
      rewrite Permutation_app_comm. symmetry. exact Hp.
    + rewrite list_lookup_total_insert_ne by congruence. reflexivity.
Qed.

Lemma find_index_first x l i :
  ~ In x (take i l) -> l !! i = Some x -> find_index x l = Some i.
Proof.
  revert i. induction l as [|y l IH]; intros [|i] Hn Hi; cbn in *; try discriminate.
  - injection Hi as ->. rewrite Z.eqb_refl. reflexivity.
  - rewrite (proj2 (Z.eqb_neq y x)) by tauto. rewrite (IH i) by tauto. reflexivity.
Qed.

Lemma move_cells_restore (ps : list Z) (f t : nat) (p : Z) :
  (f < length ps)%nat -> (t < length ps)%nat -> ps !!! f = p -> ps !!! t = INVALID_PIECE ->
  <[f := p]> (<[t := INVALID_PIECE]> (<[t := p]> (<[f := INVALID_PIECE]> ps))) = ps.
Proof.
  intros Hf Ht Hp Hz. apply list_eq_total; [rewrite !length_insert; reflexivity|].
  intros k Hk. rewrite !list_lookup_total_insert, !length_insert.
  repeat destruct (decide _) as [[? _]|?]; subst; try lia; congruence.
Qed.

(** X7: [move_piece] back from [to] to [from] after a successful [move_piece] restores the board exactly, when [to] was not in the piece's list. *)
Lemma move_piece_reverse ph from to B B1 :
  (Z.to_nat from < length (pieces B))%nat -> (Z.to_nat to < length (pieces B))%nat ->
  ~ In to (plist B (piece_at B from)) ->
  move_piece ph from to B = Some B1 ->
  move_piece ph to from B1 = Some B.
Proof.
  intros Hlf Hlt Hn H. unfold move_piece in H.
  destruct (negb (piece_at B to =? INVALID_PIECE)) eqn:He; [discriminate|].
  apply negb_false_iff, Z.eqb_eq in He.
  destruct (find_index from (plist B (piece_at B from))) as [i|] eqn:Hf; [|discriminate].
  injection H as <-. apply find_index_lookup in Hf.
  set (piece := piece_at B from) in *. set (l := plist B piece) in *.
  assert (Hpl : (Z.to_nat piece < length (positions B))%nat).
  { destruct (decide (Z.to_nat piece < length (positions B))%nat) as [|Hn']; [assumption|].
    exfalso. apply lookup_lt_Some in Hf. unfold l, plist in Hf.
    rewrite list_lookup_total_alt in Hf.
    rewrite (lookup_ge_None_2 (positions B)) in Hf by lia. cbn in Hf. lia. }
  assert (Hil : (i < length l)%nat) by (eapply lookup_lt_Some; exact Hf).
  unfold move_piece. unfold piece_at at 1 2. unfold plist at 1.
  cbn [pieces positions set_hash set_positions set_pieces].
  assert (Hto : <[Z.to_nat to := piece]> (<[Z.to_nat from := INVALID_PIECE]> (pieces B))
                  !!! Z.to_nat to = piece).
  { rewrite list_lookup_total_insert_eq by (rewrite length_insert; exact Hlt). reflexivity. }
  assert (Hfrom : <[Z.to_nat to := piece]> (<[Z.to_nat from := INVALID_PIECE]> (pieces B))
                  !!! Z.to_nat from = INVALID_PIECE).
  { rewrite list_lookup_total_insert, length_insert.
    destruct (decide _) as [[E _]|].
    - unfold piece, piece_at. rewrite <- E. exact He.
    - rewrite list_lookup_total_insert_eq by exact Hlf. reflexivity. }
  rewrite Hto, Hfrom. cbn [Z.eqb negb].
  rewrite list_lookup_total_insert_eq by exact Hpl.
  rewrite (find_index_first to (<[i:=to]> l) i).
  2:{ rewrite take_insert, decide_False by lia. intros Hin. apply Hn.
      rewrite <- (take_drop i l). apply in_or_app. left. exact Hin. }
  2:{ apply list_lookup_insert_eq. exact Hil. }
  f_equal. unfold piece_at; cbn [pieces positions hash set_hash set_positions set_pieces].
  rewrite Hto. rewrite move_cells_restore by (try exact Hlf; try exact Hlt; try exact He; reflexivity).
  unfold plist at 1; cbn [positions set_hash set_positions set_pieces].
  rewrite list_lookup_total_insert_eq by exact Hpl.
  rewrite (list_insert_insert_eq (positions B)), (list_insert_insert_eq l).
  rewrite (list_insert_id l i from) by exact Hf.
  rewrite (list_insert_id (positions B) (Z.to_nat piece) l)
    by (unfold l, plist; apply list_lookup_lookup_total_lt; exact Hpl).
  destruct B as [ps pos c cs ep fm hm hh hs]. unfold set_hash, set_positions, set_pieces. cbn.
  f_equal. xor_bits.
Qed.

Lemma remove_add_roundtrip_witness :
  let B := demo_board startFEN in
  let B1 := match remove_piece demo_piece_hash E2 B with Some b => b | None => B end in
  (Z.to_nat E2 < length (pieces B))%nat /\ remove_piece demo_piece_hash E2 B = Some B1
  /\ exists pos, add_piece demo_piece_hash E2 (piece_at B E2) B1 = Some (set_positions pos B)
       /\ forall p, Permutation (pos !!! Z.to_nat p) (plist B p).
Proof.
  intros B B1.
  assert (Hl : (Z.to_nat E2 < length (pieces B))%nat) by (vm_compute; lia).
  assert (Hr : remove_piece demo_piece_hash E2 B = Some B1) by (vm_compute; reflexivity).
  split; [exact Hl|]. split; [exact Hr|].
  exact (remove_add_roundtrip demo_piece_hash E2 B B1 Hl Hr).
Defined.

Lemma move_piece_reverse_witness :
  let B := demo_board startFEN in
  let B1 := match move_piece demo_piece_hash E2 E4 B with Some b => b | None => B end in
  (Z.to_nat E2 < length (pieces B))%nat /\ (Z.to_nat E4 < length (pieces B))%nat
  /\ ~ In E4 (plist B (piece_at B E2)) /\ move_piece demo_piece_hash E2 E4 B = Some B1
  /\ move_piece demo_piece_hash E4 E2 B1 = Some B.
Proof.
  intros B B1.
  assert (H1 : (Z.to_nat E2 < length (pieces B))%nat) by (vm_compute; lia).
  assert (H2 : (Z.to_nat E4 < length (pieces B))%nat) by (vm_compute; lia).
  assert (H3 : ~ In E4 (plist B (piece_at B E2))) by (vm_compute; intuition discriminate).
  assert (H4 : move_piece demo_piece_hash E2 E4 B = Some B1) by (vm_compute; reflexivity).
  split; [exact H1|]. split; [exact H2|]. split; [exact H3|]. split; [exact H4|].
  exact (move_piece_reverse demo_piece_hash E2 E4 B B1 H1 H2 H3 H4).
Defined.


(* ------------------------------------------------------------------ *)
(** ** Further properties of make_move and unmake_move *)

(** X8: [make_move] resets the fifty-move clock on a capture or a pawn move, increments it otherwise, and increments the half-move clock (modulo 2^32). *)
Lemma make_move_clocks ph ch eh sh m B B' v :
  make_move ph ch eh sh m B = Some (B', v) ->
  fifty_move B' = (if move_captured m || is_pawn (moved_piece m) then 0
                   else u32 (fifty_move B + 1))
  /\ half_move B' = u32 (half_move B + 1).
Proof.
  unfold make_move. destruct (make_motion _ _ _ _ _) as [B1|] eqn:Hm; [|discriminate].
  cbn. intros [= <- _]. apply make_motion_meta in Hm as (_ & _ & Hh & Hf).
  cbn in Hh, Hf. destruct (_ || _); cbn; split; congruence.
Qed.

(** X9: after [make_move] the en-passant target is the square behind [to] for a double pawn move, and INVALID_SQUARE for every other move. *)
Lemma make_move_en_passant ph ch eh sh m B B' v :
  make_move ph ch eh sh m B = Some (B', v) ->
  en_passant B' =
    (if decide (move_flag m = DOUBLE_PAWN_MOVE)
     then (if Bool.eqb (next_move_colour B) WHITE then move_to m - 10 else move_to m + 10)
     else INVALID_SQUARE).
Proof.
  unfold make_move. destruct (make_motion _ _ _ _ _) as [B1|] eqn:Hm; [|discriminate].
  cbn. intros [= <- _]. apply make_motion_ep in Hm. cbn in Hm.
  destruct (_ || _); cbn; exact Hm.
Qed.

(** X10: a successful [unmake_move] pops one history entry and restores the castle state, en-passant target, fifty-move clock and hash it recorded, decrements the half-move clock and switches the side. *)
Lemma unmake_move_restores_record ph ch eh sh B B' :
  unmake_move ph ch eh sh B = Some B' ->
  exists e, history B = e :: history B'
    /\ castle_state B' = h_castle_state e /\ en_passant B' = h_en_passant e
    /\ fifty_move B' = h_fifty_move e /\ half_move B' = half_move B - 1
    /\ next_move_colour B' = negb (next_move_colour B) /\ hash B' = h_hash e
    /\ half_move B <> 0.
Proof.
  unfold unmake_move. destruct (history B) as [|e hs] eqn:Hh; [discriminate|].
  cbn. destruct (half_move B =? 0) eqn:Hz; [discriminate|]. apply Z.eqb_neq in Hz.
  destruct (unmake_motion _ _ _) as [B1|] eqn:Hm; [|discriminate]. cbn.
  destruct (hash B1 =? h_hash e) eqn:Hq; [|discriminate]. apply Z.eqb_eq in Hq.
  intros [= <-]. apply unmake_motion_frame in Hm as ((Hhist & Hc & Hhalf & Hf) & Hcs & Hep).
  cbn in *. exists e. rewrite Hhist, Hc, Hhalf, Hf, Hcs, Hep.
  repeat split; try reflexivity; try exact Hq; exact Hz.
Qed.

Lemma remove_piece_cells ph sq B B' :
  remove_piece ph sq B = Some B' -> pieces B' = <[Z.to_nat sq := INVALID_PIECE]> (pieces B).
Proof.
  unfold remove_piece. destruct (negb _); [discriminate|].
  destruct (find_index _ _); [|discriminate]. intros [= <-]. reflexivity.
Qed.

Lemma add_piece_cells ph sq p B B' :
  add_piece ph sq p B = Some B' -> pieces B' = <[Z.to_nat sq := p]> (pieces B).
Proof.
  unfold add_piece. destruct (negb _); [discriminate|]. destruct (negb _); [discriminate|].
  intros [= <-]. reflexivity.
Qed.

Lemma move_piece_cells ph from to B B' :
  move_piece ph from to B = Some B' ->
  pieces B' = <[Z.to_nat to := piece_at B from]> (<[Z.to_nat from := INVALID_PIECE]> (pieces B)).
Proof.
  unfold move_piece. destruct (negb _); [discriminate|].
  destruct (find_index _ _); [|discriminate]. intros [= <-]. reflexivity.
Qed.

(** Decompose a successful chain of primitives into the cell updates. *)
Ltac cell_steps :=
  repeat match goal with
  | H : _ ≫= _ = Some _ |- _ => apply bind_Some in H as (?b & ?Fb & H)
  | H : Some _ = Some _ |- _ => injection H as H; subst
  | H : remove_piece _ _ _ = Some _ |- _ =>
      let E := fresh "E" in pose proof (remove_piece_cells _ _ _ _ H) as E;
      apply remove_piece_frame in H as (?Fm & ?Fc & ?Fe)
  | H : add_piece _ _ _ _ = Some _ |- _ =>
      let E := fresh "E" in pose proof (add_piece_cells _ _ _ _ _ H) as E;
      apply add_piece_frame in H as (?Fm & ?Fc & ?Fe)
  | H : move_piece _ _ _ _ = Some _ |- _ =>
      let E := fresh "E" in pose proof (move_piece_cells _ _ _ _ _ H) as E;
      apply move_piece_frame in H as (?Fm & ?Fc & ?Fe)
  end.

Lemma make_move_cells ph ch eh sh m B B' v :
  make_move ph ch eh sh m B = Some (B', v) ->
  exists B1, make_motion ph ch eh m (set_half (u32 (half_move B + 1))
      (set_history (mk_history m (castle_state B) (en_passant B) (fifty_move B) (hash B)
         :: history B) B)) = Some B1
    /\ pieces B' = pieces B1 /\ castle_state B' = castle_state B1.
Proof.
  unfold make_move. destruct (make_motion _ _ _ _ _) as [B1|] eqn:Hm; [|discriminate].
  cbn. intros [= <- _]. exists B1. split; [reflexivity|]. destruct (_ || _); split; reflexivity.
Qed.

(** X12: a quiet, double pawn or capture move puts the moved piece on [to], empties [from], and leaves every other cell alone. *)
Lemma make_move_moves_piece ph ch eh sh m B B' v :
  move_flag m = QUIET_MOVE \/ move_flag m = DOUBLE_PAWN_MOVE \/ move_flag m = CAPTURE_MOVE ->
  (Z.to_nat (move_from m) < length (pieces B))%nat -> (Z.to_nat (move_to m) < length (pieces B))%nat ->
  Z.to_nat (move_from m) <> Z.to_nat (move_to m) ->
  make_move ph ch eh sh m B = Some (B', v) ->
  piece_at B' (move_to m) = piece_at B (move_from m)
  /\ piece_at B' (move_from m) = INVALID_PIECE
  /\ forall sq, Z.to_nat sq <> Z.to_nat (move_from m) -> Z.to_nat sq <> Z.to_nat (move_to m) ->
       piece_at B' sq = piece_at B sq.
Proof.
  intros Hflag Hf Ht Hne H. apply make_move_cells in H as (B1 & Hm & Hp & _).
  unfold piece_at. rewrite Hp. clear Hp.
  unfold make_motion, move_promoted, move_castled, update_castling in Hm.
  destruct Hflag as [E | [E | E]]; rewrite E in Hm; cbn iota in Hm;
    repeat case_match; try discriminate; cell_steps; unfold piece_at in *; cbn in *;
    repeat match goal with H : pieces _ = _ |- _ => rewrite H in *; clear H end;
    cbn;
    (split; [|split; [|intros sq Hs1 Hs2]]);
    rewrite ?list_lookup_total_insert, ?length_insert;
    repeat case_decide; try lia; try reflexivity.
Qed.

(** X13: a promotion puts the promoted piece on [to], empties [from], leaves every other cell alone and clears the en-passant target. *)
Lemma make_move_promotion ph ch eh sh m B B' v :
  move_promoted m = true ->
  (Z.to_nat (move_from m) < length (pieces B))%nat -> (Z.to_nat (move_to m) < length (pieces B))%nat ->
  Z.to_nat (move_from m) <> Z.to_nat (move_to m) ->
  make_move ph ch eh sh m B = Some (B', v) ->
  piece_at B' (move_to m) = promoted_piece m
  /\ piece_at B' (move_from m) = INVALID_PIECE
  /\ (forall sq, Z.to_nat sq <> Z.to_nat (move_from m) -> Z.to_nat sq <> Z.to_nat (move_to m) ->
       piece_at B' sq = piece_at B sq)
  /\ en_passant B' = INVALID_SQUARE.
Proof.
  intros Hpr Hf Ht Hne H. pose proof (make_move_en_passant _ _ _ _ _ _ _ _ H) as Hep.
  apply make_move_cells in H as (B1 & Hm & Hp & _).
  rewrite Hep. unfold move_promoted in Hpr.
  destruct (move_flag m) eqn:E; try discriminate Hpr; cbn [decide_rel decide] in *;
    (split; [|split; [|split; [|reflexivity]]]);
  unfold piece_at; rewrite Hp; clear Hp Hep;
    unfold make_motion, move_promoted, move_castled, move_captured in Hm; rewrite E in Hm;
    cbn iota in Hm;
    repeat case_match; try discriminate; cell_steps; unfold piece_at in *; cbn in *;
    repeat match goal with H : pieces _ = _ |- _ => rewrite H in *; clear H end;
    cbn; try intros sq Hs1 Hs2;
    rewrite ?list_lookup_total_insert, ?length_insert;
    repeat case_decide; try lia; try reflexivity.
Qed.

(** X14: a castle move relocates king and rook along their route, empties both origins, leaves every other cell alone, clears the side's castle rights and the en-passant target. *)
Lemma make_move_castle ph ch eh sh m B B' v :
  move_castled m = true -> length (pieces B) = 120%nat ->
  make_move ph ch eh sh m B = Some (B', v) ->
  let '(kf, kt, rf, rt) := castle_route (next_move_colour B) (move_flag m) in
  piece_at B' kt = piece_at B kf /\ piece_at B' rt = piece_at B rf
  /\ piece_at B' kf = INVALID_PIECE /\ piece_at B' rf = INVALID_PIECE
  /\ (forall sq, ~ In sq [kf; kt; rf; rt] -> piece_at B' sq = piece_at B sq)
  /\ castle_state B' = Z.land (castle_state B) (Z.lnot (castle_rights_of (next_move_colour B)))
  /\ en_passant B' = INVALID_SQUARE.
Proof.
  intros Hc Hl H. pose proof (make_move_en_passant _ _ _ _ _ _ _ _ H) as Hep.
  apply make_move_cells in H as (B1 & Hm & Hp & Hcs).
  rewrite Hep, Hcs. unfold move_castled in Hc. clear Hep Hcs.
  unfold piece_at. rewrite Hp. clear Hp.
  unfold make_motion, move_promoted, move_castled in Hm.
  unfold castle_route, castle_rights_of.
  unfold E1, G1, H1, F1, C1, A1, D1, E8, G8, H8, F8, C8, A8, D8 in Hm |- *.
  cbn [next_move_colour set_half set_history] in Hm.
  destruct (move_flag m) eqn:E; try discriminate Hc; cbn iota in Hm;
    destruct (next_move_colour B) eqn:Es; unfold WHITE in *; cbn in Hm |- *;
    repeat case_match; try discriminate; cell_steps; unfold piece_at in *; cbn in *;
    repeat match goal with H : pieces _ = _ |- _ => rewrite H in *; clear H end;
    repeat match goal with H : castle_state _ = _ |- _ => rewrite H in *; clear H end;
    cbn;
    (split; [|split; [|split; [|split; [|split; [|split]]]]]);
    try intros sq Hs; rewrite ?list_lookup_total_insert, ?length_insert;
    repeat case_decide; try (cbn in Hs; lia); try lia; try reflexivity.
Qed.


Lemma make_move_clocks_witness :
  let B := demo_board startFEN in
  let m := double_move E2 E4 WHITE_PAWN in
  make_move demo_piece_hash demo_castle_hash demo_enpas_hash demo_side_hash m B = Some (demo_make m B, true)
  /\ fifty_move (demo_make m B) = (if move_captured m || is_pawn (moved_piece m) then 0
                   else u32 (fifty_move B + 1))
  /\ half_move (demo_make m B) = u32 (half_move B + 1).
Proof.
  intros B m.
  assert (H : make_move demo_piece_hash demo_castle_hash demo_enpas_hash demo_side_hash m B = Some (demo_make m B, true)) by (vm_compute; reflexivity).
  split; [exact H|]. exact (make_move_clocks _ _ _ _ _ _ _ _ H).
Defined.

Lemma make_move_promotion_witness :
  let B := demo_board "8/P6k/8/8/8/8/8/K7 w - - 0 1" in
  let m := promote_move 81 91 WHITE_PAWN (Z.lxor WHITE_QUEEN 8) in
  (Z.to_nat (move_from m) < length (pieces B))%nat /\ (Z.to_nat (move_to m) < length (pieces B))%nat
  /\ Z.to_nat (move_from m) <> Z.to_nat (move_to m)
  /\ make_move demo_piece_hash demo_castle_hash demo_enpas_hash demo_side_hash m B = Some (demo_make m B, true)
  /\ piece_at (demo_make m B) (move_to m) = promoted_piece m
  /\ piece_at (demo_make m B) (move_from m) = INVALID_PIECE
  /\ (forall sq, Z.to_nat sq <> Z.to_nat (move_from m) -> Z.to_nat sq <> Z.to_nat (move_to m) ->
       piece_at (demo_make m B) sq = piece_at B sq)
  /\ en_passant (demo_make m B) = INVALID_SQUARE.
Proof.
  intros B m.
  assert (H1 : (Z.to_nat (move_from m) < length (pieces B))%nat) by (vm_compute; lia).
  assert (H2 : (Z.to_nat (move_to m) < length (pieces B))%nat) by (vm_compute; lia).
  assert (H3 : Z.to_nat (move_from m) <> Z.to_nat (move_to m)) by (vm_compute; lia).
  assert (H : make_move demo_piece_hash demo_castle_hash demo_enpas_hash demo_side_hash m B = Some (demo_make m B, true)) by (vm_compute; reflexivity).
  split; [exact H1|]. split; [exact H2|]. split; [exact H3|]. split; [exact H|].
  exact (make_move_promotion _ _ _ _ m B _ _ eq_refl H1 H2 H3 H).
Defined.

Lemma make_move_en_passant_witness :
  let B := demo_board startFEN in
  let m := double_move E2 E4 WHITE_PAWN in
  make_move demo_piece_hash demo_castle_hash demo_enpas_hash demo_side_hash m B = Some (demo_make m B, true)
  /\ en_passant (demo_make m B) =
    (if decide (move_flag m = DOUBLE_PAWN_MOVE)
     then (if Bool.eqb (next_move_colour B) WHITE then move_to m - 10 else move_to m + 10)
     else INVALID_SQUARE).
Proof.
  intros B m.
  assert (H : make_move demo_piece_hash demo_castle_hash demo_enpas_hash demo_side_hash m B
              = Some (demo_make m B, true)) by (vm_compute; reflexivity).
  split; [exact H|]. exact (make_move_en_passant _ _ _ _ _ _ _ _ H).
Defined.



Lemma unmake_move_restores_record_witness :
  let B := demo_make (double_move E2 E4 WHITE_PAWN) (demo_board startFEN) in
  let B' := match unmake_move demo_piece_hash demo_castle_hash demo_enpas_hash demo_side_hash B
            with Some b => b | None => B end in
  unmake_move demo_piece_hash demo_castle_hash demo_enpas_hash demo_side_hash B = Some B'
  /\ exists e, history B = e :: history B'
    /\ castle_state B' = h_castle_state e /\ en_passant B' = h_en_passant e
    /\ fifty_move B' = h_fifty_move e /\ half_move B' = half_move B - 1
    /\ next_move_colour B' = negb (next_move_colour B) /\ hash B' = h_hash e
    /\ half_move B <> 0.
Proof.
  intros B B'.
  assert (H : unmake_move demo_piece_hash demo_castle_hash demo_enpas_hash demo_side_hash B = Some B')
    by (vm_compute; reflexivity).
  split; [exact H|]. exact (unmake_move_restores_record _ _ _ _ _ _ H).
Defined.

Lemma make_move_moves_piece_witness :
  let B := demo_board startFEN in
  let m := quiet_move B1 C3 WHITE_KNIGHT in
  (Z.to_nat (move_from m) < length (pieces B))%nat /\ (Z.to_nat (move_to m) < length (pieces B))%nat
  /\ Z.to_nat (move_from m) <> Z.to_nat (move_to m)
  /\ make_move demo_piece_hash demo_castle_hash demo_enpas_hash demo_side_hash m B = Some (demo_make m B, true)
  /\ piece_at (demo_make m B) (move_to m) = piece_at B (move_from m)
  /\ piece_at (demo_make m B) (move_from m) = INVALID_PIECE
  /\ forall sq, Z.to_nat sq <> Z.to_nat (move_from m) -> Z.to_nat sq <> Z.to_nat (move_to m) ->
       piece_at (demo_make m B) sq = piece_at B sq.
Proof.
  intros B m.
  assert (Hq : move_flag m = QUIET_MOVE \/ move_flag m = DOUBLE_PAWN_MOVE \/ move_flag m = CAPTURE_MOVE)
    by (left; reflexivity).
  assert (H1 : (Z.to_nat (move_from m) < length (pieces B))%nat) by (vm_compute; lia).
  assert (H2 : (Z.to_nat (move_to m) < length (pieces B))%nat) by (vm_compute; lia).
  assert (H3 : Z.to_nat (move_from m) <> Z.to_nat (move_to m)) by (vm_compute; lia).
  assert (H : make_move demo_piece_hash demo_castle_hash demo_enpas_hash demo_side_hash m B
              = Some (demo_make m B, true)) by (vm_compute; reflexivity).
  split; [exact H1|]. split; [exact H2|]. split; [exact H3|]. split; [exact H|].
  exact (make_move_moves_piece _ _ _ _ m B _ _ Hq H1 H2 H3 H).
Defined.

Lemma make_move_castle_witness :
  let B := demo_board "r3k2r/8/8/8/8/8/8/R3K2R w KQkq - 0 1" in
  let m := castle_move E1 G1 WHITE_KING SHORT_CASTLE_MOVE in
  let B' := demo_make m B in
  length (pieces B) = 120%nat
  /\ make_move demo_piece_hash demo_castle_hash demo_enpas_hash demo_side_hash m B = Some (B', true)
  /\ let '(kf, kt, rf, rt) := castle_route (next_move_colour B) (move_flag m) in
  piece_at B' kt = piece_at B kf /\ piece_at B' rt = piece_at B rf
  /\ piece_at B' kf = INVALID_PIECE /\ piece_at B' rf = INVALID_PIECE
  /\ (forall sq, ~ In sq [kf; kt; rf; rt] -> piece_at B' sq = piece_at B sq)
  /\ castle_state B' = Z.land (castle_state B) (Z.lnot (castle_rights_of (next_move_colour B)))
  /\ en_passant B' = INVALID_SQUARE.
Proof.
  intros B m B'.
  assert (Hl : length (pieces B) = 120%nat) by (vm_compute; reflexivity).
  assert (H : make_move demo_piece_hash demo_castle_hash demo_enpas_hash demo_side_hash m B
              = Some (B', true)) by (vm_compute; reflexivity).
  split; [exact Hl|]. split; [exact H|].
  exact (make_move_castle _ _ _ _ m B _ _ eq_refl Hl H).
Defined.


(* ------------------------------------------------------------------ *)
(** ** Further properties of the move generator and its cache *)

Lemma slide_moves_facts fuel B piece start cur offset m :
  In m (slide_moves fuel B piece start cur offset) ->
  moved_piece m = piece /\ move_promoted m = false /\ move_castled m = false
  /\ (move_captured m = true ->
      opposite_colours piece (captured_piece m) = true /\ is_king (captured_piece m) = false).
Proof.
  revert cur. induction fuel as [|f IH]; intros cur; cbn; [tauto|].
  case_if E1.
  - intros [<- | Hm]; [|exact (IH _ Hm)]. cbn. repeat split; discriminate.
  - case_if E2; [|cbn; tauto]. intros [<- | []]. bool_facts. cbn. auto.
Qed.

Lemma step_move_facts B piece start offset m :
  In m (step_move B piece start offset) ->
  moved_piece m = piece /\ move_promoted m = false /\ move_castled m = false
  /\ (move_captured m = true ->
      opposite_colours piece (captured_piece m) = true /\ is_king (captured_piece m) = false).
Proof.
  unfold step_move. case_if E1.
  - intros [<- | []]. cbn. repeat split; discriminate.
  - case_if E2; [|cbn; tauto]. intros [<- | []]. bool_facts. cbn. auto.
Qed.

Lemma king_moves_facts B piece m :
  In m (king_moves B piece) ->
  moved_piece m = piece /\ move_promoted m = false /\ move_castled m = false
  /\ (move_captured m = true ->
      opposite_colours piece (captured_piece m) = true /\ is_king (captured_piece m) = false).
Proof.
  intros (offset & _ & Hm)%in_flat_map. cbv zeta in Hm. revert Hm.
  case_if E0; [|cbn; tauto].
  case_if E1.
  - intros [<- | []]. cbn. repeat split; discriminate.
  - case_if E2; [|cbn; tauto]. intros [<- | []]. bool_facts. cbn. auto.
Qed.

Lemma castle_moves_facts B side m :
  In m (castle_moves B side) ->
  moved_piece m = king_of side /\ move_promoted m = false /\ move_captured m = false.
Proof.
  unfold castle_moves, king_of. destruct (Bool.eqb side WHITE); rewrite in_app_iff;
    intros [Hm|Hm]; revert Hm; (case_if E; [|cbn; tauto]); intros [<- | []]; auto.
Qed.

Lemma pawn_capture_facts B side start capture pp m :
  (forall x, In x pp -> In (Z.lxor x 8) [queen_of side; rook_of side; bishop_of side; knight_of side]) ->
  In m (pawn_capture B (pawn_of side) start capture pp) ->
  moved_piece m = pawn_of side /\ move_castled m = false
  /\ (move_captured m = true ->
      opposite_colours (pawn_of side) (captured_piece m) = true /\ is_king (captured_piece m) = false)
  /\ (move_promoted m = true ->
      In (promoted_piece m) [queen_of side; rook_of side; bishop_of side; knight_of side]
      /\ last_rank (move_to m) = true).
Proof.
  intros Hpp. unfold pawn_capture.
  case_if E; [|cbn; tauto]. bool_facts.
  destruct (last_rank capture) eqn:El.
  - intros (x & <- & Hx)%in_map_iff. cbn.
    split; [reflexivity|]. split; [reflexivity|].
    split; intros _; [split; assumption | split; [apply Hpp; exact Hx | exact El]].
  - intros [<- | []]. cbn.
    split; [reflexivity|]. split; [reflexivity|].
    split; intros Hx; [split; assumption | discriminate Hx].
Qed.

Lemma pawn_moves_facts B side pp start m :
  (forall x, In x pp -> In (Z.lxor x 8) [queen_of side; rook_of side; bishop_of side; knight_of side]) ->
  In m (pawn_moves B side (pawn_of side) pp start) ->
  moved_piece m = pawn_of side /\ move_castled m = false
  /\ (move_captured m = true ->
      opposite_colours (pawn_of side) (captured_piece m) = true /\ is_king (captured_piece m) = false)
  /\ (move_promoted m = true ->
      In (promoted_piece m) [queen_of side; rook_of side; bishop_of side; knight_of side]
      /\ last_rank (move_to m) = true).
Proof.
  intros Hpp. unfold pawn_moves. cbv zeta. rewrite !in_app_iff. intros Hm.
  destruct Hm as [[Hm|Hm]|[Hm|[[Hm|Hm]|Hm]]].
  - revert Hm. case_if E; [|cbn; tauto]. intros [<- | []]. cbn. repeat split; discriminate.
  - revert Hm. case_if E; [|cbn; tauto]. intros [<- | []]. cbn. repeat split; discriminate.
  - revert Hm. case_if E; [|cbn; tauto].
    destruct (last_rank _) eqn:El.
    + intros (x & <- & Hx)%in_map_iff. cbn.
      split; [reflexivity|]. split; [reflexivity|].
      split; intros Hy; [discriminate Hy | split; [apply Hpp; exact Hx | exact El]].
    + intros [<- | []]. cbn. repeat split; discriminate.
  - exact (pawn_capture_facts _ _ _ _ _ _ Hpp Hm).
  - exact (pawn_capture_facts _ _ _ _ _ _ Hpp Hm).
  - revert Hm. case_if E0; [|cbn; tauto]. rewrite in_app_iff.
    intros [Hm|Hm]; revert Hm; (case_if E; [|cbn; tauto]); intros [<- | []]; cbn;
      (split; [reflexivity|split; [reflexivity|split; [|discriminate]]]); intros _;
      rewrite lxor_pawn_of; destruct side; split; reflexivity.
Qed.

Lemma promote_list_side side x :
  In x [Z.lxor (queen_of side) 8; Z.lxor (rook_of side) 8;
        Z.lxor (bishop_of side) 8; Z.lxor (knight_of side) 8] ->
  In (Z.lxor x 8) [queen_of side; rook_of side; bishop_of side; knight_of side].
Proof. destruct side; intros [<-|[<-|[<-|[<-|[]]]]]; cbn; tauto. Qed.

Lemma generate_moves_facts B side m :
  In m (generate_moves B side) ->
  In (moved_piece m) [queen_of side; rook_of side; bishop_of side; knight_of side;
                      pawn_of side; king_of side]
  /\ (move_captured m = true ->
      opposite_colours (moved_piece m) (captured_piece m) = true
      /\ is_king (captured_piece m) = false)
  /\ (move_promoted m = true ->
      moved_piece m = pawn_of side
      /\ In (promoted_piece m) [queen_of side; rook_of side; bishop_of side; knight_of side]
      /\ last_rank (move_to m) = true).
Proof.
  unfold generate_moves. rewrite !in_app_iff.
  intros [Hm|[Hm|[Hm|[Hm|[Hm|[Hm|Hm]]]]]].
  - apply in_flat_map in Hm as (start & _ & Hm). apply in_flat_map in Hm as (o & _ & Hm).
    apply slide_moves_facts in Hm as (-> & Hp & _ & Hc).
    split; [cbn; tauto|]. split; [exact Hc|]. congruence.
  - apply in_flat_map in Hm as (start & _ & Hm). apply in_flat_map in Hm as (o & _ & Hm).
    apply slide_moves_facts in Hm as (-> & Hp & _ & Hc).
    split; [cbn; tauto|]. split; [exact Hc|]. congruence.
  - apply in_flat_map in Hm as (start & _ & Hm). apply in_flat_map in Hm as (o & _ & Hm).
    apply slide_moves_facts in Hm as (-> & Hp & _ & Hc).
    split; [cbn; tauto|]. split; [exact Hc|]. congruence.
  - apply in_flat_map in Hm as (start & _ & Hm). apply in_flat_map in Hm as (o & _ & Hm).
    apply step_move_facts in Hm as (-> & Hp & _ & Hc).
    split; [cbn; tauto|]. split; [exact Hc|]. congruence.
  - apply in_flat_map in Hm as (start & _ & Hm).
    apply pawn_moves_facts in Hm as (Hmv & _ & Hc & Hp); [|apply promote_list_side].
    rewrite Hmv. split; [cbn; tauto|]. split; [exact Hc|].
    intros Hq. split; [reflexivity|]. exact (Hp Hq).
  - apply king_moves_facts in Hm as (-> & Hp & _ & Hc).
    split; [cbn; tauto|]. split; [exact Hc|]. congruence.
  - apply castle_moves_facts in Hm as (-> & Hp & Hc).
    split; [cbn; tauto|]. split; congruence.
Qed.

(** X15: every generated move moves a piece of the side it is generated for. *)
Theorem generate_moves_own_pieces B side m :
  In m (generate_moves B side) ->
  In (moved_piece m) [queen_of side; rook_of side; bishop_of side; knight_of side;
                      pawn_of side; king_of side].
Proof. intros Hm. apply (generate_moves_facts B side m Hm). Qed.

(** X16: every generated capture takes an enemy piece that is not a king. *)
Theorem generate_moves_captures B side m :
  In m (generate_moves B side) -> move_captured m = true ->
  opposite_colours (moved_piece m) (captured_piece m) = true
  /\ is_king (captured_piece m) = false.
Proof. intros Hm. apply (generate_moves_facts B side m Hm). Qed.

(** X17: every generated promotion is a pawn move to the last rank, promoting to a queen, rook, bishop or knight of the side. *)
Theorem generate_moves_promotions B side m :
  In m (generate_moves B side) -> move_promoted m = true ->
  moved_piece m = pawn_of side
  /\ In (promoted_piece m) [queen_of side; rook_of side; bishop_of side; knight_of side]
  /\ last_rank (move_to m) = true.
Proof. intros Hm. apply (generate_moves_facts B side m Hm). Qed.

Lemma generate_moves_own_pieces_witness :
  let B := demo_board startFEN in
  let m := quiet_move B1 C3 WHITE_KNIGHT in
  In m (generate_moves B WHITE)
  /\ In (moved_piece m) [queen_of WHITE; rook_of WHITE; bishop_of WHITE; knight_of WHITE;
                        pawn_of WHITE; king_of WHITE].
Proof.
  intros B m. assert (H : In m (generate_moves B WHITE)) by (vm_compute; tauto).
  split; [exact H|]. exact (generate_moves_own_pieces B WHITE m H).
Defined.

Lemma generate_moves_captures_witness :
  let B := demo_board "1n5k/P7/8/8/8/8/8/K7 w - - 0 1" in
  let m := promote_capture_move 81 92 WHITE_PAWN (Z.lxor WHITE_QUEEN 8) BLACK_KNIGHT in
  In m (generate_moves B WHITE) /\ move_captured m = true
  /\ opposite_colours (moved_piece m) (captured_piece m) = true
  /\ is_king (captured_piece m) = false.
Proof.
  intros B m. assert (H : In m (generate_moves B WHITE)) by (vm_compute; tauto).
  split; [exact H|]. split; [reflexivity|].
  exact (generate_moves_captures B WHITE m H eq_refl).
Defined.

Lemma generate_moves_promotions_witness :
  let B := demo_board "1n5k/P7/8/8/8/8/8/K7 w - - 0 1" in
  let m := promote_capture_move 81 92 WHITE_PAWN (Z.lxor WHITE_QUEEN 8) BLACK_KNIGHT in
  In m (generate_moves B WHITE) /\ move_promoted m = true
  /\ moved_piece m = pawn_of WHITE
  /\ In (promoted_piece m) [queen_of WHITE; rook_of WHITE; bishop_of WHITE; knight_of WHITE]
  /\ last_rank (move_to m) = true.
Proof.
  intros B m. assert (H : In m (generate_moves B WHITE)) by (vm_compute; tauto).
  split; [exact H|]. split; [reflexivity|].
  exact (generate_moves_promotions B WHITE m H eq_refl).
Defined.

(** X18: after [pseudo_moves] returns, asking again on the same board with the returned cache gives the same list and cache, whatever side is passed. *)
Theorem pseudo_moves_memo cache B s s' r cache' :
  pseudo_moves cache B s = Some (r, cache') ->
  pseudo_moves cache' B s' = Some (r, cache').
Proof.
  unfold pseudo_moves. destruct (cache !! hash B) as [l|] eqn:Hc.
  - intros [= <- <-]. rewrite Hc. reflexivity.
  - destruct (orb _ _) eqn:Ecut.
    + intros [= <- <-]. rewrite Hc. reflexivity.
    + destruct (negb _); [discriminate|]. intros [= <- <-].
      rewrite lookup_insert_eq. reflexivity.
Qed.

(** X19: [pseudo_moves] changes no cache entry but the board's own hash, and that one only when it was absent. *)
Theorem pseudo_moves_cache_frame cache B s r cache' :
  pseudo_moves cache B s = Some (r, cache') ->
  (forall k, k <> hash B -> cache' !! k = cache !! k)
  /\ (cache' = cache \/ (cache !! hash B = None /\ cache' = <[hash B := r]> cache)).
Proof.
  unfold pseudo_moves. destruct (cache !! hash B) as [l|] eqn:Hc.
  - intros [= <- <-]. split; [reflexivity|left; reflexivity].
  - destruct (orb _ _).
    + intros [= <- <-]. split; [reflexivity|left; reflexivity].
    + destruct (negb _); [discriminate|]. intros [= <- <-].
      split; [intros k Hk; apply lookup_insert_ne; congruence|right; split; reflexivity].
Qed.

Lemma pseudo_moves_memo_witness :
  let B := demo_board startFEN in
  pseudo_moves ∅ B None = Some (generate_moves B WHITE, start_cache)
  /\ pseudo_moves start_cache B (Some BLACK) = Some (generate_moves B WHITE, start_cache).
Proof.
  intros B. assert (H : pseudo_moves ∅ B None = Some (generate_moves B WHITE, start_cache))
    by (vm_compute; reflexivity).
  split; [exact H|]. exact (pseudo_moves_memo _ _ _ _ _ _ H).
Defined.

Lemma pseudo_moves_cache_frame_witness :
  let B := demo_board startFEN in
  pseudo_moves ∅ B None = Some (generate_moves B WHITE, start_cache)
  /\ (forall k, k <> hash B -> start_cache !! k = (∅ : move_cache) !! k)
  /\ (start_cache = ∅ \/ ((∅ : move_cache) !! hash B = None
                          /\ start_cache = <[hash B := generate_moves B WHITE]> ∅)).
Proof.
  intros B. assert (H : pseudo_moves ∅ B None = Some (generate_moves B WHITE, start_cache))
    by (vm_compute; reflexivity).
  split; [exact H|]. exact (pseudo_moves_cache_frame _ _ _ _ _ H).
Defined.


(* ------------------------------------------------------------------ *)
(** ** Legal moves and attacks *)

Lemma legal_filter_sublist ph ch eh sh ms B r :
  legal_filter ph ch eh sh ms B = Some r -> sublist r ms.
Proof.
  revert B r. induction ms as [|m ms IH]; intros B r; cbn.
  - intros [= <-]. constructor.
  - destruct (make_move _ _ _ _ m B) as [[B1 v]|]; [|discriminate]. cbn.
    destruct (unmake_move _ _ _ _ B1) as [B2|]; [|discriminate]. cbn.
    destruct (legal_filter _ _ _ _ ms B2) as [r'|] eqn:Hr; [|discriminate]. cbn.
    intros [= <-]. destruct v.
    + constructor. exact (IH _ _ Hr).
    + constructor. exact (IH _ _ Hr).
Qed.

(** X20: [legal_moves] returns a sublist of the pseudo-moves, in their order. *)
Theorem legal_moves_sublist ph ch eh sh cache B r :
  legal_moves ph ch eh sh cache B = Some r ->
  exists ms cache', pseudo_moves cache B None = Some (ms, cache') /\ sublist r ms.
Proof.
  unfold legal_moves. destruct (pseudo_moves cache B None) as [[ms c']|]; [|discriminate].
  cbn. intros Hr. exists ms, c'. split; [reflexivity|]. exact (legal_filter_sublist _ _ _ _ _ _ _ Hr).
Qed.

(** X21: when unmake after make restores the board for each pseudo-move, the legal-move loop keeps exactly the moves [make_move] accepts, in order. *)
Theorem legal_filter_exact ph ch eh sh ms B :
  Forall (make_unmake_ok ph ch eh sh B) ms ->
  legal_filter ph ch eh sh ms B = Some (filter (make_valid ph ch eh sh B) ms).
Proof.
  induction 1 as [|m ms Hm _ IH]; [reflexivity|]. cbn.
  unfold make_unmake_ok, make_valid in *.
  destruct (make_move _ _ _ _ m B) as [[B1 v]|]; [|contradiction]. cbn.
  rewrite Hm. cbn. rewrite IH. cbn. destruct v; reflexivity.
Qed.

Lemma legal_moves_sublist_witness :
  let B := demo_board startFEN in
  legal_moves demo_piece_hash demo_castle_hash demo_enpas_hash demo_side_hash ∅ B
    = Some (generate_moves B WHITE)
  /\ exists ms cache', pseudo_moves ∅ B None = Some (ms, cache')
       /\ sublist (generate_moves B WHITE) ms.
Proof.
  intros B.
  assert (H : legal_moves demo_piece_hash demo_castle_hash demo_enpas_hash demo_side_hash ∅ B
                = Some (generate_moves B WHITE)) by (vm_compute; reflexivity).
  split; [exact H|]. exact (legal_moves_sublist _ _ _ _ _ _ _ H).
Defined.

Lemma legal_filter_exact_witness :
  let B := demo_board "4k3/8/8/8/8/8/4r3/4K3 w - - 0 1" in
  let ms := generate_moves B WHITE in
  Forall (make_unmake_ok demo_piece_hash demo_castle_hash demo_enpas_hash demo_side_hash B) ms
  /\ legal_filter demo_piece_hash demo_castle_hash demo_enpas_hash demo_side_hash ms B
     = Some (filter (make_valid demo_piece_hash demo_castle_hash demo_enpas_hash demo_side_hash B) ms).
Proof.
  intros B ms.
  assert (H : Forall (make_unmake_ok demo_piece_hash demo_castle_hash demo_enpas_hash demo_side_hash B) ms)
    by (apply List.Forall_forall; intros m Hm; vm_compute in Hm;
        repeat destruct Hm as [<-|Hm]; try contradiction; vm_compute; reflexivity).
  split; [exact H|]. exact (legal_filter_exact _ _ _ _ _ _ H).
Defined.

Lemma square_attacked_guard_false B sq side :
  square_attacked B sq side = square_attacked_body B sq side.
Proof.
  unfold square_attacked. destruct (piece_at B sq =? Z.b2z side);
    rewrite andb_false_r; reflexivity.
Qed.

(** X22: [square_attacked] reports a square attacked by a knight or a pawn of the side on an attacking offset, and by that side's king on an adjacent square. *)
Theorem square_attacked_short_range B sq side o :
  (In o knight_offsets /\ piece_at B (sq + o) = knight_of side)
  \/ (In o [if Bool.eqb side WHITE then -9 else 9; if Bool.eqb side WHITE then -11 else 11]
      /\ piece_at B (sq + o) = pawn_of side)
  \/ (In o king_offsets /\ plist B (king_of side) !!! 0%nat = sq + o) ->
  square_attacked B sq side = true.
Proof.
  rewrite square_attacked_guard_false. unfold square_attacked_body.
  rewrite !orb_true_iff, !existsb_exists.
  intros [[Ho Hk]|[[Ho Hp]|[Ho Hk]]].
  - left. right. exists o. split; [exact Ho|]. rewrite Hk. apply Z.eqb_refl.
  - right. exists o. split; [exact Ho|]. rewrite Hp. apply Z.eqb_refl.
  - unfold king_offsets in Ho.
    assert (Hd : In o diagonal_offsets \/ In o orthogonal_offsets)
      by (unfold diagonal_offsets, orthogonal_offsets; cbn in Ho |- *; tauto).
    do 2 left. destruct Hd as [Hd|Hd]; [left|right]; exists o; split; try exact Hd;
      unfold ray_attacks; rewrite Hk, Z.eqb_refl; reflexivity.
Qed.

Lemma square_attacked_short_range_witness :
  let B := demo_board startFEN in
  ((In (-9) knight_offsets /\ piece_at B (E3 + -9) = knight_of WHITE)
   \/ (In (-9) [if Bool.eqb WHITE WHITE then -9 else 9; if Bool.eqb WHITE WHITE then -11 else 11]
       /\ piece_at B (E3 + -9) = pawn_of WHITE)
   \/ (In (-9) king_offsets /\ plist B (king_of WHITE) !!! 0%nat = E3 + -9))
  /\ square_attacked B E3 WHITE = true.
Proof.
  intros B.
  assert (H : (In (-9) knight_offsets /\ piece_at B (E3 + -9) = knight_of WHITE)
   \/ (In (-9) [if Bool.eqb WHITE WHITE then -9 else 9; if Bool.eqb WHITE WHITE then -11 else 11]
       /\ piece_at B (E3 + -9) = pawn_of WHITE)
   \/ (In (-9) king_offsets /\ plist B (king_of WHITE) !!! 0%nat = E3 + -9)).
  { right. left. split; [cbn; left; reflexivity | vm_compute; reflexivity]. }
  split; [exact H|]. exact (square_attacked_short_range B E3 WHITE (-9) H).
Defined.


(* ------------------------------------------------------------------ *)
(** ** What the FEN constructor produces *)

Lemma parse_placement_shape s i ps pos i' ps' pos' s' :
  parse_placement s i ps pos = Some (i', ps', pos', s') ->
  length ps' = length ps /\ length pos' = length pos
  /\ ((forall j, (length (pos !!! j) <= MAX_PIECE_FREQ)%nat) ->
      forall j, (length (pos' !!! j) <= MAX_PIECE_FREQ)%nat).
Proof.
  revert i ps pos. induction s as [|c s IH]; intros i ps pos; cbn; [discriminate|].
  destruct (Ascii.eqb c " ").
  { intros [= <- <- <- <-]. tauto. }
  destruct (Ascii.eqb c "/").
  { destruct (_ =? 9); [|discriminate]. apply IH. }
  destruct (_ && _).
  { destruct (_ || _); [|discriminate]. intros Hp.
    destruct (IH _ _ _ Hp) as (H1 & H2 & H3). rewrite fold_insert_length in H1. tauto. }
  destruct (negb (valid_square i)); [discriminate|].
  destruct (negb (valid_piece _)); [discriminate|].
  destruct (negb (Nat.leb (length (pos !!! Z.to_nat (piece_from_char c))) 9)) eqn:Hlt; [discriminate|].
  destruct (_ || _); [|discriminate]. intros Hp.
  destruct (IH _ _ _ Hp) as (H1 & H2 & H3).
  rewrite length_insert in H1. rewrite length_insert in H2. split; [exact H1|]. split; [exact H2|].
  intros Hf. apply H3. intros j.
  apply negb_false_iff, Nat.leb_le in Hlt.
  rewrite list_lookup_total_insert. case_decide as Hj.
  - destruct Hj as [<- _]. rewrite length_app. cbn. unfold MAX_PIECE_FREQ in *. lia.
  - apply Hf.
Qed.

Lemma lor_below_16 a b : 0 <= a < 16 -> 0 <= b < 16 -> 0 <= Z.lor a b < 16.
Proof.
  intros Ha Hb. assert (H0 : 0 <= Z.lor a b) by (apply Z.lor_nonneg; lia).
  split; [exact H0|].
  assert (Hs : Z.shiftr (Z.lor a b) 4 = 0).
  { rewrite Z.shiftr_lor, !Z.shiftr_div_pow2 by lia.
    change (2 ^ 4) with 16. rewrite (Z.div_small a), (Z.div_small b) by lia. reflexivity. }
  rewrite Z.shiftr_div_pow2 in Hs by lia. change (2 ^ 4) with 16 in Hs.
  pose proof (Z.div_mod (Z.lor a b) 16 ltac:(lia)) as Hd.
  pose proof (Z.mod_pos_bound (Z.lor a b) 16 ltac:(lia)). lia.
Qed.

Lemma parse_castle_range s cs cs' s' :
  0 <= cs < 16 -> parse_castle s cs = Some (cs', s') -> 0 <= cs' < 16.
Proof.
  revert cs. induction s as [|c s IH]; intros cs Hc; cbn; [discriminate|].
  destruct (Ascii.eqb c " "); [intros [= <- _]; exact Hc|].
  destruct c as [[] [] [] [] [] [] [] []]; try discriminate;
    apply IH; apply lor_below_16; unfold WHITE_SHORT, WHITE_LONG, BLACK_SHORT, BLACK_LONG; lia.
Qed.

Lemma parse_fifty_range s acc f s' :
  0 <= acc < 2 ^ 32 -> parse_fifty s acc = Some (f, s') -> 0 <= f < 2 ^ 32.
Proof.
  revert acc. induction s as [|c s IH]; intros acc Ha; cbn; [discriminate|].
  destruct (Ascii.eqb c " "); [intros [= <- _]; exact Ha|].
  destruct (is_digit c); [|discriminate]. apply IH. unfold u32.
  apply Z.mod_pos_bound. lia.
Qed.

Lemma repeat_nil_lookup (n j : nat) :
  length ((repeat [] n : list (list Z)) !!! j) = 0%nat.
Proof.
  rewrite list_lookup_total_alt. destruct (repeat [] n !! j) as [l|] eqn:E; [|reflexivity].
  apply list_elem_of_lookup_2, list_elem_of_In, repeat_spec in E. subst l. reflexivity.
Qed.

Lemma compute_hash_set_hash ph ch eh sh h B :
  compute_hash ph ch eh sh (set_hash h B) = compute_hash ph ch eh sh B.
Proof.
  unfold compute_hash, piece_at, set_hash.
  cbn [pieces castle_state en_passant next_move_colour]. reflexivity.
Qed.

(** X23: a board built from a FEN has 120 cells and 16 lists, at most MAX_PIECE_FREQ pieces of a kind, a 4-bit castle mask, clocks in unsigned range, a half-move parity matching the side, an empty history and the recomputed hash. *)
Theorem board_of_fen_fields ph ch eh sh fen B :
  board_of_fen ph ch eh sh fen = Some B ->
  length (pieces B) = 120%nat /\ length (positions B) = 16%nat
  /\ (forall p, (length (plist B p) <= MAX_PIECE_FREQ)%nat)
  /\ 0 <= castle_state B < 16
  /\ 0 <= fifty_move B < 2 ^ 32
  /\ 0 <= half_move B < 2 ^ 32
  /\ half_move B mod 2 = Z.b2z (next_move_colour B)
  /\ history B = []
  /\ hash B = compute_hash ph ch eh sh B.
Proof.
  unfold board_of_fen.
  destruct (parse_placement _ A8 _ _) as [[[[sq ps] pos] s1]|] eqn:Hp; [|discriminate].
  cbn [mbind option_bind]. intros H.
  destruct (negb (sq =? 29)); [discriminate|].
  destruct (negb (_ || _)); [discriminate|].
  apply bind_Some in H as ([cs s2] & Hc & H). cbv beta iota in H.
  destruct (negb (peek s2 =? " ")%char); [discriminate|].
  apply bind_Some in H as ([ep s3] & _ & H). cbv beta iota in H.
  destruct (negb (peek s3 =? " ")%char); [discriminate|].
  apply bind_Some in H as ([fifty s4] & Hf & H). cbv beta iota in H.
  apply bind_Some in H as (full & _ & H).
  injection H as <-.
  destruct (parse_placement_shape _ _ _ _ _ _ _ _ Hp) as (L1 & L2 & L3).
  rewrite repeat_length in L1, L2.
  cbn [pieces positions castle_state fifty_move half_move next_move_colour history set_hash].
  split; [exact L1|]. split; [exact L2|].
  split. { intros p. unfold plist. cbn. apply L3. intros j. rewrite repeat_nil_lookup. unfold MAX_PIECE_FREQ. lia. }
  split. { destruct (_ =? "-")%char.
           - injection Hc as <- _. lia.
           - exact (parse_castle_range _ 0 _ _ ltac:(lia) Hc). }
  split. { exact (parse_fifty_range _ 0 _ _ ltac:(lia) Hf). }
  split. { unfold u32. apply Z.mod_pos_bound. lia. }
  split. { unfold u32. rewrite Z.mod_mod_divide by (exists (2 ^ 31); reflexivity).
           rewrite Z.add_comm, Z.mul_comm, Z_mod_plus_full.
           destruct (peek (drop 1 s1) =? "w")%char; reflexivity. }
  split; [reflexivity|]. cbn [hash set_hash]. rewrite compute_hash_set_hash. reflexivity.
Qed.



Lemma fold_clear_on_board (l : list Z) (f : Z -> nat) (ps : list Z) pos :
  on_board ps pos -> on_board (fold_left (fun ps i => <[f i := INVALID_PIECE]> ps) l ps) pos.
Proof.
  revert ps. induction l as [|i l IH]; intros ps [Hp Hq]; cbn; [split; assumption|].
  apply IH. split; [|exact Hq]. intros j Hj Hn.
  rewrite length_insert in Hj. rewrite list_lookup_total_insert in Hn |- *.
  case_decide; [contradiction|]. exact (Hp j Hj Hn).
Qed.

Lemma parse_placement_on_board s i ps pos i' ps' pos' s' :
  on_board ps pos -> parse_placement s i ps pos = Some (i', ps', pos', s') ->
  on_board ps' pos'.
Proof.
  revert i ps pos. induction s as [|c s IH]; intros i ps pos Hob; cbn; [discriminate|].
  destruct (Ascii.eqb c " ").
  { intros [= <- <- <- <-]. exact Hob. }
  destruct (Ascii.eqb c "/").
  { destruct (_ =? 9); [|discriminate]. apply IH, Hob. }
  destruct (_ && _).
  { destruct (_ || _); [|discriminate]. apply IH, fold_clear_on_board, Hob. }
  destruct (negb (valid_square i)) eqn:Hv; [discriminate|].
  destruct (negb (valid_piece _)) eqn:Hvp; [discriminate|].
  destruct (negb (Nat.leb _ 9)); [discriminate|].
  destruct (_ || _); [|discriminate]. apply IH.
  apply negb_false_iff in Hv, Hvp. destruct Hob as [Hp Hq].
  assert (Hi : Z.of_nat (Z.to_nat i) = i)
    by (unfold valid_square in Hv; rewrite !andb_true_iff, !Z.leb_le in Hv; lia).
  assert (Hk : Z.of_nat (Z.to_nat (piece_from_char c)) = piece_from_char c)
    by (unfold valid_piece in Hvp; rewrite !andb_true_iff, Z.leb_le in Hvp; lia).
  split.
  - intros j Hj Hn. rewrite length_insert in Hj. rewrite list_lookup_total_insert in Hn |- *.
    case_decide as Hd.
    + destruct Hd as [<- _]. rewrite Hi. split; assumption.
    + exact (Hp j Hj Hn).
  - intros k sq Hs. rewrite list_lookup_total_insert in Hs. case_decide as Hd.
    + destruct Hd as [<- _]. rewrite Hk. apply in_app_or in Hs as [Hs|[<-|[]]].
      * rewrite <- Hk. exact (Hq _ _ Hs).
      * split; assumption.
    + exact (Hq _ _ Hs).
Qed.

Lemma on_board_init : on_board (repeat INVALID_PIECE 120) (repeat [] 16).
Proof.
  split.
  - intros j Hj Hn. exfalso. apply Hn.
    destruct (lookup_lt_is_Some_2 (repeat INVALID_PIECE 120) j Hj) as [x Hx].
    rewrite (list_lookup_total_correct _ _ _ Hx).
    apply list_elem_of_lookup_2, list_elem_of_In, repeat_spec in Hx. exact Hx.
  - intros k sq Hs. exfalso. rewrite list_lookup_total_alt in Hs.
    destruct (repeat [] 16 !! k) as [l|] eqn:E; [|destruct Hs].
    apply list_elem_of_lookup_2, list_elem_of_In, repeat_spec in E. subst l. destruct Hs.
Qed.

(** X24: a board built from a FEN holds pieces only on board squares, each a valid piece, and its lists list only board squares under valid pieces. *)
Theorem board_of_fen_on_board ph ch eh sh fen B :
  board_of_fen ph ch eh sh fen = Some B ->
  (forall j, (j < length (pieces B))%nat -> pieces B !!! j <> INVALID_PIECE ->
     valid_square (Z.of_nat j) = true /\ valid_piece (pieces B !!! j) = true)
  /\ (forall p sq, In sq (plist B p) -> valid_square sq = true /\ valid_piece p = true).
Proof.
  unfold board_of_fen.
  destruct (parse_placement _ A8 _ _) as [[[[sq ps] pos] s1]|] eqn:Hp; [|discriminate].
  cbn [mbind option_bind]. intros H.
  destruct (negb (sq =? 29)); [discriminate|].
  destruct (negb (_ || _)); [discriminate|].
  apply bind_Some in H as ([cs s2] & _ & H). cbv beta iota in H.
  destruct (negb (peek s2 =? " ")%char); [discriminate|].
  apply bind_Some in H as ([ep s3] & _ & H). cbv beta iota in H.
  destruct (negb (peek s3 =? " ")%char); [discriminate|].
  apply bind_Some in H as ([fifty s4] & _ & H). cbv beta iota in H.
  apply bind_Some in H as (full & _ & H).
  injection H as <-.
  assert (Hob : on_board ps pos).
  { exact (parse_placement_on_board _ _ _ _ _ _ _ _ on_board_init Hp). }
  destruct Hob as [Hp1 Hp2]. split; [exact Hp1|].
  intros p q Hq. unfold plist in Hq. cbn in Hq. destruct (Hp2 _ _ Hq) as [Hv Hvp].
  split; [exact Hv|]. destruct (Z.le_gt_cases 0 p) as [Hn|Hn].
  - rewrite Z2Nat.id in Hvp by exact Hn. exact Hvp.
  - rewrite Z2Nat.nonpos in Hvp by lia. discriminate Hvp.
Qed.

Lemma board_of_fen_fields_witness :
  let fen := "r3k2r/8/8/8/8/8/8/R3K2R b KQkq - 7 13"%string in
  let B := demo_board fen in
  board_of_fen demo_piece_hash demo_castle_hash demo_enpas_hash demo_side_hash fen = Some B
  /\ (length (pieces B) = 120%nat /\ length (positions B) = 16%nat
      /\ (forall p, (length (plist B p) <= MAX_PIECE_FREQ)%nat)
      /\ 0 <= castle_state B < 16
      /\ 0 <= fifty_move B < 2 ^ 32
      /\ 0 <= half_move B < 2 ^ 32
      /\ half_move B mod 2 = Z.b2z (next_move_colour B)
      /\ history B = []
      /\ hash B = compute_hash demo_piece_hash demo_castle_hash demo_enpas_hash demo_side_hash B).
Proof.
  intros fen B.
  assert (H : board_of_fen demo_piece_hash demo_castle_hash demo_enpas_hash demo_side_hash fen = Some B)
    by (vm_compute; reflexivity).
  split; [exact H|]. exact (board_of_fen_fields _ _ _ _ _ _ H).
Defined.

Lemma board_of_fen_on_board_witness :
  let fen := "r3k2r/8/8/8/8/8/8/R3K2R b KQkq - 7 13"%string in
  let B := demo_board fen in
  board_of_fen demo_piece_hash demo_castle_hash demo_enpas_hash demo_side_hash fen = Some B
  /\ (forall j, (j < length (pieces B))%nat -> pieces B !!! j <> INVALID_PIECE ->
        valid_square (Z.of_nat j) = true /\ valid_piece (pieces B !!! j) = true)
  /\ (forall p sq, In sq (plist B p) -> valid_square sq = true /\ valid_piece p = true).
Proof.
  intros fen B.
  assert (H : board_of_fen demo_piece_hash demo_castle_hash demo_enpas_hash demo_side_hash fen = Some B)
    by (vm_compute; reflexivity).
  split; [exact H|]. exact (board_of_fen_on_board _ _ _ _ _ _ H).
Defined.


(* ------------------------------------------------------------------ *)
(** ** The debug validator *)

Lemma distinct_entries_NoDup l : distinct_entries l = true -> List.NoDup l.
Proof.
  induction l as [|x l IH]; cbn; [constructor|].
  rewrite andb_true_iff, negb_true_iff. intros [Hx Hl]. constructor; [|exact (IH Hl)].
  intros Hin. assert (existsb (Z.eqb x) l = true) by (apply existsb_exists; exists x; split; [exact Hin | apply Z.eqb_refl]).
  congruence.
Qed.

(** X25: a board that passes [validate_board] (with its 16 lists and 120 cells, list entries inside the array) has each piece list equal, up to order, to the cells holding that piece. *)
Theorem validate_board_lists B :
  length (positions B) = 16%nat -> length (pieces B) = 120%nat ->
  (forall p sq, In sq (plist B p) -> 0 <= sq < 120) ->
  validate_board B = true -> pieces_inv B.
Proof.
  intros Lpos Lps Hr Hv. split; [exact Lpos | exact Lps |].
  unfold validate_board in Hv. rewrite !andb_true_iff in Hv.
  destruct Hv as [[[[[[[[[_ _] _] Hpc] _] _] _] _] _] _].
  intros p. rewrite forallb_forall in Hpc.
  destruct (Z.le_gt_cases 16 p) as [Hp|Hp].
  { rewrite list_lookup_total_alt, lookup_ge_None_2 by lia.
    unfold squares_of. replace (valid_piece p) with false; [constructor|].
    unfold valid_piece. symmetry. apply andb_false_iff. left. apply andb_false_iff. left.
    apply andb_false_iff. right. apply Z.ltb_ge. lia. }
  assert (Hin : In (Z.of_nat (Z.to_nat p)) (map Z.of_nat (seq 0 16)))
    by (apply in_map, in_seq; lia).
  specialize (Hpc _ Hin). rewrite !andb_true_iff in Hpc.
  destruct Hpc as [[[[Hinv Hcnt] _] Hat] Hdist].
  set (q := Z.of_nat (Z.to_nat p)) in *.
  assert (Hsq : squares_of (pieces B) p = squares_of (pieces B) q).
  { unfold q. destruct (Z.le_gt_cases 0 p) as [H0|H0].
    - rewrite Z2Nat.id by exact H0. reflexivity.
    - unfold squares_of. replace (valid_piece p) with false by (unfold valid_piece; cbn;
        replace (0 <=? p) with false by (symmetry; apply Z.leb_gt; lia); reflexivity).
      rewrite Z2Nat.nonpos by lia. reflexivity. }
  rewrite Hsq. unfold plist in Hinv, Hcnt, Hat, Hdist, Hr.
  replace (Z.to_nat p) with (Z.to_nat q) in * by (unfold q; rewrite Nat2Z.id; reflexivity).
  clearbody q. unfold squares_of.
  destruct (valid_piece q) eqn:Hq.
  - apply NoDup_Permutation_bis.
    + exact (distinct_entries_NoDup _ Hdist).
    + apply Nat.eqb_eq in Hcnt. rewrite Hcnt. unfold piece_count, piece_at. lia.
    + intros sq Hs. apply filter_In. split.
      * apply in_board_squares. exact (Hr (Z.of_nat (Z.to_nat q)) sq ltac:(rewrite Nat2Z.id; exact Hs)).
      * rewrite forallb_forall in Hat. exact (Hat sq Hs).
  - cbn in Hinv. apply Nat.eqb_eq, length_zero_iff_nil in Hinv. rewrite Hinv. constructor.
Qed.

Lemma positions_in_range B :
  forallb (forallb (fun sq => (0 <=? sq) && (sq <? 120))) (positions B) = true ->
  forall p sq, In sq (plist B p) -> 0 <= sq < 120.
Proof.
  intros Hf p sq Hs. unfold plist in Hs. rewrite list_lookup_total_alt in Hs.
  destruct (positions B !! Z.to_nat p) as [l|] eqn:E; [|destruct Hs].
  apply list_elem_of_lookup_2, list_elem_of_In in E.
  rewrite forallb_forall in Hf. specialize (Hf _ E). rewrite forallb_forall in Hf.
  specialize (Hf _ Hs). rewrite andb_true_iff, Z.leb_le, Z.ltb_lt in Hf. exact Hf.
Qed.

Lemma validate_board_lists_witness :
  let B := demo_make (double_move E2 E4 WHITE_PAWN) (demo_board startFEN) in
  length (positions B) = 16%nat /\ length (pieces B) = 120%nat
  /\ (forall p sq, In sq (plist B p) -> 0 <= sq < 120)
  /\ validate_board B = true /\ pieces_inv B.
Proof.
  intros B.
  assert (H1 : length (positions B) = 16%nat) by (vm_compute; reflexivity).
  assert (H2 : length (pieces B) = 120%nat) by (vm_compute; reflexivity).
  assert (H3 : forall p sq, In sq (plist B p) -> 0 <= sq < 120)
    by (apply positions_in_range; vm_compute; reflexivity).
  assert (H4 : validate_board B = true) by (vm_compute; reflexivity).
  split; [exact H1|]. split; [exact H2|]. split; [exact H3|]. split; [exact H4|].
  exact (validate_board_lists B H1 H2 H3 H4).
Defined.


(* ------------------------------------------------------------------ *)
(** ** Castle rights and the cache bound *)

Lemma castle_sub_refl a : castle_sub a a.
Proof. intros i H. exact H. Qed.

Lemma castle_sub_land a mask : castle_sub (Z.land a mask) a.
Proof. intros i. rewrite Z.land_spec, andb_true_iff. tauto. Qed.

Lemma castle_sub_trans a b c : castle_sub a b -> castle_sub b c -> castle_sub a c.
Proof. intros H1 H2 i H. apply H2, H1, H. Qed.

Lemma strip_castling_sub sq cs : castle_sub (strip_castling sq cs) cs.
Proof.
  unfold strip_castling.
  repeat match goal with |- context [if ?c then _ else _] => destruct c end;
  repeat (eapply castle_sub_trans; [apply castle_sub_land|]); apply castle_sub_refl.
Qed.

Lemma make_motion_castle_sub ph ch eh m B B1 :
  make_motion ph ch eh m B = Some B1 -> castle_sub (castle_state B1) (castle_state B).
Proof.
  unfold make_motion, update_castling. intros H.
  repeat case_match; frame_steps; cbn [castle_state set_en_passant set_castle_state set_castle set_ep set_hash] in *;
  repeat match goal with
         | H : castle_state ?x = castle_state ?y |- context [castle_state ?x] => rewrite H
         end;
  first [ apply castle_sub_refl | apply castle_sub_land
        | eapply castle_sub_trans; [apply strip_castling_sub|]; 
          repeat match goal with
                 | H : castle_state ?x = castle_state ?y |- context [castle_state ?x] => rewrite H
                 end; apply castle_sub_refl ].
Qed.

(** X26: [make_move] never adds a castle right. *)
Theorem make_move_never_grants_castling ph ch eh sh m B B' valid :
  make_move ph ch eh sh m B = Some (B', valid) ->
  forall i, Z.testbit (castle_state B') i = true -> Z.testbit (castle_state B) i = true.
Proof.
  unfold make_move. destruct (make_motion _ _ _ _ _) as [B1|] eqn:Hm; [|discriminate].
  cbn. intros [= <- _]. apply make_motion_castle_sub in Hm.
  destruct (_ || _); exact Hm.
Qed.

Lemma make_move_never_grants_castling_witness :
  let B := demo_board "r3k2r/8/8/8/8/8/8/R3K2R w KQkq - 0 1" in
  let m := castle_move E1 G1 WHITE_KING SHORT_CASTLE_MOVE in
  make_move demo_piece_hash demo_castle_hash demo_enpas_hash demo_side_hash m B
    = Some (demo_make m B, true)
  /\ forall i, Z.testbit (castle_state (demo_make m B)) i = true -> Z.testbit (castle_state B) i = true.
Proof.
  intros B m.
  assert (H : make_move demo_piece_hash demo_castle_hash demo_enpas_hash demo_side_hash m B
                = Some (demo_make m B, true)) by (vm_compute; reflexivity).
  split; [exact H|]. exact (make_move_never_grants_castling _ _ _ _ _ _ _ _ H).
Defined.



(** X27: with a cache of lists of at most MAX_POSITION_MOVES moves, [pseudo_moves] returns such a list and keeps the cache so. *)
Theorem pseudo_moves_bounded cache B s r cache' :
  cache_bounded cache -> pseudo_moves cache B s = Some (r, cache') ->
  (length r <= MAX_POSITION_MOVES)%nat /\ cache_bounded cache'.
Proof.
  intros Hc. unfold pseudo_moves. destruct (cache !! hash B) as [l|] eqn:Hl.
  - intros [= <- <-]. split; [exact (Hc _ _ Hl) | exact Hc].
  - destruct (orb _ _).
    + intros [= <- <-]. split; [cbn; unfold MAX_POSITION_MOVES; lia | exact Hc].
    + destruct (negb _) eqn:Hn; [discriminate|]. intros [= <- <-].
      apply negb_false_iff, Nat.leb_le in Hn. split; [exact Hn|].
      intros k l Hk. rewrite lookup_insert in Hk. case_decide.
      * injection Hk as <-. exact Hn.
      * exact (Hc _ _ Hk).
Qed.

Lemma empty_cache_bounded : cache_bounded ∅.
Proof. intros k l Hk. rewrite lookup_empty in Hk. discriminate. Qed.

Lemma pseudo_moves_bounded_witness :
  let B := demo_board startFEN in
  cache_bounded ∅ /\ pseudo_moves ∅ B None = Some (generate_moves B WHITE, start_cache)
  /\ (length (generate_moves B WHITE) <= MAX_POSITION_MOVES)%nat /\ cache_bounded start_cache.
Proof.
  intros B. assert (H : pseudo_moves ∅ B None = Some (generate_moves B WHITE, start_cache))
    by (vm_compute; reflexivity).
  split; [exact empty_cache_bounded|]. split; [exact H|].
  exact (pseudo_moves_bounded _ _ _ _ _ empty_cache_bounded H).
Defined.
